(** * Kameeti committee manager: the ledger engine

    A shallow embedding of the state container of [hooks/useCommitteeData]
    (committees, members, payments, draws and the bounded undo history), of
    the duration and late-fee computations, of what the member, payment and
    draw dialogs compute and send, and of the payments grid and the progress
    shown by the dashboard, followed by the properties proved about them.

    Conventions of the embedding.
    - A JavaScript array is a [list]; [arr[i] = v] is stdpp's [<[i:=v]>].
    - An optional string property ([pairId?: string]) is an [option string];
      [truthy] is JavaScript's truthiness test on it.
    - The object used as a dictionary in [calculateDuration] is a
      [gmap string _]; only the number of its values matters there.
    - [uuidv4()] is an explicit argument [newId] of the operations that
      create an entity.
    - A React state updater is a function [AppState -> AppState], named
      after its mutation with the suffix [_upd]; the hook's pair of states
      (snapshot, history) is the record [Engine], and the mutation itself is
      the updater run through [updateStateAndHistory].
    - Amounts are integers; the engine stores them and computes nothing from
      them.
    - A [Date] is its time value, an integer number of milliseconds or
      [NaN]; [Date.UTC], [getUTCFullYear], [getUTCMonth] and [toISOString]
      follow ECMA-262. The current time of [new Date()] is an argument. *)

From Stdlib Require Import ZArith Ascii.
From stdpp Require Import base decidable option list gmap strings.


(** ** Data model ([types.ts]) *)

Inductive ShareType := FULL | HALF.

#[global] Instance ShareType_eq_dec : EqDecision ShareType.
Proof. solve_decision. Defined.

Module Committee.
Record t := mk {
  id : string;
  name : string;
  monthlyAmount : Z;
  startDate : string;
  durationMonths : nat;
  allowHalfShare : bool
}.
Definition set_durationMonths (d : nat) (c : t) : t :=
  mk (id c) (name c) (monthlyAmount c) (startDate c) d (allowHalfShare c).
End Committee.

(** [Omit<Committee, 'id' | 'durationMonths'>], the form data of a committee. *)
Module CommitteeData.
Record t := mk {
  name : string;
  monthlyAmount : Z;
  startDate : string;
  allowHalfShare : bool
}.
End CommitteeData.

Module Member.
Record t := mk {
  id : string;
  committeeId : string;
  name : string;
  phone : string;
  shareType : ShareType;
  pairId : option string
}.
Definition set_pairId (p : option string) (m : t) : t :=
  mk (id m) (committeeId m) (name m) (phone m) (shareType m) p.
End Member.

(** [Omit<Member, 'id'>]. *)
Module MemberData.
Record t := mk {
  committeeId : string;
  name : string;
  phone : string;
  shareType : ShareType;
  pairId : option string
}.
End MemberData.

Module Payment.
Record t := mk {
  id : string;
  committeeId : string;
  memberIdOrPairId : string;
  monthYear : string;
  amount : Z;
  datePaid : string;
  lateDays : Z;
  demeritPoints : Z
}.
End Payment.

(** [Omit<Payment, 'id' | 'lateDays' | 'demeritPoints'>]. *)
Module PaymentData.
Record t := mk {
  committeeId : string;
  memberIdOrPairId : string;
  monthYear : string;
  amount : Z;
  datePaid : string
}.
End PaymentData.

Module Draw.
Record t := mk {
  id : string;
  committeeId : string;
  monthYear : string;
  winnerIdOrPairId : string;
  payoutDate : string;
  amount : Z
}.
End Draw.

(** [Omit<Draw, 'id'>]. *)
Module DrawData.
Record t := mk {
  committeeId : string;
  monthYear : string;
  winnerIdOrPairId : string;
  payoutDate : string;
  amount : Z
}.
End DrawData.

#[global] Instance Committee_eq_dec : EqDecision Committee.t.
Proof. solve_decision. Defined.
#[global] Instance Member_eq_dec : EqDecision Member.t.
Proof. solve_decision. Defined.
#[global] Instance Payment_eq_dec : EqDecision Payment.t.
Proof. solve_decision. Defined.
#[global] Instance Draw_eq_dec : EqDecision Draw.t.
Proof. solve_decision. Defined.

Record AppState := mkAppState {
  committees : list Committee.t;
  members : list Member.t;
  payments : list Payment.t;
  draws : list Draw.t
}.

#[global] Instance AppState_eq_dec : EqDecision AppState.
Proof. solve_decision. Defined.

Definition emptyState : AppState := mkAppState [] [] [] [].

Definition MAX_HISTORY_SIZE : nat := 20.

(** ** JavaScript primitives used by the engine *)

(** [if (s)] on an optional string: [undefined] and [''] are falsy. *)
Definition truthy (s : option string) : option string :=
  match s with
  | Some k => if decide (k = "") then None else Some k
  | None => None
  end.

(** [a < b ? a : b] on strings (code-unit lexicographic order). *)
Definition minId (a b : string) : string :=
  if String.ltb a b then a else b.

(** ** Duration derivation *)

(** The [reduce] of [calculateDuration]: members with a truthy [pairId] are
    appended to the array stored under that key. The accumulator starts as
    the empty map; pair ids that name a property every JavaScript object
    inherits (["constructor"], ["toString"], ...) are outside the model, ids
    being UUIDs. *)
Definition groupStep (acc : gmap string (list Member.t)) (member : Member.t)
  : gmap string (list Member.t) :=
  match truthy (Member.pairId member) with
  | Some k => <[k := default [] (acc !! k) ++ [member]]> acc
  | None => acc
  end.

Definition groupByPairId (ms : list Member.t) : gmap string (list Member.t) :=
  foldl groupStep ∅ ms.

Definition calculateDuration (committeeId : string) (ms : list Member.t) : nat :=
  let committeeMembers := filter (λ m, Member.committeeId m = committeeId) ms in
  let fullShareCount :=
    length (filter (λ m, Member.shareType m = FULL) committeeMembers) in
  let halfShareMembers :=
    filter (λ m, Member.shareType m = HALF) committeeMembers in
  if decide (length halfShareMembers < 2) then fullShareCount
  else
    let membersByPairId := groupByPairId halfShareMembers in
    let pairCount :=
      length (filter (λ group : list Member.t, length group = 2)
                     (map_to_list membersByPairId).*2) in
    fullShareCount + pairCount.

(** ** Snapshot and history *)

(** The two React states of the hook: [state] and [history], newest entry
    first. *)
Record Engine := mkEngine {
  state : AppState;
  history : list AppState
}.

Definition canUndo (e : Engine) : bool :=
  bool_decide (0 < length (history e)).

(** The function given to [setHistory]. *)
Definition pushHistory (oldState : AppState) (prevHistory : list AppState)
  : list AppState :=
  let newHistory := oldState :: prevHistory in
  if decide (MAX_HISTORY_SIZE < length newHistory)
  then take MAX_HISTORY_SIZE newHistory
  else newHistory.

(** [setState(prev => ...)] with the [setHistory] call inside the updater;
    the updater is run once per call. *)
Definition updateStateAndHistory (newState : AppState → AppState) (e : Engine)
  : Engine :=
  let oldState := state e in
  let updatedState := newState oldState in
  mkEngine updatedState (pushHistory oldState (history e)).

Definition undo (e : Engine) : Engine :=
  match history e with
  | lastState :: rest => mkEngine lastState rest
  | [] => e
  end.

(** ** Committee operations (state updaters) *)

(** [committees.map(c => c.id === cid ? {...c, durationMonths: d} : c)]. *)
Definition setDuration (cid : string) (d : nat) (cs : list Committee.t)
  : list Committee.t :=
  (λ c, if decide (Committee.id c = cid)
        then Committee.set_durationMonths d c else c) <$> cs.

Definition addCommittee_upd (newId : string) (committee : CommitteeData.t)
  (prev : AppState) : AppState :=
  let newCommittee :=
    Committee.mk newId (CommitteeData.name committee)
      (CommitteeData.monthlyAmount committee)
      (CommitteeData.startDate committee) 0
      (CommitteeData.allowHalfShare committee) in
  mkAppState (committees prev ++ [newCommittee]) (members prev)
             (payments prev) (draws prev).

(** [members.some(m => m.committeeId === cid && m.shareType === HALF)]. *)
Definition hasHalfShareMembers (cid : string) (ms : list Member.t) : bool :=
  bool_decide (Exists (λ m, Member.committeeId m = cid
                            ∧ Member.shareType m = HALF) ms).

Definition updateCommittee_upd (cid : string) (upd : CommitteeData.t)
  (prev : AppState) : AppState :=
  match list_find (λ c, Committee.id c = cid) (committees prev) with
  | None => prev
  | Some (_, existingCommittee) =>
      if negb (CommitteeData.allowHalfShare upd)
         && hasHalfShareMembers cid (members prev)
      then prev
      else
        let updatedCommittee :=
          Committee.mk cid (CommitteeData.name upd)
            (CommitteeData.monthlyAmount upd) (CommitteeData.startDate upd)
            (Committee.durationMonths existingCommittee)
            (CommitteeData.allowHalfShare upd) in
        mkAppState
          ((λ c, if decide (Committee.id c = Committee.id updatedCommittee)
                 then updatedCommittee else c) <$> committees prev)
          (members prev) (payments prev) (draws prev)
  end.

Definition deleteCommittee_upd (cid : string) (prev : AppState) : AppState :=
  mkAppState
    (filter (λ c, Committee.id c ≠ cid) (committees prev))
    (filter (λ m, Member.committeeId m ≠ cid) (members prev))
    (filter (λ p, Payment.committeeId p ≠ cid) (payments prev))
    (filter (λ d, Draw.committeeId d ≠ cid) (draws prev)).

(** ** Member operations (state updaters) *)

(** The member list [updatedMembers] that [addMember] builds. *)
Definition addMember_members (newId : string) (member : MemberData.t)
  (ms : list Member.t) : list Member.t :=
  let newMember :=
    Member.mk newId (MemberData.committeeId member) (MemberData.name member)
      (MemberData.phone member) (MemberData.shareType member)
      (MemberData.pairId member) in
  match MemberData.shareType member with
  | HALF =>
      match truthy (MemberData.pairId member) with
      | Some partnerId =>
          match list_find (λ m, Member.id m = partnerId) ms with
          | Some (partnerIndex, partner) =>
              let commonPairId := minId newId partnerId in
              <[partnerIndex := Member.set_pairId (Some commonPairId) partner]> ms
                ++ [Member.set_pairId (Some commonPairId) newMember]
          | None => ms ++ [Member.set_pairId (Some newId) newMember]
          end
      | None => ms ++ [Member.set_pairId (Some newId) newMember]
      end
  | FULL => ms ++ [newMember]
  end.

Definition addMember_upd (newId : string) (member : MemberData.t)
  (prev : AppState) : AppState :=
  let updatedMembers := addMember_members newId member (members prev) in
  let newDuration :=
    calculateDuration (MemberData.committeeId member) updatedMembers in
  mkAppState
    (setDuration (MemberData.committeeId member) newDuration (committees prev))
    updatedMembers (payments prev) (draws prev).

(** [prev.members.find(m => m.pairId === x.pairId && m.id !== x.id)] for a
    HALF member [x], [undefined] for a FULL one. *)
Definition partnerOf (x : Member.t) (ms : list Member.t) : option Member.t :=
  match Member.shareType x with
  | HALF =>
      snd <$> list_find (λ m, Member.pairId m = Member.pairId x
                              ∧ Member.id m ≠ Member.id x) ms
  | FULL => None
  end.

(** Write [partner.id] into the [pairId] of the first member whose id is
    [partner.id]. *)
Definition resetPartner (partner : option Member.t) (ms : list Member.t)
  : list Member.t :=
  match partner with
  | Some p =>
      match list_find (λ m, Member.id m = Member.id p) ms with
      | Some (i, q) => <[i := Member.set_pairId (Some (Member.id p)) q]> ms
      | None => ms
      end
  | None => ms
  end.

(** The member list [membersAfterUpdate] that [updateMember] builds, given
    the stored member [originalMember]. *)
Definition updateMember_members (updatedMember originalMember : Member.t)
  (ms : list Member.t) : list Member.t :=
  let newPartnerIdFromModal := default "" (Member.pairId updatedMember) in
  let originalPartner := partnerOf originalMember ms in
  let membersAfterUpdate := resetPartner originalPartner ms in
  let '(finalMember, membersAfterUpdate) :=
    if decide (newPartnerIdFromModal = "")
    then (Member.set_pairId (Some (Member.id updatedMember)) updatedMember,
          membersAfterUpdate)
    else
      match list_find (λ m, Member.id m = newPartnerIdFromModal)
                      membersAfterUpdate with
      | Some (newPartnerIndex, newPartner) =>
          let commonPairId :=
            minId (Member.id updatedMember) newPartnerIdFromModal in
          (Member.set_pairId (Some commonPairId) updatedMember,
           <[newPartnerIndex := Member.set_pairId (Some commonPairId) newPartner]>
             membersAfterUpdate)
      | None =>
          (Member.set_pairId (Some (Member.id updatedMember)) updatedMember,
           membersAfterUpdate)
      end in
  match list_find (λ m, Member.id m = Member.id updatedMember)
                  membersAfterUpdate with
  | Some (finalMemberIndex, _) =>
      <[finalMemberIndex := finalMember]> membersAfterUpdate
  | None => membersAfterUpdate
  end.

Definition updateMember_upd (updatedMember : Member.t) (prev : AppState)
  : AppState :=
  match list_find (λ m, Member.id m = Member.id updatedMember) (members prev) with
  | None => prev
  | Some (_, originalMember) =>
      let membersAfterUpdate :=
        updateMember_members updatedMember originalMember (members prev) in
      let newDuration :=
        calculateDuration (Member.committeeId updatedMember) membersAfterUpdate in
      mkAppState
        (setDuration (Member.committeeId updatedMember) newDuration
                     (committees prev))
        membersAfterUpdate (payments prev) (draws prev)
  end.

(** The member list [newMembers] that [deleteMember] builds. *)
Definition deleteMember_members (mid : string) (memberToDelete : Member.t)
  (ms : list Member.t) : list Member.t :=
  let partner := partnerOf memberToDelete ms in
  let newMembers := filter (λ m, Member.id m ≠ mid) ms in
  resetPartner partner newMembers.

Definition committeeDraws (cid : string) (ds : list Draw.t) : list Draw.t :=
  filter (λ d, Draw.committeeId d = cid) ds.

Definition deleteMember_upd (mid : string) (prev : AppState) : AppState :=
  match list_find (λ m, Member.id m = mid) (members prev) with
  | None => prev
  | Some (_, memberToDelete) =>
      let newMembers := deleteMember_members mid memberToDelete (members prev) in
      let newDuration :=
        calculateDuration (Member.committeeId memberToDelete) newMembers in
      if decide (newDuration
                 < length (committeeDraws (Member.committeeId memberToDelete)
                                          (draws prev)))
      then prev
      else
        mkAppState
          (setDuration (Member.committeeId memberToDelete) newDuration
                       (committees prev))
          newMembers (payments prev) (draws prev)
  end.

(** ** Dates ([parseDateAsUTC], [Date.UTC]) *)

(** A JavaScript number that is an integer or [NaN] ([None]). Every number
    the date code handles is one of the two. *)
Definition num := option Z.

Definition msPerDay : Z := 1000 * 60 * 60 * 24.

Fixpoint splitAcc (sep : ascii) (cur : string) (s : string) : list string :=
  match s with
  | EmptyString => [String.rev cur]
  | String c rest =>
      if decide (c = sep) then String.rev cur :: splitAcc sep EmptyString rest
      else splitAcc sep (String c cur) rest
  end.

(** [s.split('-')]. *)
Definition split (sep : ascii) (s : string) : list string :=
  splitAcc sep EmptyString s.

Definition digitValue (c : ascii) : option Z :=
  let n := Z.of_N (N_of_ascii c) in
  if decide (48 ≤ n ≤ 57)%Z then Some (n - 48)%Z else None.

Fixpoint digitsValue (acc : Z) (s : string) : num :=
  match s with
  | EmptyString => Some acc
  | String c rest =>
      match digitValue c with
      | Some d => digitsValue (10 * acc + d)%Z rest
      | None => None
      end
  end.

(** [Number(s)] on the strings the date fields carry: a run of decimal
    digits is its value and the empty string is [0]. Any other string is
    taken as [NaN]; the signed, blank-padded, fractional, exponent and
    radix-prefixed literals that [Number] also reads are outside this model. *)
Definition Number (s : string) : num := digitsValue 0 s.

(** Days from the epoch to 1 January of year [y] (ECMA-262 [DayFromYear]). *)
Definition DayFromYear (y : Z) : Z :=
  (365 * (y - 1970) + (y - 1969) `div` 4 - (y - 1901) `div` 100
   + (y - 1601) `div` 400)%Z.

Definition InLeapYear (y : Z) : bool :=
  bool_decide (y `mod` 4 = 0 ∧ (y `mod` 100 ≠ 0 ∨ y `mod` 400 = 0))%Z.

Definition DaysInMonth (y : Z) (mn : Z) : Z :=
  (if decide (mn = 1) then (if InLeapYear y then 29 else 28)
   else if decide (mn = 3 ∨ mn = 5 ∨ mn = 8 ∨ mn = 10) then 30
   else 31)%Z.

(** Days from 1 January to the first day of month [mn] (0-based). *)
Definition monthOffset (y : Z) (mn : Z) : Z :=
  foldr Z.add 0%Z ((λ k, DaysInMonth y (Z.of_nat k)) <$> seq 0 (Z.to_nat mn)).

(** ECMA-262 [MakeDay] on integers. *)
Definition MakeDay (year month date : Z) : Z :=
  let ym := (year + month `div` 12)%Z in
  let mn := (month `mod` 12)%Z in
  (DayFromYear ym + monthOffset ym mn + date - 1)%Z.

(** ECMA-262 [TimeClip]. *)
Definition TimeClip (t : Z) : num :=
  if decide (Z.abs t ≤ 8640000000000000)%Z then Some t else None.

(** [Date.UTC(year, month, date)]: years 0..99 mean 1900..1999. *)
Definition DateUTC (year month date : num) : num :=
  match year, month, date with
  | Some y, Some m, Some d =>
      let yr := if decide (0 ≤ y ≤ 99)%Z then (1900 + y)%Z else y in
      TimeClip (MakeDay yr m d * msPerDay)
  | _, _, _ => None
  end.

(** [x - 1] on a number. *)
Definition pred1 (x : num) : num := (λ v, v - 1)%Z <$> x.

(** Component [i] of [s.split('-').map(Number)]; a missing component is
    [undefined], which the arithmetic turns into [NaN]. *)
Definition part (i : nat) (s : string) : num :=
  (Number <$> split "-"%char s) !! i ≫= id.

(** [parseDateAsUTC(dateString).getTime()]. *)
Definition parseDateAsUTC (dateString : string) : num :=
  if decide (dateString = "") then Some 0%Z
  else DateUTC (part 0 dateString) (pred1 (part 1 dateString)) (part 2 dateString).

(** ** Payments *)

Record Demerits := mkDemerits { d_lateDays : Z; d_demeritPoints : Z }.

(** The due date of a month token, in milliseconds. *)
Definition dueDate (monthYear : string) : num :=
  DateUTC (part 0 monthYear) (pred1 (part 1 monthYear)) (Some 10%Z).

(** [timeDiff > 0 ? Math.ceil(timeDiff / msPerDay) : 0]; the comparison
    with [NaN] is false. *)
Definition lateDaysOf (paid due : num) : Z :=
  match paid, due with
  | Some p, Some d =>
      let timeDiff := (p - d)%Z in
      if decide (0 < timeDiff)%Z then (- ((- timeDiff) `div` msPerDay))%Z else 0%Z
  | _, _ => 0%Z
  end.

Definition calculateDemerits (payment : PaymentData.t) : Demerits :=
  let paidDate := parseDateAsUTC (PaymentData.datePaid payment) in
  let lateDays := lateDaysOf paidDate (dueDate (PaymentData.monthYear payment)) in
  let demeritPoints := lateDays in
  mkDemerits lateDays demeritPoints.

Definition fullPayment (pid : string) (payment : PaymentData.t) : Payment.t :=
  let r := calculateDemerits payment in
  Payment.mk pid (PaymentData.committeeId payment)
    (PaymentData.memberIdOrPairId payment) (PaymentData.monthYear payment)
    (PaymentData.amount payment) (PaymentData.datePaid payment)
    (d_lateDays r) (d_demeritPoints r).

Definition handleAddPayment_upd (newId : string) (payment : PaymentData.t)
  (prev : AppState) : AppState :=
  mkAppState (committees prev) (members prev)
             (payments prev ++ [fullPayment newId payment]) (draws prev).

Definition handleUpdatePayment_upd (updatedPayment : PaymentData.t)
  (paymentId : string) (prev : AppState) : AppState :=
  mkAppState (committees prev) (members prev)
    ((λ p, if decide (Payment.id p = paymentId)
           then fullPayment paymentId updatedPayment else p) <$> payments prev)
    (draws prev).

Definition deletePayment_upd (pid : string) (prev : AppState) : AppState :=
  mkAppState (committees prev) (members prev)
             (filter (λ p, Payment.id p ≠ pid) (payments prev)) (draws prev).

(** ** Draws *)

Definition fullDraw (did : string) (draw : DrawData.t) : Draw.t :=
  Draw.mk did (DrawData.committeeId draw) (DrawData.monthYear draw)
    (DrawData.winnerIdOrPairId draw) (DrawData.payoutDate draw)
    (DrawData.amount draw).

Definition handleAddDraw_upd (newId : string) (draw : DrawData.t)
  (prev : AppState) : AppState :=
  mkAppState (committees prev) (members prev) (payments prev)
             (draws prev ++ [fullDraw newId draw]).

Definition handleUpdateDraw_upd (updatedDraw : DrawData.t) (drawId : string)
  (prev : AppState) : AppState :=
  mkAppState (committees prev) (members prev) (payments prev)
    ((λ d, if decide (Draw.id d = drawId)
           then fullDraw drawId updatedDraw else d) <$> draws prev).

Definition deleteDraw_upd (did : string) (prev : AppState) : AppState :=
  mkAppState (committees prev) (members prev) (payments prev)
             (filter (λ d, Draw.id d ≠ did) (draws prev)).

(** ** Eligible winners of a draw ([RecordDrawModal]) *)

Record Winner := mkWinner { w_id : string; w_name : string }.

(** [names.join(' & ')]. *)
Fixpoint joinNames (names : list string) : string :=
  match names with
  | [] => ""
  | [n] => n
  | n :: rest => n +:+ " & " +:+ joinNames rest
  end.

Record PairGroup := mkPairGroup {
  g_id : string;
  g_name : string;
  g_members : list Member.t
}.

Definition pushToGroup (m : Member.t) (g : PairGroup) : PairGroup :=
  let ms := g_members g ++ [m] in
  mkPairGroup (g_id g) (joinNames (Member.name <$> ms)) ms.

(** The accumulator object of the [reduce], as the list of its values in
    insertion order, which is the order [Object.values] gives for keys that
    are not array indices. *)
Definition pairStep (wonIds : gset string) (acc : list PairGroup) (m : Member.t)
  : list PairGroup :=
  match Member.shareType m, truthy (Member.pairId m) with
  | HALF, Some k =>
      if decide (k ∈ wonIds) then acc
      else
        match list_find (λ g, g_id g = k) acc with
        | Some (i, g) => <[i := pushToGroup m g]> acc
        | None => acc ++ [pushToGroup m (mkPairGroup k "" [])]
        end
  | _, _ => acc
  end.

Definition wonIdsOf (committeeId : string) (ds : list Draw.t) : gset string :=
  list_to_set (Draw.winnerIdOrPairId <$> committeeDraws committeeId ds).

Definition eligibleWinners (ms : list Member.t) (ds : list Draw.t)
  (committeeId : string) (editingDraw : option Draw.t) : list Winner :=
  let wonIds := wonIdsOf committeeId ds in
  let fullMembers :=
    filter (λ m, Member.shareType m = FULL ∧ Member.id m ∉ wonIds) ms in
  let pairs := foldl (pairStep wonIds) [] ms in
  let rest :=
    ((λ m, mkWinner (Member.id m) (Member.name m)) <$> fullMembers)
    ++ ((λ g, mkWinner (g_id g) (g_name g)) <$> pairs) in
  match editingDraw with
  | Some ed =>
      let winnerId := Draw.winnerIdOrPairId ed in
      let winnerInMembers := list_find (λ m, Member.id m = winnerId) ms in
      let pairMembers := filter (λ m, Member.pairId m = Some winnerId) ms in
      match winnerInMembers with
      | Some (_, w) => mkWinner winnerId (Member.name w) :: rest
      | None =>
          if decide (0 < length pairMembers)
          then mkWinner winnerId (joinNames (Member.name <$> pairMembers)) :: rest
          else rest
      end
  | None => rest
  end.

(** ** Partner choices offered by the member dialog ([AddMemberModal]) *)

Definition unpairedHalfShareMembers (ms : list Member.t) (committeeId : string)
  (editingMember : option Member.t) : list Member.t :=
  filter (λ m, Member.committeeId m = committeeId
               ∧ Member.shareType m = HALF
               ∧ Member.pairId m = Some (Member.id m)
               ∧ Member.id <$> editingMember ≠ Some (Member.id m)) ms.

(** The [memberData] the dialog's [handleSubmit] sends for a new member:
    [pairId] is the chosen partner (or [''] for none) for a HALF member and
    is left out for a FULL member. *)
Definition dialogMemberData (committeeId name phone : string)
  (shareType : ShareType) (partnerId : string) : MemberData.t :=
  MemberData.mk committeeId name phone shareType
    match shareType with
    | HALF => Some partnerId
    | FULL => None
    end.

(** ** The hook's operations on the engine *)

Inductive Op :=
  | AddCommittee (newId : string) (committee : CommitteeData.t)
  | UpdateCommittee (id : string) (committeeUpdate : CommitteeData.t)
  | DeleteCommittee (id : string)
  | AddMember (newId : string) (member : MemberData.t)
  | UpdateMember (updatedMember : Member.t)
  | DeleteMember (id : string)
  | AddPayment (newId : string) (payment : PaymentData.t)
  | UpdatePayment (payment : PaymentData.t) (paymentId : string)
  | DeletePayment (id : string)
  | AddDraw (newId : string) (draw : DrawData.t)
  | UpdateDraw (draw : DrawData.t) (drawId : string)
  | DeleteDraw (id : string).

(** The state updater each mutation hands to [updateStateAndHistory]. *)
Definition updater (o : Op) : AppState → AppState :=
  match o with
  | AddCommittee newId c => addCommittee_upd newId c
  | UpdateCommittee cid c => updateCommittee_upd cid c
  | DeleteCommittee cid => deleteCommittee_upd cid
  | AddMember newId m => addMember_upd newId m
  | UpdateMember m => updateMember_upd m
  | DeleteMember mid => deleteMember_upd mid
  | AddPayment newId p => handleAddPayment_upd newId p
  | UpdatePayment p pid => handleUpdatePayment_upd p pid
  | DeletePayment pid => deletePayment_upd pid
  | AddDraw newId d => handleAddDraw_upd newId d
  | UpdateDraw d did => handleUpdateDraw_upd d did
  | DeleteDraw did => deleteDraw_upd did
  end.

Definition mutate (o : Op) (e : Engine) : Engine :=
  updateStateAndHistory (updater o) e.

Definition addCommittee newId c := mutate (AddCommittee newId c).
Definition updateCommittee cid c := mutate (UpdateCommittee cid c).
Definition deleteCommittee cid := mutate (DeleteCommittee cid).
Definition addMember newId m := mutate (AddMember newId m).
Definition updateMember m := mutate (UpdateMember m).
Definition deleteMember mid := mutate (DeleteMember mid).
Definition handleAddPayment newId p := mutate (AddPayment newId p).
Definition handleUpdatePayment p pid := mutate (UpdatePayment p pid).
Definition deletePayment pid := mutate (DeletePayment pid).
Definition handleAddDraw newId d := mutate (AddDraw newId d).
Definition handleUpdateDraw d did := mutate (UpdateDraw d did).
Definition deleteDraw did := mutate (DeleteDraw did).

(** [addPayment(payment, paymentId?)] and [addDraw(draw, drawId?)]: an edit
    when an id is given, a new record otherwise. *)
Definition addPayment (newId : string) (payment : PaymentData.t)
  (paymentId : option string) : Engine → Engine :=
  match truthy paymentId with
  | Some pid => handleUpdatePayment payment pid
  | None => handleAddPayment newId payment
  end.

Definition addDraw (newId : string) (draw : DrawData.t)
  (drawId : option string) : Engine → Engine :=
  match truthy drawId with
  | Some did => handleUpdateDraw draw did
  | None => handleAddDraw newId draw
  end.

(** A call of the hook: one of the mutations, or [undo]. *)
Inductive Call :=
  | Mutation (o : Op)
  | Undo.

Definition call (c : Call) (e : Engine) : Engine :=
  match c with
  | Mutation o => mutate o e
  | Undo => undo e
  end.

(** Running calls left to right. *)
Definition run (cs : list Call) (e : Engine) : Engine :=
  foldl (λ e c, call c e) e cs.

Definition initialEngine (s : AppState) : Engine := mkEngine s [].

(** The engine states the hook can reach from the empty snapshot. *)
Definition reachable (e : Engine) : Prop :=
  ∃ cs, e = run cs (initialEngine emptyState).

(** ** The dialogs' submissions ([AddMemberModal], [RecordDrawModal]) *)

(** The partner field of the member dialog when it opens: the pair id of
    the member being edited if that member is a HALF member whose pair id is
    not its own id, and empty otherwise. *)
Definition initialPartnerId (editingMember : option Member.t) : string :=
  match editingMember with
  | Some em =>
      if decide (Member.shareType em = HALF
                 ∧ Member.pairId em ≠ Some (Member.id em))
      then default "" (Member.pairId em)
      else ""
  | None => ""
  end.

(** [handleSubmit] of the member dialog followed by [handleSaveMember]:
    nothing is sent when the name or the phone is empty; an edit goes to
    [updateMember] with the id of the member being edited, a new member to
    [addMember]. *)
Definition memberDialogSubmit (committee : Committee.t)
  (editingMember : option Member.t) (name phone : string)
  (shareType : ShareType) (partnerId : string) (newId : string) : option Op :=
  if decide (name = "" ∨ phone = "") then None
  else
    let memberData :=
      dialogMemberData (Committee.id committee) name phone shareType partnerId in
    match editingMember with
    | Some em =>
        Some (UpdateMember
                (Member.mk (Member.id em) (MemberData.committeeId memberData)
                   (MemberData.name memberData) (MemberData.phone memberData)
                   (MemberData.shareType memberData)
                   (MemberData.pairId memberData)))
    | None => Some (AddMember newId memberData)
    end.

(** [handleSubmit] of the draw dialog followed by the hook's [addDraw]:
    nothing is sent without a winner; the draw carries the committee's id
    and the whole pool, and it is an edit when the draw being edited has a
    truthy id. *)
Definition drawDialogSubmit (committee : Committee.t) (currentMonthYear : string)
  (editingDraw : option Draw.t) (winnerId payoutDate : string) (newId : string)
  : option Op :=
  if decide (winnerId = "") then None
  else
    let drawData :=
      DrawData.mk (Committee.id committee) currentMonthYear winnerId payoutDate
        (Committee.monthlyAmount committee
         * Z.of_nat (Committee.durationMonths committee)) in
    match truthy (Draw.id <$> editingDraw) with
    | Some drawId => Some (UpdateDraw drawData drawId)
    | None => Some (AddDraw newId drawData)
    end.

(** ** The payments grid ([CommitteeDetail]) and the payment dialog's rows
       ([RecordPaymentModal]) *)

(** A row of the grid is an [{id, name}] object, the shape of an eligible
    winner: rows have the type [Winner]. *)

(** The [reduce] of [membersByShare]: the HALF members with a truthy pair
    id, grouped under it; the object is kept as its entries in insertion
    order, the order of [Object.entries] for keys that are not array
    indices. As in [groupStep], pair ids that name an inherited property are
    outside the model. *)
Definition pairsStep (acc : list (string * list Member.t)) (member : Member.t)
  : list (string * list Member.t) :=
  match truthy (Member.pairId member) with
  | Some k =>
      match list_find (λ kv, kv.1 = k) acc with
      | Some (i, kv) => <[i := (kv.1, kv.2 ++ [member])]> acc
      | None => acc ++ [(k, [member])]
      end
  | None => acc
  end.

Definition membersByShare (committeeMembers : list Member.t)
  : list Member.t * list (string * list Member.t) :=
  let full := filter (λ m, Member.shareType m = FULL) committeeMembers in
  let half := filter (λ m, Member.shareType m = HALF) committeeMembers in
  (full, foldl pairsStep [] half).

(** [paymentsGrid.memberRows]. *)
Definition gridMemberRows (committeeMembers : list Member.t) : list Winner :=
  let by_share := membersByShare committeeMembers in
  ((λ m, mkWinner (Member.id m) (Member.name m)) <$> by_share.1)
  ++ ((λ kv, mkWinner kv.1 (joinNames (Member.name <$> kv.2))) <$> by_share.2).

(** The [reduce] of [memberRows] in the payment dialog. *)
Definition rowStep (acc : list PairGroup) (m : Member.t) : list PairGroup :=
  match Member.shareType m, truthy (Member.pairId m) with
  | HALF, Some k =>
      match list_find (λ g, g_id g = k) acc with
      | Some (i, g) => <[i := pushToGroup m g]> acc
      | None => acc ++ [pushToGroup m (mkPairGroup k "" [])]
      end
  | _, _ => acc
  end.

(** [memberRows] of the payment dialog, each row through its [id] and
    [name], the two fields the dialog reads. *)
Definition memberRows (ms : list Member.t) : list Winner :=
  ((λ m, mkWinner (Member.id m) (Member.name m))
     <$> filter (λ m, Member.shareType m = FULL) ms)
  ++ ((λ g, mkWinner (g_id g) (g_name g)) <$> foldl rowStep [] ms).

(** The key of a grid cell, [`${memberIdOrPairId}-${monthYear}`]. *)
Definition cellKey (memberIdOrPairId monthYear : string) : string :=
  memberIdOrPairId +:+ "-" +:+ monthYear.

(** [paymentsMap]: the committee's payments under their cell keys; a later
    payment replaces an earlier one with the same key. A cell key contains a
    hyphen, so it names no property that the object inherits. *)
Definition paymentsMap (committeePayments : list Payment.t)
  : gmap string Payment.t :=
  foldl (λ acc p,
           <[cellKey (Payment.memberIdOrPairId p) (Payment.monthYear p) := p]> acc)
        ∅ committeePayments.

(** [completedMonths]: the months in which every row has a payment; empty
    when the grid has no rows. *)
Definition completedMonths (months : list string) (rows : list Winner)
  (pm : gmap string Payment.t) : gset string :=
  if decide (length rows = 0) then ∅
  else
    foldl (λ completed month,
             if decide (Forall (λ row, is_Some (pm !! cellKey (w_id row) month))
                               rows)
             then completed ∪ {[month]}
             else completed)
          ∅ months.

(** ** Month tokens ([paymentsGrid.months], [months], [currentMonthYear]) *)

(** ECMA-262 [Day]. *)
Definition Day (t : Z) : Z := (t `div` msPerDay)%Z.

(** ECMA-262 [YearFromTime]: the largest [y] with [DayFromYear y ≤ Day t].
    400 years have 146097 days, so day [d] lies at most one year away from
    year [1970 + 400 d / 146097]. *)
Definition YearFromTime (t : Z) : Z :=
  let d := Day t in
  let y := (1970 + (400 * d) `div` 146097)%Z in
  if decide (d < DayFromYear y)%Z then (y - 1)%Z
  else if decide (DayFromYear (y + 1) ≤ d)%Z then (y + 1)%Z
  else y.

Definition DayWithinYear (t : Z) : Z :=
  (Day t - DayFromYear (YearFromTime t))%Z.

(** ECMA-262 [MonthFromTime]. *)
Definition MonthFromTime (t : Z) : Z :=
  let d := DayWithinYear t in
  let leap := (if InLeapYear (YearFromTime t) then 1 else 0)%Z in
  (if decide (d < 31) then 0
   else if decide (d < 59 + leap) then 1
   else if decide (d < 90 + leap) then 2
   else if decide (d < 120 + leap) then 3
   else if decide (d < 151 + leap) then 4
   else if decide (d < 181 + leap) then 5
   else if decide (d < 212 + leap) then 6
   else if decide (d < 243 + leap) then 7
   else if decide (d < 273 + leap) then 8
   else if decide (d < 304 + leap) then 9
   else if decide (d < 334 + leap) then 10
   else 11)%Z.

(** [date.getUTCFullYear()] and [date.getUTCMonth()]; [NaN] for an invalid
    date. *)
Definition getUTCFullYear (date : num) : num := YearFromTime <$> date.
Definition getUTCMonth (date : num) : num := MonthFromTime <$> date.

Definition digitChar (d : Z) : ascii := ascii_of_N (Z.to_N (48 + d)).

(** The last [n] decimal digits of [v]. *)
Fixpoint padDigits (n : nat) (v : Z) : string :=
  match n with
  | O => ""
  | S n' => padDigits n' (v `div` 10)%Z +:+ String (digitChar (v `mod` 10)%Z) ""
  end.

(** [new Date(t).toISOString().slice(0, 7)]: the year in four digits and
    the month in two for the years 0 to 9999, the sign and six digits of the
    year otherwise; [None] is the [RangeError] of an invalid date. *)
Definition isoYearMonth (t : num) : option string :=
  match t with
  | Some tv =>
      let y := YearFromTime tv in
      Some (if decide (0 ≤ y ≤ 9999)%Z
            then padDigits 4 y +:+ "-" +:+ padDigits 2 (MonthFromTime tv + 1)%Z
            else String (if decide (0 ≤ y)%Z then "+" else "-")%char
                        (padDigits 6 (Z.abs y)))
  | None => None
  end.

(** The month token [i] months after the start month:
    [new Date(Date.UTC(start.getUTCFullYear(), start.getUTCMonth() + i, 1))
       .toISOString().slice(0, 7)]. *)
Definition monthAt (startDate : string) (i : nat) : option string :=
  let start := parseDateAsUTC startDate in
  isoYearMonth
    (DateUTC (getUTCFullYear start)
             ((λ m, m + Z.of_nat i)%Z <$> getUTCMonth start)
             (Some 1%Z)).

(** [paymentsGrid.months], and [months] of the payment dialog:
    [Array.from({ length: committee.durationMonths }, (_, i) => ...)]. *)
Definition months (committee : Committee.t) : option (list string) :=
  mapM (monthAt (Committee.startDate committee))
       (seq 0 (Committee.durationMonths committee)).

(** [currentMonthYear] of the draw dialog. *)
Definition currentMonthYear (committee : Committee.t) (draws : list Draw.t)
  (editingDraw : option Draw.t) : option string :=
  match editingDraw with
  | Some ed => Some (Draw.monthYear ed)
  | None =>
      let committeeDrawsCount :=
        length (committeeDraws (Committee.id committee) draws) in
      monthAt (Committee.startDate committee) committeeDrawsCount
  end.

(** ** The payment dialog's submission ([RecordPaymentModal]) *)

(** [handleSubmit] of the payment dialog followed by the hook's
    [addPayment]: nothing is sent without a member or a month; the payment
    carries the committee's id and monthly amount, and it is an edit when
    the payment being edited has a truthy id. *)
Definition paymentDialogSubmit (committee : Committee.t)
  (editingPayment : option Payment.t)
  (selectedMemberId selectedMonth datePaid : string) (newId : string)
  : option Op :=
  if decide (selectedMemberId = "" ∨ selectedMonth = "") then None
  else
    let paymentData :=
      PaymentData.mk (Committee.id committee) selectedMemberId selectedMonth
        (Committee.monthlyAmount committee) datePaid in
    match truthy (Payment.id <$> editingPayment) with
    | Some paymentId => Some (UpdatePayment paymentData paymentId)
    | None => Some (AddPayment newId paymentData)
    end.

(** ** Progress of a committee ([Dashboard]) *)

(** [monthsPassed] of the dashboard at the time [now], in milliseconds. *)
Definition monthsPassed (now : Z) (startDate : string) : num :=
  let start := parseDateAsUTC startDate in
  match getUTCFullYear start, getUTCMonth start with
  | Some sy, Some sm =>
      Some (Z.max 0 ((YearFromTime now - sy) * 12 + (MonthFromTime now - sm)))
  | _, _ => None
  end.

(** [isComplete] of the dashboard; a comparison with [NaN] is false. *)
Definition isComplete (now : Z) (committee : Committee.t) : bool :=
  bool_decide (0 < Committee.durationMonths committee)
  && match monthsPassed now (Committee.startDate committee) with
     | Some mp => bool_decide (Z.of_nat (Committee.durationMonths committee) ≤ mp)%Z
     | None => false
     end.

(** * Specification-level definitions *)

(** The notions the properties below are stated with: the derived duration
    in the words of the specification, the invariants, the calling
    disciplines under which they are kept, and the scenarios used as
    concrete instances. *)

(** ** Rejections *)

(** The calls the updaters turn down: an unknown id, the half-share guard
    of [updateCommittee], the draw-count guard of [deleteMember]. *)
Definition rejected (o : Op) (s : AppState) : Prop :=
  match o with
  | UpdateCommittee cid u =>
      list_find (λ c, Committee.id c = cid) (committees s) = None
      ∨ (CommitteeData.allowHalfShare u = false
         ∧ hasHalfShareMembers cid (members s) = true)
  | UpdateMember m =>
      list_find (λ x, Member.id x = Member.id m) (members s) = None
  | DeleteMember mid =>
      match list_find (λ x, Member.id x = mid) (members s) with
      | None => True
      | Some (_, m) =>
          calculateDuration (Member.committeeId m)
            (deleteMember_members mid m (members s))
          < length (committeeDraws (Member.committeeId m) (draws s))
      end
  | _ => False
  end.

(** ** Derived duration *)

(** The derived duration, in the words of the specification: the number of
    FULL members of the committee plus the number of pair ids under which
    exactly two of its HALF members are grouped. A member without a pair id
    ([undefined], or the empty string the member dialog sends for "no
    partner") is in no group. *)
Definition fullMembersOf (cid : string) (ms : list Member.t) : list Member.t :=
  filter (λ m, Member.shareType m = FULL)
         (filter (λ m, Member.committeeId m = cid) ms).

Definition halfMembersOf (cid : string) (ms : list Member.t) : list Member.t :=
  filter (λ m, Member.shareType m = HALF)
         (filter (λ m, Member.committeeId m = cid) ms).

Definition pairKey (m : Member.t) : option string := truthy (Member.pairId m).

Definition groupOf (k : string) (hs : list Member.t) : list Member.t :=
  filter (λ m, pairKey m = Some k) hs.

Definition completePairs (hs : list Member.t) : gset string :=
  filter (λ k, length (groupOf k hs) = 2) (list_to_set (omap pairKey hs)).

Definition deriveDuration (cid : string) (ms : list Member.t) : nat :=
  length (fullMembersOf cid ms) + size (completePairs (halfMembersOf cid ms)).

(** ** Draw candidates and winners *)

(** The ids a draw can go to: a FULL member's id, a HALF member's pair id. *)
Definition candidate (ms : list Member.t) (x : string) : Prop :=
  ∃ m, m ∈ ms ∧
       ((Member.shareType m = FULL ∧ Member.id m = x)
        ∨ (Member.shareType m = HALF ∧ pairKey m = Some x)).

Definition winnersOf (cid : string) (ds : list Draw.t) : list string :=
  Draw.winnerIdOrPairId <$> committeeDraws cid ds.

(** The id [x] is the winner of a draw recorded for committee [cid]. *)
Definition hasWon (cid : string) (ds : list Draw.t) (x : string) : Prop :=
  ∃ d, d ∈ ds ∧ Draw.committeeId d = cid ∧ Draw.winnerIdOrPairId d = x.

(** The number of draws recorded for committee [cid] that went to [x]. *)
Definition winsOf (cid : string) (ds : list Draw.t) (x : string) : nat :=
  length (filter (λ d, Draw.committeeId d = cid ∧ Draw.winnerIdOrPairId d = x)
                 ds).

(** The id under which a member takes part in a draw: its own id for a
    FULL member, its pair id for a HALF member. *)
Definition drawKey (m : Member.t) : option string :=
  match Member.shareType m with
  | FULL => Some (Member.id m)
  | HALF => pairKey m
  end.

(** ** Reachability under a calling discipline *)

(** The engine states reached from the empty snapshot by calls that each
    satisfy the condition [D] in the state they are made in. *)
Inductive reachableWith (D : Call → Engine → Prop) : Engine → Prop :=
  | reach_initial : reachableWith D (initialEngine emptyState)
  | reach_call c e : reachableWith D e → D c e → reachableWith D (call c e).

(** ** The natural key of payments *)

Definition paymentKey (p : Payment.t) : string * string * string :=
  (Payment.committeeId p, Payment.memberIdOrPairId p, Payment.monthYear p).

Definition dataKey (p : PaymentData.t) : string * string * string :=
  (PaymentData.committeeId p, PaymentData.memberIdOrPairId p,
   PaymentData.monthYear p).

(** At most one payment per (committeeId, memberIdOrPairId, monthYear). *)
Definition uniquePayments (s : AppState) : Prop :=
  NoDup (paymentKey <$> payments s).

(** The discipline of the payment grid: a payment is recorded only for a
    triple that has none, and an edit keeps the triple of the payment. *)
Definition keyDiscipline (c : Call) (e : Engine) : Prop :=
  match c with
  | Mutation (AddPayment _ p) =>
      dataKey p ∉ paymentKey <$> payments (state e)
  | Mutation (UpdatePayment p pid) =>
      ∀ q, q ∈ payments (state e) → Payment.id q = pid → paymentKey q = dataKey p
  | _ => True
  end.

(** ** Pairing symmetry *)

(** The HALF members that carry the pair id [k]. *)
Definition halfSharers (ms : list Member.t) (k : string) : list Member.t :=
  filter (λ p, Member.shareType p = HALF ∧ Member.pairId p = Some k) ms.

(** The other HALF members that carry the pair id of [m]. *)
Definition partnersOf (m : Member.t) (ms : list Member.t) : list Member.t :=
  filter (λ p, Member.shareType p = HALF
               ∧ Member.pairId p = Member.pairId m
               ∧ Member.id p ≠ Member.id m) ms.

(** A HALF member is unpaired (its pair id is its own id), or it has exactly
    one partner and the pair id is the smaller of the two ids. *)
Definition pairedOrSentinel (ms : list Member.t) (m : Member.t) : Prop :=
  Member.pairId m = Some (Member.id m)
  ∨ ∃ p, partnersOf m ms = [p]
         ∧ Member.pairId m = Some (minId (Member.id m) (Member.id p)).

Definition pairingSymmetric (ms : list Member.t) : Prop :=
  (∀ m, m ∈ ms → Member.shareType m = HALF → pairedOrSentinel ms m)
  ∧ (∀ k, length (halfSharers ms k) ≤ 2).

(** ** Durations and the member list *)

(** Every committee carries the duration derived from the member list. *)
Definition durationsDerived (s : AppState) : Prop :=
  ∀ c, c ∈ committees s →
       Committee.durationMonths c
       = calculateDuration (Committee.id c) (members s).

(** The (id, committeeId) pairs of a member list. *)
Definition idc (ms : list Member.t) : list (string * string) :=
  (λ m, (Member.id m, Member.committeeId m)) <$> ms.

(** Pair ids stay inside a committee: member ids are distinct, HALF members
    that carry one pair id sit in one committee, and a HALF member whose
    pair id is the id of a member sits in that member's committee. *)
Record pairsLocal (ms : list Member.t) : Prop := mkPairsLocal {
  pl_ids : NoDup (Member.id <$> ms);
  pl_shared : ∀ x y,
    x ∈ ms → y ∈ ms →
    Member.shareType x = HALF → Member.shareType y = HALF →
    Member.pairId x = Member.pairId y →
    Member.committeeId x = Member.committeeId y;
  pl_refers : ∀ x q c,
    x ∈ ms → Member.shareType x = HALF → Member.pairId x = Some q →
    (q, c) ∈ idc ms → c = Member.committeeId x
}.

(** The member list [ms'] derives the same duration as [ms] for every
    committee but [t]. *)
Definition sameElsewhere (t : string) (ms ms' : list Member.t) : Prop :=
  ∀ cid, cid ≠ t → calculateDuration cid ms' = calculateDuration cid ms.

(** The calling discipline of the member dialog: generated ids are new to
    the snapshot, a partner named in an add or an edit is a member of the
    same committee, and an edit keeps the member in its committee. *)
Definition memberDiscipline (c : Call) (e : Engine) : Prop :=
  let ms := members (state e) in
  match c with
  | Mutation (AddCommittee newId _) => newId ∉ Member.committeeId <$> ms
  | Mutation (AddMember newId m) =>
      (newId ∉ Member.id <$> ms)
      ∧ (Some newId ∉ Member.pairId <$> ms)
      ∧ ∀ p, p ∈ ms → MemberData.pairId m = Some (Member.id p) →
             Member.committeeId p = MemberData.committeeId m
  | Mutation (UpdateMember u) =>
      (∀ o, o ∈ ms → Member.id o = Member.id u →
            Member.committeeId o = Member.committeeId u)
      ∧ (∀ p, p ∈ ms → Member.pairId u = Some (Member.id p) →
              Member.committeeId p = Member.committeeId u)
  | _ => True
  end.

(** An edit of the member list that keeps pair ids local, leaves the
    durations of the committees other than [t] alone, and keeps every
    member's id and committee. *)
Definition editOk (t : string) (ms ms' : list Member.t) : Prop :=
  pairsLocal ms' ∧ sameElsewhere t ms ms' ∧ idc ms' = idc ms.

(** The snapshots in which durations are derived and pair ids are local. *)
Definition wellFormed (s : AppState) : Prop :=
  durationsDerived s ∧ pairsLocal (members s).

(** ** Scenarios *)

(** A committee of five FULL members and one lone HALF member, with five
    draws recorded: the scenario of the deletion guard. *)
Definition guardScenario : Engine :=
  let full i := AddMember i (MemberData.mk "c1" i "0300" FULL None) in
  let draw i w := AddDraw i (DrawData.mk "c1" "2024-01" w "2024-01-15" 5000) in
  run (Mutation <$>
         [AddCommittee "c1" (CommitteeData.mk "A" 1000 "2024-01-01" true);
          full "m1"; full "m2"; full "m3"; full "m4"; full "m5";
          AddMember "h1" (MemberData.mk "c1" "Hina" "0301" HALF None);
          draw "d1" "m1"; draw "d2" "m2"; draw "d3" "m3"; draw "d4" "m4";
          draw "d5" "m5"])
      (initialEngine emptyState).

(** A committee with the pair (a, b): both carry the pair id ["a"]. *)
Definition pairedScenario : Engine :=
  run (Mutation <$>
         [AddCommittee "c1" (CommitteeData.mk "A" 1000 "2024-01-01" true);
          AddMember "a" (dialogMemberData "c1" "Asma" "0300" HALF "");
          AddMember "b" (dialogMemberData "c1" "Bano" "0301" HALF "a")])
      (initialEngine emptyState).

(** Twenty calls on the empty snapshot: a full history. *)
Definition fullHistory : Engine :=
  run (replicate 20 (Mutation (DeleteDraw "none"))) (initialEngine emptyState).

(** The end-to-end scenario: a committee, two FULL members, two HALF members
    without partner, then one HALF member edited to pair with the other. *)
Definition endToEndCalls : list Call :=
  Mutation <$>
    [AddCommittee "c1" (CommitteeData.mk "A" 1000 "2024-01-01" true);
     AddMember "m1" (MemberData.mk "c1" "Ali" "0300" FULL None);
     AddMember "m2" (MemberData.mk "c1" "Bilal" "0301" FULL None);
     AddMember "h1" (MemberData.mk "c1" "Hina" "0302" HALF (Some ""));
     AddMember "h2" (MemberData.mk "c1" "Huma" "0303" HALF (Some ""));
     UpdateMember (Member.mk "h1" "c1" "Hina" "0302" HALF (Some "h2"))].

Definition endToEnd : Engine := run endToEndCalls (initialEngine emptyState).

(** The pair (Asma, Bano) wins the first draw under the pair id ["a"];
    then Chand joins and Bano is edited to pair with Chand. *)
Definition repairedCalls : list Call :=
  Mutation <$>
    [AddCommittee "c1" (CommitteeData.mk "A" 1000 "2024-01-01" true);
     AddMember "a" (dialogMemberData "c1" "Asma" "0300" HALF "");
     AddMember "b" (dialogMemberData "c1" "Bano" "0301" HALF "a");
     AddDraw "d1" (DrawData.mk "c1" "2024-01" "a" "2024-01-15" 1000);
     AddMember "c" (dialogMemberData "c1" "Chand" "0302" HALF "");
     UpdateMember (Member.mk "b" "c1" "Bano" "0301" HALF (Some "c"))].

(** ** Carriers of a pair id *)

(** The HALF members of committee [cid] that carry the pair id [k]. *)
Definition carriers (cid k : string) (ms : list Member.t) : list Member.t :=
  filter (λ m, pairKey m = Some k
               ∧ Member.shareType m = HALF ∧ Member.committeeId m = cid) ms.

(** ** What the dialogs let the user choose *)

(** The values the partner field of the member dialog can hold at submit:
    empty, the value it opened with, or the id of a member listed as
    unpaired. The dialog is given the members of its committee. *)
Definition partnerOffered (ms : list Member.t) (committee : Committee.t)
  (editingMember : option Member.t) (partnerId : string) : Prop :=
  partnerId = ""
  ∨ partnerId = initialPartnerId editingMember
  ∨ partnerId ∈ Member.id <$>
      unpairedHalfShareMembers
        (filter (λ m, Member.committeeId m = Committee.id committee) ms)
        (Committee.id committee) editingMember.

(** The winner field of the draw dialog for a new draw: empty, or the id of
    an entry of the eligible-winner list computed from the committee's
    members and draws. *)
Definition winnerOffered (s : AppState) (committee : Committee.t)
  (winnerId : string) : Prop :=
  winnerId = ""
  ∨ winnerId ∈ w_id <$>
      eligibleWinners
        (filter (λ m, Member.committeeId m = Committee.id committee) (members s))
        (committeeDraws (Committee.id committee) (draws s))
        (Committee.id committee) None.

(** No id has won twice in a committee. *)
Definition winnersUnique (s : AppState) : Prop :=
  ∀ cid, NoDup (winnersOf cid (draws s)).

(** The discipline of the draw dialog: a new draw goes to an id that has not
    won in its committee, and an edit keeps the committee and the winner of
    the draw. *)
Definition drawDiscipline (c : Call) (e : Engine) : Prop :=
  match c with
  | Mutation (AddDraw _ d) =>
      DrawData.winnerIdOrPairId d
      ∉ winnersOf (DrawData.committeeId d) (draws (state e))
  | Mutation (UpdateDraw d drawId) =>
      ∀ q, q ∈ draws (state e) → Draw.id q = drawId →
           Draw.committeeId q = DrawData.committeeId d
           ∧ Draw.winnerIdOrPairId q = DrawData.winnerIdOrPairId d
  | _ => True
  end.

(** ** Rows *)

(** A group of the grid, with the name the grid gives its row, as a group
    of the dialogs. *)
Definition toGroup (kv : string * list Member.t) : PairGroup :=
  mkPairGroup kv.1 (joinNames (Member.name <$> kv.2)) kv.2.

(** ** Month tokens *)

(** A string of decimal digits. *)
Fixpoint allDigits (s : string) : Prop :=
  match s with
  | EmptyString => True
  | String c rest => is_Some (digitValue c) ∧ allDigits rest
  end.

(** The token [YYYY-MM] of year [y] and month [m] (from 1). *)
Definition monthToken (y m : Z) : string :=
  padDigits 4 y +:+ "-" +:+ padDigits 2 m.

(** ** Cells of the payments grid *)

(** A cell of the grid that shows the button for recording a payment: the
    map of the committee's payments has nothing under the cell's key. *)
Definition cellUnpaid (s : AppState) (committee : Committee.t)
  (rowId month : string) : Prop :=
  paymentsMap
    (filter (λ p, Payment.committeeId p = Committee.id committee) (payments s))
    !! cellKey rowId month = None.

(** ** Pairs kept by the engine *)

(** [m] is a HALF member of [ms] that carries the pair id [k]. *)
Definition carries (ms : list Member.t) (k : string) (m : Member.t) : Prop :=
  m ∈ ms ∧ Member.shareType m = HALF ∧ Member.pairId m = Some k.

(** The pairing the engine keeps. *)
Record paired (ms : list Member.t) : Prop := mkPaired {
  pr_ids : NoDup (Member.id <$> ms);
  pr_full : ∀ m, m ∈ ms → Member.shareType m = FULL →
    Member.pairId m = None ∨ Member.pairId m = Some (Member.id m);
  pr_half : ∀ m, m ∈ ms → Member.shareType m = HALF → is_Some (Member.pairId m);
  pr_canon : ∀ m k, carries ms k m →
    Member.id m = k
    ∨ (minId (Member.id m) k = k ∧ ∃ p, carries ms k p ∧ Member.id p = k);
  pr_one : ∀ m m' k, carries ms k m → carries ms k m' →
    Member.id m ≠ k → Member.id m' ≠ k → Member.id m = Member.id m'
}.

(** [ms'] is [ms] with [m'] as the member under its id. *)
Definition putMember (ms ms' : list Member.t) (m' : Member.t) : Prop :=
  NoDup (Member.id <$> ms')
  ∧ ∀ x, x ∈ ms' ↔ x = m' ∨ (x ∈ ms ∧ Member.id x ≠ Member.id m').

(** [p] is free to be taken as a partner: a HALF member whose id no other
    HALF member carries, the member under the id [except] apart. *)
Definition freePartner (ms : list Member.t) (except : string) (p : Member.t)
  : Prop :=
  Member.shareType p = HALF
  ∧ ∀ q, carries ms (Member.id p) q →
         Member.id q = Member.id p ∨ Member.id q = except.

(** The calling discipline under which pairs stay pairs: a FULL member is
    sent without a partner; the partner named for a HALF member, when it is
    a member, is free, after the release of the former partner in an
    edit. *)
Definition partnerDiscipline (c : Call) (e : Engine) : Prop :=
  let ms := members (state e) in
  match c with
  | Mutation (AddMember newId d) =>
      match MemberData.shareType d with
      | FULL => MemberData.pairId d = None
      | HALF =>
          ∀ p, p ∈ ms → truthy (MemberData.pairId d) = Some (Member.id p) →
               freePartner ms newId p
      end
  | Mutation (UpdateMember u) =>
      ∀ o, o ∈ ms → Member.id o = Member.id u →
        match Member.shareType u with
        | FULL => truthy (Member.pairId u) = None
        | HALF =>
            let released := resetPartner (partnerOf o ms) ms in
            ∀ p, p ∈ released →
                 truthy (Member.pairId u) = Some (Member.id p) →
                 Member.id p ≠ Member.id u →
                 freePartner released (Member.id u) p
        end
  | _ => True
  end.

Definition pairDiscipline (c : Call) (e : Engine) : Prop :=
  memberDiscipline c e ∧ partnerDiscipline c e.

(** * Properties *)

(** Settle a condition on every member of a concrete list. *)
Ltac each_member :=
  let p := fresh "p" in
  let Hp := fresh "Hp" in
  intros p Hp; vm_compute in Hp;
  repeat (apply elem_of_cons in Hp as [-> |Hp]);
  [..|by apply elem_of_nil in Hp];
  vm_compute; congruence.

(** ** History and undo *)

#[local] Arguments MAX_HISTORY_SIZE : simpl never.
#[local] Arguments Nat.min : simpl never.

Section History.
Implicit Types (e : Engine) (s : AppState) (h : list AppState) (o : Op).

Lemma pushHistory_length s h :
  length (pushHistory s h) = Nat.min MAX_HISTORY_SIZE (S (length h)).
Proof.
  unfold pushHistory. case_decide as Hlen; rewrite ?length_take;
    cbn [length] in *; unfold MAX_HISTORY_SIZE in *; lia.
Qed.

Lemma pushHistory_room s h :
  length h < MAX_HISTORY_SIZE → pushHistory s h = s :: h.
Proof.
  intros Hlt. unfold pushHistory. case_decide as Hlen; [|done].
  cbn [length] in *. lia.
Qed.

Lemma pushHistory_full s h :
  MAX_HISTORY_SIZE ≤ length h →
  pushHistory s h = s :: take (MAX_HISTORY_SIZE - 1) h.
Proof.
  intros Hle. unfold pushHistory. case_decide as Hlen; [done|].
  cbn [length] in *. lia.
Qed.

Lemma pushHistory_bound s h : length (pushHistory s h) ≤ MAX_HISTORY_SIZE.
Proof. rewrite pushHistory_length. lia. Qed.

Lemma undo_mutate o e :
  length (history e) < MAX_HISTORY_SIZE → undo (mutate o e) = e.
Proof.
  intros Hlt. unfold undo, mutate, updateStateAndHistory. simpl.
  rewrite pushHistory_room by done. by destruct e.
Qed.

Lemma run_snoc cs c e : run (cs ++ [c]) e = call c (run cs e).
Proof. unfold run. by rewrite foldl_app. Qed.

Lemma run_mutations_snoc (os : list Op) o e :
  run (Mutation <$> os ++ [o]) e = mutate o (run (Mutation <$> os) e).
Proof. rewrite fmap_app. apply run_snoc. Qed.

Lemma history_length_mutations (os : list Op) e :
  length (history (run (Mutation <$> os) e))
  = Nat.min MAX_HISTORY_SIZE (length (history e) + length os) ∨
  MAX_HISTORY_SIZE < length (history e).
Proof.
  induction os as [|o os IH] using rev_ind.
  - simpl. destruct (decide (MAX_HISTORY_SIZE < length (history e))); [by right|].
    left. lia.
  - destruct IH as [IH|IH]; [left|by right].
    rewrite run_mutations_snoc. simpl.
    rewrite pushHistory_length, IH, length_app. simpl.
    unfold MAX_HISTORY_SIZE. lia.
Qed.

Lemma undo_all_mutations (os : list Op) e :
  length (history e) + length os ≤ MAX_HISTORY_SIZE →
  Nat.iter (length os) undo (run (Mutation <$> os) e) = e.
Proof.
  induction os as [|o os IH] using rev_ind; intros Hlen; [done|].
  rewrite length_app in *. simpl in *.
  rewrite run_mutations_snoc.
  replace (length os + 1) with (S (length os)) by lia.
  rewrite Nat.iter_succ_r, undo_mutate; [apply IH; lia|].
  destruct (history_length_mutations os e) as [->|?]; lia.
Qed.

Lemma history_bound_call c e :
  length (history e) ≤ MAX_HISTORY_SIZE →
  length (history (call c e)) ≤ MAX_HISTORY_SIZE.
Proof.
  intros Hle. destruct c as [o|]; simpl.
  - apply pushHistory_bound.
  - unfold undo. destruct (history e) eqn:Hh; simpl in *; [by rewrite Hh|lia].
Qed.

Lemma history_bound_run cs e :
  length (history e) ≤ MAX_HISTORY_SIZE →
  length (history (run cs e)) ≤ MAX_HISTORY_SIZE.
Proof.
  induction cs as [|c cs IH] using rev_ind; intros Hle; [done|].
  rewrite run_snoc. by apply history_bound_call, IH.
Qed.
End History.

(** C6. Undo round trip and the bounded history. Starting from any snapshot
    with an empty history, after [N <= 20] mutations [N] calls of [undo]
    restore the original snapshot (and the empty history); [undo] pops the
    most recent entry and makes it the snapshot; on an empty history it
    changes nothing; [canUndo] holds exactly when the history is non-empty;
    the history never exceeds 20 entries, and a push onto a full history
    drops the oldest entry. *)
Theorem undo_roundtrip_bounded_history :
  (∀ (s0 : AppState) (os : list Op),
      length os ≤ MAX_HISTORY_SIZE →
      Nat.iter (length os) undo (run (Mutation <$> os) (initialEngine s0))
      = initialEngine s0)
  ∧ (∀ e lastState rest,
        history e = lastState :: rest → undo e = mkEngine lastState rest)
  ∧ (∀ e, history e = [] → undo e = e)
  ∧ (∀ e, canUndo e = true ↔ history e ≠ [])
  ∧ (∀ (s0 : AppState) (cs : list Call),
        length (history (run cs (initialEngine s0))) ≤ MAX_HISTORY_SIZE)
  ∧ (∀ e o, length (history e) < MAX_HISTORY_SIZE →
            history (mutate o e) = state e :: history e)
  ∧ (∀ e o oldest h, history e = h ++ [oldest] →
                     length (history e) = MAX_HISTORY_SIZE →
                     history (mutate o e) = state e :: h).
Proof.
  split_and!.
  - intros s0 os Hlen. by apply undo_all_mutations.
  - intros e l r He. unfold undo. by rewrite He.
  - intros e He. unfold undo. by rewrite He.
  - intros e. unfold canUndo. rewrite bool_decide_eq_true.
    destruct (history e); simpl; split; intros; (done || lia).
  - intros s0 cs. apply history_bound_run. simpl. unfold MAX_HISTORY_SIZE. lia.
  - intros e o Hlt. simpl. by apply pushHistory_room.
  - intros e o oldest h He Hlen. simpl.
    rewrite pushHistory_full by lia. f_equal.
    rewrite He in *. rewrite length_app in Hlen. simpl in Hlen.
    rewrite take_app_length'; [done|]. unfold MAX_HISTORY_SIZE in *. lia.
Qed.

Lemma undo_roundtrip_bounded_history_witness :
  let o1 := AddCommittee "c1" (CommitteeData.mk "A" 1000 "2024-01-01" true) in
  let o2 := AddMember "m1" (MemberData.mk "c1" "Ali" "0300" FULL None) in
  let e2 := run [Mutation o1; Mutation o2] (initialEngine emptyState) in
  Nat.iter 2 undo e2 = initialEngine emptyState
  ∧ undo e2 = mkEngine (addCommittee_upd "c1"
                          (CommitteeData.mk "A" 1000 "2024-01-01" true) emptyState)
                       [emptyState]
  ∧ undo (initialEngine emptyState) = initialEngine emptyState
  ∧ history (mutate (DeleteDraw "d") e2) = state e2 :: history e2
  ∧ history (mutate o1 fullHistory)
    = state fullHistory :: replicate 19 emptyState.
Proof.
  destruct undo_roundtrip_bounded_history
    as (Hround & Hpop & Hempty & _ & _ & Hroom & Hfull).
  split_and!.
  - apply (Hround emptyState [_; _]). unfold MAX_HISTORY_SIZE. simpl. lia.
  - by apply Hpop.
  - by apply Hempty.
  - apply Hroom. unfold MAX_HISTORY_SIZE. simpl. lia.
  - apply (Hfull fullHistory _ emptyState); reflexivity.
Defined.

(** ** Rejected calls *)

Section Rejections.
Implicit Types (e : Engine) (s : AppState) (o : Op).

Lemma find_None_not_elem {A} (f : A → string) (k : string) (l : list A) :
  k ∉ f <$> l → list_find (λ x, f x = k) l = None.
Proof.
  intros Hk. apply list_find_None, Forall_forall. intros x Hx Hf.
  apply Hk. rewrite <- Hf. by apply list_elem_of_fmap_2.
Qed.

Lemma hasHalfShareMembers_true cid (ms : list Member.t) :
  hasHalfShareMembers cid ms = true
  ↔ ∃ m, m ∈ ms ∧ Member.committeeId m = cid ∧ Member.shareType m = HALF.
Proof.
  unfold hasHalfShareMembers. rewrite bool_decide_eq_true, Exists_exists.
  naive_solver.
Qed.

Lemma updateCommittee_upd_guard cid u s :
  CommitteeData.allowHalfShare u = false →
  hasHalfShareMembers cid (members s) = true →
  updateCommittee_upd cid u s = s.
Proof.
  intros Hallow Hhalf. unfold updateCommittee_upd.
  destruct (list_find _ (committees s)) as [[i c]|]; [|done].
  by rewrite Hallow, Hhalf.
Qed.

Lemma updater_rejected o s : rejected o s → updater o s = s.
Proof.
  destruct o; simpl; try done.
  - intros [Hnone|[Hallow Hhalf]].
    + unfold updateCommittee_upd. by rewrite Hnone.
    + by apply updateCommittee_upd_guard.
  - intros Hnone. unfold updateMember_upd. by rewrite Hnone.
  - unfold deleteMember_upd.
    destruct (list_find _ (members s)) as [[i m]|]; [|done].
    intros Hlt. by rewrite decide_True.
Qed.
End Rejections.

(** C1 (as the code has it). A rejected call (an unknown id, the half-share
    guard, the draw-count guard) leaves the snapshot as it was, and it does
    push the pre-call snapshot onto the history like every other call of
    [updateStateAndHistory]: the history afterwards is the pushed one and
    [canUndo] is true. *)
Theorem rejected_call_pushes_history (o : Op) (e : Engine) :
  rejected o (state e) →
  state (mutate o e) = state e
  ∧ history (mutate o e) = pushHistory (state e) (history e)
  ∧ canUndo (mutate o e) = true
  ∧ state (undo (mutate o e)) = state e.
Proof.
  intros Hrej. apply updater_rejected in Hrej. simpl. rewrite Hrej.
  split_and!; try done.
  - unfold canUndo. simpl. apply bool_decide_eq_true.
    rewrite pushHistory_length. unfold MAX_HISTORY_SIZE. lia.
  - unfold undo. simpl. unfold pushHistory.
    case_decide; by rewrite ?Hrej.
Qed.

Lemma rejected_call_pushes_history_witness :
  let e := initialEngine emptyState in
  let o := DeleteMember "nobody" in
  state (mutate o e) = state e
  ∧ history (mutate o e) = pushHistory (state e) (history e)
  ∧ canUndo (mutate o e) = true
  ∧ state (undo (mutate o e)) = state e.
Proof. apply (rejected_call_pushes_history (DeleteMember "nobody")). exact I. Defined.

(** C1 (as stated) fails: [updateCommittee] on an id that matches no
    committee is rejected, yet the history grows from empty to one entry and
    [canUndo] turns from false to true. *)
Lemma rejected_call_history_counterexample :
  let e := initialEngine emptyState in
  let o := UpdateCommittee "nobody" (CommitteeData.mk "A" 1000 "2024-01-01" true) in
  rejected o (state e)
  ∧ history (mutate o e) ≠ history e
  ∧ canUndo (mutate o e) ≠ canUndo e.
Proof. split_and!; [by left|done|done]. Qed.

(** C5. The two guard rejections leave the snapshot exactly as it was:
    [deleteMember] when the duration recomputed on the member list after the
    deletion is below the number of draws recorded for the member's
    committee, and [updateCommittee] when it turns [allowHalfShare] off while
    the committee has a HALF member. All four collections are the pre-call
    ones, so no member is removed, no partner is unpaired and no
    [durationMonths] changes. *)
Theorem guard_rejections_keep_snapshot :
  (∀ e mid i memberToDelete,
      list_find (λ m, Member.id m = mid) (members (state e))
        = Some (i, memberToDelete) →
      calculateDuration (Member.committeeId memberToDelete)
        (deleteMember_members mid memberToDelete (members (state e)))
      < length (committeeDraws (Member.committeeId memberToDelete)
                               (draws (state e))) →
      state (deleteMember mid e) = state e)
  ∧ (∀ e cid u m,
        CommitteeData.allowHalfShare u = false →
        m ∈ members (state e) →
        Member.committeeId m = cid →
        Member.shareType m = HALF →
        state (updateCommittee cid u e) = state e).
Proof.
  split.
  - intros e mid i m Hfind Hlt. simpl.
    apply (updater_rejected (DeleteMember mid)). simpl. by rewrite Hfind.
  - intros e cid u m Hallow Hin Hcid Hhalf. simpl.
    apply updateCommittee_upd_guard; [done|].
    apply hasHalfShareMembers_true. eauto.
Qed.

(** C10. A mutation addressed to an id that does not exist returns the
    snapshot it was given: [updateCommittee] with an id of no committee,
    [updateMember] and [deleteMember] with an id of no member. *)
Theorem unknown_id_keeps_snapshot (e : Engine) :
  (∀ cid u, cid ∉ Committee.id <$> committees (state e) →
            state (updateCommittee cid u e) = state e)
  ∧ (∀ m, Member.id m ∉ Member.id <$> members (state e) →
          state (updateMember m e) = state e)
  ∧ (∀ mid, mid ∉ Member.id <$> members (state e) →
            state (deleteMember mid e) = state e).
Proof.
  split_and!.
  - intros cid u Hno. simpl. apply (updater_rejected (UpdateCommittee cid u)).
    left. by apply (find_None_not_elem Committee.id).
  - intros m Hno. simpl. apply (updater_rejected (UpdateMember m)). simpl.
    by apply (find_None_not_elem Member.id).
  - intros mid Hno. simpl. apply (updater_rejected (DeleteMember mid)). simpl.
    by rewrite (find_None_not_elem Member.id).
Qed.

Lemma guard_rejections_keep_snapshot_witness :
  state (deleteMember "m3" guardScenario) = state guardScenario
  ∧ state (updateCommittee "c1" (CommitteeData.mk "A" 1000 "2024-01-01" false)
                           guardScenario)
    = state guardScenario.
Proof.
  destruct guard_rejections_keep_snapshot as [Hdel Hupd]. split.
  - apply (Hdel guardScenario "m3" 2
             (Member.mk "m3" "c1" "m3" "0300" FULL None)).
    + vm_compute. reflexivity.
    + vm_compute. lia.
  - apply (Hupd guardScenario "c1" _
             (Member.mk "h1" "c1" "Hina" "0301" HALF (Some "h1"))).
    + reflexivity.
    + compute_done.
    + reflexivity.
    + reflexivity.
Defined.

Lemma unknown_id_keeps_snapshot_witness :
  state (updateCommittee "zz" (CommitteeData.mk "B" 1 "2024-01-01" true)
                         guardScenario) = state guardScenario
  ∧ state (updateMember (Member.mk "zz" "c1" "Z" "0" FULL None) guardScenario)
    = state guardScenario
  ∧ state (deleteMember "zz" guardScenario) = state guardScenario.
Proof.
  destruct (unknown_id_keeps_snapshot guardScenario) as (Hc & Hu & Hd).
  split_and!.
  - apply Hc. compute_done.
  - apply Hu. compute_done.
  - apply Hd. compute_done.
Defined.

(** ** Duration derivation *)

Lemma filter_none {A} (P : A → Prop) `{!∀ x, Decision (P x)} (l : list A) :
  (∀ x, x ∈ l → ¬ P x) → filter P l = [].
Proof.
  induction l as [|x l IH]; intros Hno; [done|].
  rewrite filter_cons, decide_False by (apply Hno; left).
  apply IH. intros y Hy. apply Hno. by right.
Qed.

Section Duration.
Implicit Types (m : Member.t) (ms hs : list Member.t) (k : string).
Implicit Types (acc : gmap string (list Member.t)).

Lemma groupOf_app k hs1 hs2 :
  groupOf k (hs1 ++ hs2) = groupOf k hs1 ++ groupOf k hs2.
Proof. apply filter_app. Qed.

(** What the [reduce] leaves under a key: the members of the list that
    carry the key, in order, after whatever the accumulator held. *)
Lemma foldl_groupStep_lookup hs acc k :
  foldl groupStep acc hs !! k =
  match groupOf k hs with
  | [] => acc !! k
  | g => Some (default [] (acc !! k) ++ g)
  end.
Proof.
  revert acc. induction hs as [|m hs IH]; intros acc; [done|].
  simpl. rewrite IH. unfold groupOf at 2. rewrite filter_cons.
  fold (groupOf k hs). unfold groupStep, pairKey.
  destruct (truthy (Member.pairId m)) as [k'|] eqn:Hk.
  - destruct (decide (k' = k)) as [->|Hne].
    + rewrite decide_True by done. rewrite lookup_insert_eq. simpl.
      destruct (groupOf k hs); simpl; by rewrite <- ?app_assoc, ?app_nil_r.
    + rewrite decide_False by congruence. by rewrite lookup_insert_ne.
  - by rewrite decide_False.
Qed.

Lemma groupByPairId_lookup hs k :
  groupByPairId hs !! k =
  match groupOf k hs with [] => None | g => Some g end.
Proof.
  unfold groupByPairId. rewrite foldl_groupStep_lookup, lookup_empty.
  by destruct (groupOf k hs).
Qed.

Lemma groupByPairId_lookup_Some hs k g :
  groupByPairId hs !! k = Some g ↔ g = groupOf k hs ∧ g ≠ [].
Proof.
  rewrite groupByPairId_lookup.
  destruct (groupOf k hs) eqn:Hg; split; [done|by intros [-> ?]| |].
  - by intros [= <-].
  - by intros [-> _].
Qed.

(** Counting the values of a map that satisfy a predicate. *)
Lemma count_values_filter {V} (Q : V → Prop) `{!∀ v, Decision (Q v)}
    (M : gmap string V) :
  length (filter Q (map_to_list M).*2) = size (filter (λ kv, Q kv.2) M).
Proof.
  rewrite map_filter_alt, map_size_list_to_map.
  - induction (map_to_list M) as [|[k v] l IH]; [done|].
    rewrite fmap_cons, !filter_cons. simpl.
    destruct (decide (Q v)); simpl; by rewrite IH.
  - eapply sublist_NoDup; [apply (NoDup_fst_map_to_list M)|].
    apply fmap_sublist, sublist_filter.
Qed.

Lemma dom_complete_groups hs :
  dom (filter (λ kv : string * list Member.t, length kv.2 = 2)
              (groupByPairId hs))
  = completePairs hs.
Proof.
  apply set_eq. intros k. unfold completePairs.
  rewrite elem_of_dom, elem_of_filter, elem_of_list_to_set, list_elem_of_omap.
  split.
  - intros [g [Hg Hlen]%map_lookup_filter_Some].
    apply groupByPairId_lookup_Some in Hg as [-> Hne]. simpl in Hlen.
    split; [done|].
    destruct (groupOf k hs) as [|m g] eqn:Hg; [done|].
    exists m. apply and_comm.
    apply (list_elem_of_filter (λ m, pairKey m = Some k) hs).
    fold (groupOf k hs). rewrite Hg. left.
  - intros [Hlen _]. exists (groupOf k hs).
    apply map_lookup_filter_Some. split; [|done].
    apply groupByPairId_lookup_Some. split; [done|].
    intros Hnil. by rewrite Hnil in Hlen.
Qed.

Lemma pairCount_complete hs :
  length (filter (λ g : list Member.t, length g = 2)
                 (map_to_list (groupByPairId hs)).*2)
  = size (completePairs hs).
Proof.
  rewrite (count_values_filter (λ g : list Member.t, length g = 2)).
  by rewrite <- dom_complete_groups, size_dom.
Qed.

Lemma completePairs_empty hs :
  (∀ k, length (groupOf k hs) ≠ 2) → completePairs hs = ∅.
Proof.
  intros Hno. apply set_eq. intros k. unfold completePairs.
  rewrite elem_of_filter. split; [|set_solver]. intros [Hk _]. by apply Hno in Hk.
Qed.

Lemma completePairs_few hs : length hs < 2 → completePairs hs = ∅.
Proof.
  intros Hlt. apply completePairs_empty. intros k Hk.
  pose proof (length_filter (λ m, pairKey m = Some k) hs) as Hle.
  unfold groupOf in Hk. lia.
Qed.

Lemma calculateDuration_derive cid ms :
  calculateDuration cid ms = deriveDuration cid ms.
Proof.
  unfold calculateDuration, deriveDuration.
  fold (fullMembersOf cid ms) (halfMembersOf cid ms).
  case_decide as Hlen.
  - rewrite completePairs_few by done. rewrite size_empty. lia.
  - by rewrite pairCount_complete.
Qed.

Lemma calculateDuration_absent cid ms :
  (∀ m, m ∈ ms → Member.committeeId m ≠ cid) → calculateDuration cid ms = 0.
Proof.
  intros Hno. unfold calculateDuration.
  rewrite (filter_none (λ m, Member.committeeId m = cid)); [done|].
  intros m Hm. by apply Hno.
Qed.
End Duration.

(** C3. The derived duration is [F + P]: [F] the number of FULL members of
    the committee, [P] the number of pair ids that group exactly two of its
    HALF members (a member whose pair id is absent or empty is in no group).
    When no group has exactly two members (a lone unpaired HALF member, say)
    the result is [F], and a committee without members has duration 0. *)
Theorem calculateDuration_full_plus_pairs (cid : string) (ms : list Member.t) :
  calculateDuration cid ms
  = length (fullMembersOf cid ms) + size (completePairs (halfMembersOf cid ms))
  ∧ ((∀ k, length (groupOf k (halfMembersOf cid ms)) ≠ 2) →
     calculateDuration cid ms = length (fullMembersOf cid ms))
  ∧ ((∀ m, m ∈ ms → Member.committeeId m ≠ cid) → calculateDuration cid ms = 0).
Proof.
  rewrite calculateDuration_derive. unfold deriveDuration. split_and!.
  - done.
  - intros Hno. rewrite completePairs_empty by done. rewrite size_empty. lia.
  - intros Hno. rewrite <- (calculateDuration_absent cid ms Hno).
    symmetry. apply calculateDuration_derive.
Qed.

Lemma calculateDuration_full_plus_pairs_witness :
  let ms := [Member.mk "m1" "c1" "Ali" "0300" FULL None;
             Member.mk "h1" "c1" "Hina" "0301" HALF (Some "h1")] in
  calculateDuration "c1" ms = 1 ∧ calculateDuration "c2" ms = 0.
Proof.
  intros ms. split.
  - destruct (calculateDuration_full_plus_pairs "c1" ms) as (_ & Hlone & _).
    apply Hlone. intros k.
    pose proof (length_filter (λ m, pairKey m = Some k) (halfMembersOf "c1" ms)).
    unfold groupOf. vm_compute in *. lia.
  - destruct (calculateDuration_full_plus_pairs "c2" ms) as (_ & _ & Hnone).
    apply Hnone. intros m Hm Hc. revert Hm. vm_compute in ms. subst ms.
    rewrite !elem_of_cons, elem_of_nil. intros [->|[->|[]]]; discriminate.
Defined.

(** ** Eligible winners *)

Section Eligibility.
Implicit Types (m : Member.t) (ms : list Member.t) (ds : list Draw.t).
Implicit Types (x k cid : string) (won : gset string) (acc : list PairGroup).

Lemma elem_of_wonIdsOf cid ds x : x ∈ wonIdsOf cid ds ↔ x ∈ winnersOf cid ds.
Proof. apply elem_of_list_to_set. Qed.

Lemma pairStep_ids won acc m :
  g_id <$> pairStep won acc m =
  match Member.shareType m, pairKey m with
  | HALF, Some k =>
      if decide (k ∈ won ∨ k ∈ g_id <$> acc) then g_id <$> acc
      else (g_id <$> acc) ++ [k]
  | _, _ => g_id <$> acc
  end.
Proof.
  unfold pairStep, pairKey.
  destruct (Member.shareType m); [done|].
  destruct (truthy (Member.pairId m)) as [k|]; [|done].
  destruct (decide (k ∈ won)) as [Hw|Hw].
  { rewrite decide_True; auto. }
  destruct (list_find _ acc) as [[i g]|] eqn:Hfind.
  - apply list_find_Some in Hfind as (Hi & Hk & _).
    rewrite decide_True.
    + rewrite list_fmap_insert. apply list_insert_id.
      by rewrite list_lookup_fmap, Hi.
    + right. rewrite <- Hk. apply list_elem_of_fmap_2.
      by eapply list_elem_of_lookup_2.
  - rewrite decide_False.
    + by rewrite fmap_app.
    + intros [?|Hin]; [done|].
      apply list_elem_of_fmap in Hin as (g & -> & Hg).
      eapply list_find_None, Forall_forall in Hfind; [|exact Hg]. done.
Qed.

Lemma foldl_pairStep_ids won ms acc x :
  x ∈ (g_id <$> foldl (pairStep won) acc ms) ↔
  x ∈ (g_id <$> acc)
  ∨ ((x ∉ won) ∧ ∃ m, m ∈ ms ∧ Member.shareType m = HALF ∧ pairKey m = Some x).
Proof.
  revert acc. induction ms as [|m ms IH]; intros acc; simpl.
  - split; [auto|]. intros [?|(_ & m & Hm & _)]; [done|]. by apply elem_of_nil in Hm.
  - rewrite IH, pairStep_ids. clear IH.
    destruct (Member.shareType m) eqn:Hs.
    { split; (intros [?|(Hw & m' & Hm' & Hh & Hk)]; [by left|right]);
        split; try done; exists m'; split_and!; try done.
      - by right.
      - apply elem_of_cons in Hm' as [->|?]; [congruence|done]. }
    destruct (pairKey m) as [k|] eqn:Hk.
    2:{ split; (intros [?|(Hw & m' & Hm' & Hh & Hk')]; [by left|right]);
          split; try done; exists m'; split_and!; try done.
        - by right.
        - apply elem_of_cons in Hm' as [->|?]; [congruence|done]. }
    case_decide as Hdec.
    + split; (intros [?|(Hw & m' & Hm' & Hh & Hk')]; [by left|]).
      * right. split; [done|]. exists m'. split_and!; try done. by right.
      * apply elem_of_cons in Hm' as [->|Hm'].
        -- assert (x = k) as -> by congruence. destruct Hdec; [done|by left].
        -- right. split; [done|]. by exists m'.
    + rewrite elem_of_app, list_elem_of_singleton.
      split.
      * intros [[? | ->]|(Hw & m' & Hm' & Hh & Hk')].
        -- by left.
        -- right. split; [tauto|]. exists m. split_and!; [left|done..].
        -- right. split; [done|]. exists m'. split_and!; try done. by right.
      * intros [?|(Hw & m' & Hm' & Hh & Hk')]; [by left; left|].
        apply elem_of_cons in Hm' as [->|Hm'].
        -- left. right. congruence.
        -- right. split; [done|]. by exists m'.
Qed.

Lemma eligibleWinners_new_ids ms ds cid x :
  x ∈ w_id <$> eligibleWinners ms ds cid None ↔
  candidate ms x ∧ x ∉ winnersOf cid ds.
Proof.
  unfold eligibleWinners, candidate.
  rewrite fmap_app, elem_of_app, <- !list_fmap_compose.
  change (w_id ∘ (λ g, mkWinner (g_id g) (g_name g))) with g_id.
  change (w_id ∘ (λ m, mkWinner (Member.id m) (Member.name m))) with Member.id.
  rewrite foldl_pairStep_ids, list_elem_of_fmap, <- elem_of_wonIdsOf.
  split.
  - intros [(m & -> & Hm)|[Hnil|(Hw & m & Hm & Hh & Hk)]].
    + apply list_elem_of_filter in Hm as [[Hf Hw] Hm]. split; [|done].
      exists m. split; [done|]. by left.
    + by apply elem_of_nil in Hnil.
    + split; [|done]. exists m. split; [done|]. by right.
  - intros [(m & Hm & [[Hf Hid]|[Hh Hk]]) Hw].
    + left. exists m. split; [done|].
      apply list_elem_of_filter. rewrite Hid. done.
    + right. right. split; [done|]. by exists m.
Qed.
End Eligibility.

Section Won.
Implicit Types (ms : list Member.t) (ds : list Draw.t) (x cid : string).

Lemma hasWon_winnersOf cid ds x : hasWon cid ds x ↔ x ∈ winnersOf cid ds.
Proof.
  unfold hasWon, winnersOf, committeeDraws. rewrite list_elem_of_fmap. split.
  - intros (d & Hd & Hc & Hw). exists d. split; [done|].
    by apply list_elem_of_filter.
  - intros (d & -> & [Hc Hd]%list_elem_of_filter). by exists d.
Qed.

Lemma winsOf_zero cid ds x : ¬ hasWon cid ds x → winsOf cid ds x = 0.
Proof.
  intros Hno. unfold winsOf. rewrite filter_none; [done|].
  intros d Hd [Hc Hw]. apply Hno. by exists d.
Qed.

Lemma winsOf_snoc cid ds d x :
  winsOf cid (ds ++ [d]) x
  = winsOf cid ds x
    + (if decide (Draw.committeeId d = cid ∧ Draw.winnerIdOrPairId d = x)
       then 1 else 0).
Proof.
  unfold winsOf. rewrite filter_app, length_app, filter_cons.
  by case_decide.
Qed.

Lemma eligibleWinners_not_won ms ds cid x :
  x ∈ w_id <$> eligibleWinners ms ds cid None ↔
  candidate ms x ∧ ¬ hasWon cid ds x.
Proof. by rewrite eligibleWinners_new_ids, hasWon_winnersOf. Qed.
End Won.




(** ** Late fees *)

Section Calendar.
Local Open Scope Z_scope.

Lemma DayFromYear_succ y :
  DayFromYear (y + 1) = DayFromYear y + (if InLeapYear y then 366 else 365).
Proof.
  unfold DayFromYear, InLeapYear.
  case_bool_decide as Hleap; Z.div_mod_to_equations; lia.
Qed.

Lemma monthOffset_succ y mn :
  0 ≤ mn → monthOffset y (mn + 1) = monthOffset y mn + DaysInMonth y mn.
Proof.
  intros Hmn. unfold monthOffset.
  replace (Z.to_nat (mn + 1)) with (S (Z.to_nat mn)) by lia.
  rewrite seq_S, fmap_app, foldr_app. simpl.
  rewrite Z2Nat.id by done.
  generalize (DaysInMonth y mn). intros d.
  induction (_ <$> seq 0 (Z.to_nat mn)) as [|k l IH]; simpl; lia.
Qed.

Lemma monthOffset_year y :
  monthOffset y 11 + 31 = (if InLeapYear y then 366 else 365).
Proof.
  unfold monthOffset. simpl. unfold DaysInMonth. simpl.
  destruct (InLeapYear y); reflexivity.
Qed.

(** The model of [Date.UTC] counts days of the Gregorian calendar: day 0 is
    1 January 1970, the next day of a month is one day later, and the first
    day of the next month comes [DaysInMonth] days after the first day of
    this one. *)
Lemma MakeDay_epoch : MakeDay 1970 0 1 = 0.
Proof. reflexivity. Qed.

Lemma MakeDay_next_day y m d : MakeDay y m (d + 1) = MakeDay y m d + 1.
Proof. unfold MakeDay. lia. Qed.

Lemma MakeDay_next_month y m :
  MakeDay y (m + 1) 1
  = MakeDay y m 1 + DaysInMonth (y + m `div` 12) (m `mod` 12).
Proof.
  unfold MakeDay.
  pose proof (Z.mod_pos_bound m 12 ltac:(lia)) as Hm.
  destruct (decide (m `mod` 12 = 11)) as [H11|H11].
  - assert ((m + 1) `div` 12 = m `div` 12 + 1) as -> by (Z.div_mod_to_equations; lia).
    assert ((m + 1) `mod` 12 = 0) as -> by (Z.div_mod_to_equations; lia).
    rewrite H11. replace (y + (m `div` 12 + 1)) with (y + m `div` 12 + 1) by lia.
    rewrite DayFromYear_succ, <- monthOffset_year.
    change (monthOffset _ 0) with 0. change (DaysInMonth _ 11) with 31. lia.
  - assert ((m + 1) `div` 12 = m `div` 12) as -> by (Z.div_mod_to_equations; lia).
    assert ((m + 1) `mod` 12 = m `mod` 12 + 1) as -> by (Z.div_mod_to_equations; lia).
    rewrite monthOffset_succ by lia. lia.
Qed.

Lemma DateUTC_whole_days y m d t :
  DateUTC y m d = Some t → ∃ n, t = n * msPerDay.
Proof.
  unfold DateUTC, TimeClip. destruct y, m, d; try done.
  case_decide; [|done]. intros [= <-]. eauto.
Qed.

Lemma parseDateAsUTC_whole_days s t :
  parseDateAsUTC s = Some t → ∃ n, t = n * msPerDay.
Proof.
  unfold parseDateAsUTC. case_decide.
  - intros [= <-]. by exists 0.
  - apply DateUTC_whole_days.
Qed.

Lemma lateDaysOf_on_time paid due :
  paid ≤ due → lateDaysOf (Some paid) (Some due) = 0.
Proof. intros Hle. unfold lateDaysOf. by rewrite decide_False by lia. Qed.

(** The rounding up of [Math.ceil]. *)
Lemma lateDaysOf_ceil paid due :
  due < paid →
  (lateDaysOf (Some paid) (Some due) - 1) * msPerDay < paid - due
  ∧ paid - due ≤ lateDaysOf (Some paid) (Some due) * msPerDay.
Proof.
  intros Hlt. unfold lateDaysOf. rewrite decide_True by lia.
  unfold msPerDay. Z.div_mod_to_equations. lia.
Qed.

Lemma lateDaysOf_days due n :
  0 ≤ n → lateDaysOf (Some (due + n * msPerDay)) (Some due) = n.
Proof.
  intros Hn. unfold lateDaysOf. case_decide as Hpos.
  - replace (- (due + n * msPerDay - due)) with ((- n) * msPerDay) by lia.
    rewrite Z.div_mul by done. lia.
  - unfold msPerDay in *. lia.
Qed.
End Calendar.

Section LateFee.
Local Open Scope Z_scope.
Implicit Types (payment : PaymentData.t) (s : AppState).

Lemma lateDaysOf_nonneg paid due : 0 ≤ lateDaysOf paid due.
Proof.
  unfold lateDaysOf. destruct paid as [p|], due as [d|]; try done.
  case_decide; [|done]. unfold msPerDay. Z.div_mod_to_equations. lia.
Qed.

Lemma lateDaysOf_NaN paid due :
  due = None ∨ paid = None → lateDaysOf paid due = 0.
Proof. unfold lateDaysOf. intros [-> | ->]; [by destruct paid|done]. Qed.

Lemma dueDate_day_10_full_year tok (y m due : Z) :
  part 0 tok = Some y → part 1 tok = Some m →
  dueDate tok = Some due →
  due = (MakeDay (if decide (0 ≤ y ≤ 99) then 1900 + y else y) (m - 1) 1 + 9)
        * msPerDay.
Proof.
  intros Hy Hm. unfold dueDate, DateUTC, TimeClip, pred1.
  rewrite Hy, Hm. simpl.
  generalize (if decide (0 ≤ y ≤ 99) then 1900 + y else y). intros yr.
  case_decide; [|done]. intros [= <-]. unfold MakeDay. lia.
Qed.

Lemma paid_same_month tok dp (y m d due : Z) :
  part 0 tok = Some y → part 1 tok = Some m →
  part 0 dp = Some y → part 1 dp = Some m → part 2 dp = Some d →
  dueDate tok = Some due →
  ∀ paid, parseDateAsUTC dp = Some paid → paid = due + (d - 10) * msPerDay.
Proof.
  intros Hy Hm Hy' Hm' Hd. unfold dueDate, parseDateAsUTC.
  case_decide as Hdp.
  { subst dp. discriminate Hd. }
  rewrite Hy, Hm, Hy', Hm', Hd. unfold DateUTC, TimeClip, pred1. simpl.
  generalize (if decide (0 ≤ y ≤ 99) then 1900 + y else y). intros yr.
  destruct (decide (Z.abs (MakeDay yr (m - 1) 10 * msPerDay) ≤ _)); [|done].
  intros [= <-] paid.
  destruct (decide (Z.abs (MakeDay yr (m - 1) d * msPerDay) ≤ _)); [|done].
  intros [= <-]. unfold MakeDay. lia.
Qed.

Lemma handleUpdatePayment_upd_lookup payment pid s i q :
  payments s !! i = Some q →
  payments (handleUpdatePayment_upd payment pid s) !! i
  = Some (if decide (Payment.id q = pid) then fullPayment pid payment else q).
Proof. intros Hi. cbn [handleUpdatePayment_upd payments]. by rewrite list_lookup_fmap, Hi. Qed.
End LateFee.




(** ** Reachable states under a calling discipline *)

Section Reachability.
Variable D : Call → Engine → Prop.
Variable P : AppState → Prop.
Hypothesis P_empty : P emptyState.
Hypothesis P_step :
  ∀ o e, D (Mutation o) e → P (state e) → P (updater o (state e)).

Lemma pushHistory_Forall s h : P s → Forall P h → Forall P (pushHistory s h).
Proof.
  intros Hs Hh. unfold pushHistory. case_decide.
  - apply Forall_take. by constructor.
  - by constructor.
Qed.

(** A property of snapshots that every disciplined mutation preserves
    holds of the snapshot and of every history entry. *)
Lemma reachableWith_invariant e :
  reachableWith D e → P (state e) ∧ Forall P (history e).
Proof.
  induction 1 as [|c e Hreach [IHs IHh] Hd].
  - split; [done|constructor].
  - destruct c as [o|]; simpl.
    + split; [by eapply P_step|by apply pushHistory_Forall].
    + unfold undo. destruct (history e) as [|s h] eqn:Hh; simpl.
      * by rewrite Hh.
      * by apply Forall_cons in IHh.
Qed.
End Reachability.

Lemma reachable_unconstrained e : reachable e ↔ reachableWith (λ _ _, True) e.
Proof.
  split.
  - intros [cs ->]. induction cs as [|c cs IH] using rev_ind.
    + constructor.
    + rewrite run_snoc. by constructor.
  - induction 1 as [|c e _ [cs ->] _].
    + by exists [].
    + exists (cs ++ [c]). by rewrite run_snoc.
Qed.

(** ** The natural key of payments *)

Section PaymentKeys.
Implicit Types (s : AppState) (p : PaymentData.t).

Lemma paymentKey_fullPayment pid p : paymentKey (fullPayment pid p) = dataKey p.
Proof. done. Qed.

Lemma handleAddPayment_unique newId p s :
  uniquePayments s →
  uniquePayments (handleAddPayment_upd newId p s)
  ↔ dataKey p ∉ paymentKey <$> payments s.
Proof.
  intros Hu. unfold uniquePayments. simpl.
  rewrite fmap_app, NoDup_app. simpl. rewrite paymentKey_fullPayment.
  split.
  - intros (_ & Hno & _) Hin. apply (Hno _ Hin). left.
  - intros Hno. split_and!; [done| |apply NoDup_singleton].
    intros k Hk ->%list_elem_of_singleton. done.
Qed.

Lemma handleUpdatePayment_keys p pid s :
  (∀ q, q ∈ payments s → Payment.id q = pid → paymentKey q = dataKey p) →
  paymentKey <$> payments (handleUpdatePayment_upd p pid s)
  = paymentKey <$> payments s.
Proof.
  intros Hkeep. simpl. rewrite <- list_fmap_compose.
  apply list_fmap_ext. intros i q Hq. simpl.
  case_decide; [|done]. rewrite paymentKey_fullPayment.
  symmetry. apply Hkeep; [|done]. by eapply list_elem_of_lookup_2.
Qed.

Lemma NoDup_fmap_filter {A B} (f : A → B) (Q : A → Prop)
    `{!∀ x, Decision (Q x)} (l : list A) :
  NoDup (f <$> l) → NoDup (f <$> filter Q l).
Proof.
  intros Hnd. eapply sublist_NoDup; [exact Hnd|].
  apply fmap_sublist, sublist_filter.
Qed.

Lemma updater_payments o s :
  payments (updater o s) = payments s
  ∨ (∃ newId p, o = AddPayment newId p)
  ∨ (∃ p pid, o = UpdatePayment p pid)
  ∨ (∃ Q (HQ : ∀ x, Decision (Q x)),
        payments (updater o s) = filter Q (payments s)).
Proof.
  destruct o; simpl; eauto 6.
  - left. unfold updateCommittee_upd.
    destruct (list_find _ _) as [[??]|]; [|done]. by destruct (_ && _).
  - left. unfold updateMember_upd. by destruct (list_find _ _) as [[??]|].
  - left. unfold deleteMember_upd.
    destruct (list_find _ _) as [[??]|]; [|done]. by case_decide.
Qed.

Lemma keyDiscipline_step o e :
  keyDiscipline (Mutation o) e →
  uniquePayments (state e) → uniquePayments (updater o (state e)).
Proof.
  intros Hd Hu.
  destruct (updater_payments o (state e))
    as [Heq|[(newId & p & ->)|[(p & pid & ->)|(Q & HQ & Heq)]]].
  - unfold uniquePayments. by rewrite Heq.
  - by apply handleAddPayment_unique.
  - unfold uniquePayments. cbn [updater].
    by rewrite handleUpdatePayment_keys.
  - unfold uniquePayments. rewrite Heq. by apply NoDup_fmap_filter.
Qed.
End PaymentKeys.

(** C8 (as the code has it). The engine checks no key: [addPayment] appends
    the payment it is given. A state with unique triples keeps them unique
    after an add exactly when the new triple was absent, and every state
    reached by calls that record only absent triples and keep the triple on
    an edit has at most one payment per triple. *)
Theorem payment_key_unique_under_discipline :
  (∀ newId p s,
      uniquePayments s →
      payments (handleAddPayment_upd newId p s)
      = payments s ++ [fullPayment newId p]
      ∧ (uniquePayments (handleAddPayment_upd newId p s)
         ↔ dataKey p ∉ paymentKey <$> payments s))
  ∧ (∀ e, reachableWith keyDiscipline e → uniquePayments (state e)).
Proof.
  split.
  - intros newId p s Hu. split; [done|]. by apply handleAddPayment_unique.
  - intros e He.
    apply (reachableWith_invariant keyDiscipline uniquePayments); [|..|done].
    + constructor.
    + apply keyDiscipline_step.
Qed.

Lemma payment_key_unique_under_discipline_witness :
  let p1 := PaymentData.mk "c1" "m1" "2024-01" 1000 "2024-01-09" in
  let p2 := PaymentData.mk "c1" "m1" "2024-02" 1000 "2024-02-12" in
  let e := call (Mutation (AddPayment "p2" p2))
             (call (Mutation (AddPayment "p1" p1)) (initialEngine emptyState)) in
  uniquePayments (state e)
  ∧ (uniquePayments (handleAddPayment_upd "p3" p1 (state e)) ↔
     dataKey p1 ∉ paymentKey <$> payments (state e)).
Proof.
  intros p1 p2 e.
  destruct payment_key_unique_under_discipline as [Hadd Hreach].
  assert (uniquePayments (state e)) as Hu.
  { apply Hreach. repeat constructor; compute_done. }
  split; [done|]. by apply Hadd.
Defined.

(** C8 (as stated) fails: recording the same triple twice is accepted, and
    the reached snapshot holds two payments with one key. *)
Lemma payment_key_unique_counterexample :
  let p := PaymentData.mk "c1" "m1" "2024-01" 1000 "2024-01-09" in
  let e := run [Mutation (AddPayment "p1" p); Mutation (AddPayment "p2" p)]
               (initialEngine emptyState) in
  reachable e ∧ ¬ uniquePayments (state e).
Proof.
  split; [by eexists|].
  unfold uniquePayments. vm_compute. intros Hnd.
  apply NoDup_cons in Hnd as [Hnotin _]. apply Hnotin. left.
Qed.


(** ** Pairing symmetry *)

(** C2 fails on the code. In the reachable state [pairedScenario] the pairing
    is symmetric, and the member dialog still offers [a] as a partner, since
    its test for "not paired", [pairId = id], is also true of the smaller
    member of a pair. Adding a third HALF member with partner [a] leaves
    three HALF members under one pair id when the new id is the larger one,
    and leaves [b] with the pair id of a pair it is no longer part of when
    the new id is the smaller one. *)
Theorem addMember_breaks_pairing_symmetry :
  let ms := members (state pairedScenario) in
  let third := dialogMemberData "c1" "Chand" "0302" HALF "a" in
  reachable pairedScenario
  ∧ pairingSymmetric ms
  ∧ "a" ∈ Member.id <$> unpairedHalfShareMembers ms "c1" None
  ∧ length (halfSharers (members (state (addMember "c" third pairedScenario))) "a")
    = 3
  ∧ ¬ pairingSymmetric (members (state (addMember "c" third pairedScenario)))
  ∧ ¬ pairingSymmetric (members (state (addMember "0" third pairedScenario))).
Proof.
  intros ms third. split_and!.
  - by eexists.
  - split.
    + intros m Hm _. revert Hm. vm_compute in ms. subst ms.
      rewrite !elem_of_cons, elem_of_nil. intros [->|[->|[]]].
      * by left.
      * right. eexists. split; reflexivity.
    + intros k. etrans; [apply length_filter|]. done.
  - compute_done.
  - reflexivity.
  - intros [_ Hmost]. specialize (Hmost "a"). vm_compute in Hmost. lia.
  - intros [Hpair _].
    destruct (Hpair (Member.mk "b" "c1" "Bano" "0301" HALF (Some "a")))
      as [Hself|(p & Hp & _)]; [compute_done|done|discriminate Hself|].
    vm_compute in Hp. discriminate Hp.
Qed.

(** ** Durations follow the member list *)

Section ListEdits.
Context {A : Type} (P : A → Prop) `{!∀ x, Decision (P x)}.
Implicit Types (l : list A) (x y : A) (i : nat).

Lemma filter_insert_out l i x x' :
  l !! i = Some x → ¬ P x → ¬ P x' → filter P (<[i:=x']> l) = filter P l.
Proof.
  revert i. induction l as [|y l IH]; intros [|i] Hi Hx Hx'; try done; simpl in *.
  - injection Hi as ->. by rewrite !filter_cons, !decide_False.
  - rewrite !filter_cons. by rewrite (IH i).
Qed.

Lemma filter_insert_length l i x x' :
  l !! i = Some x → (P x ↔ P x') →
  length (filter P (<[i:=x']> l)) = length (filter P l).
Proof.
  revert i. induction l as [|y l IH]; intros [|i] Hi Hx; try done; simpl in *.
  - injection Hi as ->. rewrite !filter_cons.
    destruct (decide (P x)), (decide (P x')); simpl; tauto.
  - rewrite !filter_cons. destruct (decide (P y)); simpl; by rewrite (IH i).
Qed.

Lemma filter_filter_out (Q : A → Prop) `{!∀ x, Decision (Q x)} l :
  (∀ x, x ∈ l → P x → Q x) → filter P (filter Q l) = filter P l.
Proof.
  induction l as [|y l IH]; intros Hall; [done|].
  rewrite !filter_cons.
  assert (filter P (filter Q l) = filter P l) as IH'.
  { apply IH. intros x Hx. apply Hall. by right. }
  destruct (decide (Q y)) as [Hq|Hq].
  - rewrite filter_cons. by rewrite IH'.
  - rewrite IH'. rewrite decide_False; [done|].
    intros Hp. apply Hq, Hall; [left|done].
Qed.

Lemma elem_of_insert_inv l i x y : y ∈ <[i:=x]> l → y = x ∨ y ∈ l.
Proof.
  intros (j & Hj)%list_elem_of_lookup.
  apply list_lookup_insert_Some in Hj as [(_ & -> & _)|[_ Hj]]; [by left|].
  right. by eapply list_elem_of_lookup_2.
Qed.
End ListEdits.

Section DurationFrame.
Implicit Types (ms : list Member.t) (x n : Member.t) (cid t : string).

Lemma fullMembersOf_alt cid ms :
  fullMembersOf cid ms
  = filter (λ m, Member.shareType m = FULL ∧ Member.committeeId m = cid) ms.
Proof. apply list_filter_filter. Qed.

Lemma halfMembersOf_alt cid ms :
  halfMembersOf cid ms
  = filter (λ m, Member.shareType m = HALF ∧ Member.committeeId m = cid) ms.
Proof. apply list_filter_filter. Qed.

Lemma calculateDuration_view cid ms ms' :
  length (fullMembersOf cid ms') = length (fullMembersOf cid ms) →
  halfMembersOf cid ms' = halfMembersOf cid ms →
  calculateDuration cid ms' = calculateDuration cid ms.
Proof.
  intros Hf Hh. rewrite !calculateDuration_derive. unfold deriveDuration.
  by rewrite Hf, Hh.
Qed.

(** Replacing a member that is outside [cid], or replacing a FULL member by
    a FULL member of the same committee, does not change the duration
    derived for [cid]. *)
Lemma calculateDuration_insert cid ms i x x' :
  ms !! i = Some x →
  Member.committeeId x' = Member.committeeId x →
  Member.committeeId x ≠ cid
  ∨ (Member.shareType x = FULL ∧ Member.shareType x' = FULL) →
  calculateDuration cid (<[i:=x']> ms) = calculateDuration cid ms.
Proof.
  intros Hi Hc Hcase. apply calculateDuration_view.
  - rewrite !fullMembersOf_alt. apply (filter_insert_length _ _ _ x); [done|].
    rewrite Hc. destruct Hcase as [?|[-> ->]]; tauto.
  - rewrite !halfMembersOf_alt. apply (filter_insert_out _ _ _ x); [done|..].
    + destruct Hcase as [?|[Hx _]]; [tauto|]. rewrite Hx. by intros [? _].
    + rewrite Hc. destruct Hcase as [?|[_ Hx]]; [tauto|]. rewrite Hx. by intros [? _].
Qed.

Lemma calculateDuration_app_other cid ms n :
  Member.committeeId n ≠ cid →
  calculateDuration cid (ms ++ [n]) = calculateDuration cid ms.
Proof.
  intros Hn. unfold calculateDuration.
  rewrite filter_app, filter_cons.
  rewrite (decide_False (P := Member.committeeId n = cid)) by done.
  by rewrite filter_nil, app_nil_r.
Qed.

Lemma calculateDuration_filter_other (Q : Member.t → Prop)
    `{!∀ m, Decision (Q m)} cid ms :
  (∀ m, m ∈ ms → Member.committeeId m = cid → Q m) →
  calculateDuration cid (filter Q ms) = calculateDuration cid ms.
Proof.
  intros Hall. unfold calculateDuration.
  by rewrite (filter_filter_out (λ m, Member.committeeId m = cid) Q ms Hall).
Qed.

Lemma sameElsewhere_refl t ms : sameElsewhere t ms ms.
Proof. by intros cid _. Qed.

Lemma sameElsewhere_trans t ms1 ms2 ms3 :
  sameElsewhere t ms1 ms2 → sameElsewhere t ms2 ms3 → sameElsewhere t ms1 ms3.
Proof. intros H12 H23 cid Hcid. by rewrite H23, H12. Qed.
End DurationFrame.

Section PairsLocal.
Implicit Types (ms : list Member.t) (x y n u : Member.t) (q c t : string).

Lemma NoDup_fmap_eq {A B} (f : A → B) (l : list A) (a b : A) :
  NoDup (f <$> l) → a ∈ l → b ∈ l → f a = f b → a = b.
Proof.
  induction l as [|z l IH]; intros Hnd Ha Hb Hf; [by apply elem_of_nil in Ha|].
  rewrite fmap_cons in Hnd. apply NoDup_cons in Hnd as [Hz Hnd].
  apply elem_of_cons in Ha as [->|Ha]; apply elem_of_cons in Hb as [->|Hb].
  - done.
  - destruct Hz. rewrite Hf. by apply list_elem_of_fmap_2.
  - destruct Hz. rewrite <- Hf. by apply list_elem_of_fmap_2.
  - by apply IH.
Qed.

Lemma elem_of_idc ms q c :
  (q, c) ∈ idc ms ↔ ∃ y, y ∈ ms ∧ Member.id y = q ∧ Member.committeeId y = c.
Proof.
  unfold idc. rewrite list_elem_of_fmap. split.
  - intros (y & [= -> ->] & Hy). eauto.
  - intros (y & Hy & <- & <-). eauto.
Qed.

Lemma idc_functional ms q c c' :
  NoDup (Member.id <$> ms) → (q, c) ∈ idc ms → (q, c') ∈ idc ms → c = c'.
Proof.
  intros Hnd (y & Hy & Hq & <-)%elem_of_idc (y' & Hy' & Hq' & <-)%elem_of_idc.
  assert (y = y') as -> by (apply (NoDup_fmap_eq Member.id ms); congruence).
  done.
Qed.

Lemma idc_self ms x : x ∈ ms → (Member.id x, Member.committeeId x) ∈ idc ms.
Proof. intros Hx. apply elem_of_idc. eauto. Qed.

Lemma ids_insert ms i x u :
  ms !! i = Some x → Member.id u = Member.id x →
  Member.id <$> <[i:=u]> ms = Member.id <$> ms.
Proof.
  intros Hi Hid. rewrite list_fmap_insert. apply list_insert_id.
  by rewrite list_lookup_fmap, Hi, Hid.
Qed.

Lemma idc_insert ms i x u :
  ms !! i = Some x → Member.id u = Member.id x →
  Member.committeeId u = Member.committeeId x →
  idc (<[i:=u]> ms) = idc ms.
Proof.
  intros Hi Hid Hc. unfold idc. rewrite list_fmap_insert. apply list_insert_id.
  by rewrite list_lookup_fmap, Hi, Hid, Hc.
Qed.

(** Replacing a member by one with the same id and committee whose pair id,
    if it is a HALF member, is the id of a member of that committee. *)
Lemma pairsLocal_insert ms i x u :
  pairsLocal ms →
  ms !! i = Some x →
  Member.id u = Member.id x →
  Member.committeeId u = Member.committeeId x →
  (Member.shareType u = HALF →
   ∃ q, Member.pairId u = Some q ∧ (q, Member.committeeId x) ∈ idc ms) →
  pairsLocal (<[i:=u]> ms).
Proof.
  intros [Hids Hshared Hrefers] Hi Hid Hc Hu. split.
  - by rewrite (ids_insert ms i x).
  - intros x1 x2 [->|H1]%elem_of_insert_inv [->|H2]%elem_of_insert_inv Hh1 Hh2 Hp.
    + done.
    + destruct (Hu Hh1) as (q & Hq & Hin). rewrite Hc.
      apply (Hrefers x2 q); [done|done|congruence|done].
    + destruct (Hu Hh2) as (q & Hq & Hin). rewrite Hc.
      symmetry. apply (Hrefers x1 q); [done|done|congruence|done].
    + by apply Hshared.
  - intros x1 q c [->|H1]%elem_of_insert_inv Hh Hp Hin;
      rewrite (idc_insert ms i x) in Hin by done.
    + destruct (Hu Hh) as (q' & Hq' & Hin'). rewrite Hc.
      assert (q' = q) as -> by congruence.
      by apply (idc_functional ms q).
    + by apply (Hrefers x1 q).
Qed.

(** Appending a member with a new id whose pair id, if it is a HALF member,
    is its own id or the id of a member of its committee. *)
Lemma pairsLocal_app ms n :
  pairsLocal ms →
  Member.id n ∉ Member.id <$> ms →
  Some (Member.id n) ∉ Member.pairId <$> ms →
  (Member.shareType n = HALF →
   ∃ q, Member.pairId n = Some q
        ∧ (q = Member.id n ∨ (q, Member.committeeId n) ∈ idc ms)) →
  pairsLocal (ms ++ [n]).
Proof.
  intros [Hids Hshared Hrefers] Hfresh Hfresh' Hn.
  assert (∀ z, z ∈ ms → Member.pairId z ≠ Some (Member.id n)) as Hnopair.
  { intros z Hz Hp. apply Hfresh'. rewrite <- Hp. by apply list_elem_of_fmap_2. }
  assert (∀ z, z ∈ ms → Member.shareType z = HALF →
               Member.shareType n = HALF →
               Member.pairId z = Member.pairId n →
               Member.committeeId z = Member.committeeId n) as Hnew.
  { intros z Hz Hhz Hhn Hp. destruct (Hn Hhn) as (q & Hq & [->|Hin]).
    - destruct (Hnopair z Hz). congruence.
    - symmetry. apply (Hrefers z q); [done|done|congruence|done]. }
  split.
  - rewrite fmap_app. apply NoDup_app. split_and!; [done| |apply NoDup_singleton].
    intros k Hk ->%list_elem_of_singleton. done.
  - intros x1 x2 [H1| ->%list_elem_of_singleton]%elem_of_app
                 [H2| ->%list_elem_of_singleton]%elem_of_app Hh1 Hh2 Hp.
    + by apply Hshared.
    + by apply Hnew.
    + symmetry. by apply Hnew.
    + done.
  - intros x1 q c [H1| ->%list_elem_of_singleton]%elem_of_app Hh Hp Hin;
      unfold idc in Hin; rewrite fmap_app in Hin;
      apply elem_of_app in Hin as [Hin|[= -> ->]%list_elem_of_singleton].
    + by apply (Hrefers x1 q).
    + by destruct (Hnopair x1 H1).
    + destruct (Hn Hh) as (q' & Hq' & [->|Hin']).
      * destruct Hfresh. apply elem_of_idc in Hin as (y & Hy & Hyq & _).
        assert (q = Member.id n) as <- by congruence.
        rewrite <- Hyq. by apply list_elem_of_fmap_2.
      * assert (q' = q) as -> by congruence. by apply (idc_functional ms q).
    + done.
Qed.

Lemma pairsLocal_filter (Q : Member.t → Prop) `{!∀ m, Decision (Q m)} ms :
  pairsLocal ms → pairsLocal (filter Q ms).
Proof.
  intros [Hids Hshared Hrefers]. split.
  - by apply NoDup_fmap_filter.
  - intros x1 x2 [_ H1]%list_elem_of_filter [_ H2]%list_elem_of_filter.
    by apply Hshared.
  - intros x1 q c [_ H1]%list_elem_of_filter Hh Hp
      (y & [_ Hy]%list_elem_of_filter & Hq & Hc)%elem_of_idc.
    apply (Hrefers x1 q); [done..|]. apply elem_of_idc. eauto.
Qed.

Lemma pairsLocal_nil : pairsLocal [].
Proof.
  split.
  - constructor.
  - intros x y Hx. by apply elem_of_nil in Hx.
  - intros x q c Hx. by apply elem_of_nil in Hx.
Qed.
End PairsLocal.

Section MemberEdits.
Implicit Types (ms : list Member.t) (x y n u p : Member.t) (q c t : string).

Lemma editOk_refl t ms : pairsLocal ms → editOk t ms ms.
Proof. intros Hpl. split_and!; [done|apply sameElsewhere_refl|done]. Qed.

Lemma editOk_trans t ms1 ms2 ms3 :
  editOk t ms1 ms2 → editOk t ms2 ms3 → editOk t ms1 ms3.
Proof.
  intros (_ & Hs12 & Hi12) (Hpl & Hs23 & Hi23). split_and!; [done| |congruence].
  by eapply sameElsewhere_trans.
Qed.

Lemma replace_editOk t ms i x u :
  pairsLocal ms →
  ms !! i = Some x →
  Member.id u = Member.id x →
  Member.committeeId u = Member.committeeId x →
  (Member.shareType u = HALF →
   ∃ q, Member.pairId u = Some q ∧ (q, Member.committeeId x) ∈ idc ms) →
  Member.committeeId x = t
  ∨ (Member.shareType x = FULL ∧ Member.shareType u = FULL) →
  editOk t ms (<[i:=u]> ms).
Proof.
  intros Hpl Hi Hid Hc Hu Hcase. split_and!.
  - by eapply pairsLocal_insert.
  - intros cid Hcid. eapply calculateDuration_insert; [done..|].
    destruct Hcase as [<-|?]; [by left|by right].
  - by eapply idc_insert.
Qed.

Lemma minId_cases a b : minId a b = a ∨ minId a b = b.
Proof. unfold minId. destruct (String.ltb a b); auto. Qed.

Lemma truthy_Some o k : truthy o = Some k → o = Some k ∧ k ≠ "".
Proof.
  unfold truthy. destruct o as [k'|]; [|done].
  case_decide; [done|]. by intros [= ->].
Qed.

Lemma partnerOf_Some ms x p :
  partnerOf x ms = Some p →
  p ∈ ms ∧ Member.shareType x = HALF
  ∧ Member.pairId p = Member.pairId x ∧ Member.id p ≠ Member.id x.
Proof.
  unfold partnerOf. destruct (Member.shareType x); [done|].
  destruct (list_find _ ms) as [[i p']|] eqn:Hfind; [|done].
  intros [= ->]. apply list_find_Some in Hfind as (Hi & [Hp Hne] & _).
  split_and!; try done. by eapply list_elem_of_lookup_2.
Qed.

(** The partner found for a HALF member sits in the member's committee,
    unless it is a FULL member that happens to carry the pair id. *)
Lemma partnerOf_local ms x p :
  pairsLocal ms → x ∈ ms → partnerOf x ms = Some p →
  p ∈ ms ∧ Member.id p ≠ Member.id x
  ∧ (Member.committeeId p = Member.committeeId x ∨ Member.shareType p = FULL).
Proof.
  intros Hpl Hx (Hp & Hh & Heq & Hne)%partnerOf_Some. split_and!; [done..|].
  destruct (Member.shareType p) eqn:Hs; [by right|left].
  by apply (pl_shared ms Hpl).
Qed.

Lemma resetPartner_editOk t ms partner :
  pairsLocal ms →
  (∀ p, partner = Some p →
        ∃ p0, p0 ∈ ms ∧ Member.id p0 = Member.id p
              ∧ (Member.committeeId p0 = t ∨ Member.shareType p0 = FULL)) →
  editOk t ms (resetPartner partner ms).
Proof.
  intros Hpl Hp. unfold resetPartner.
  destruct partner as [p|]; [|by apply editOk_refl].
  destruct (list_find _ ms) as [[i q]|] eqn:Hfind; [|by apply editOk_refl].
  apply list_find_Some in Hfind as (Hi & Hq & _).
  destruct (Hp p eq_refl) as (p0 & Hp0 & Hid0 & Hcase).
  assert (q ∈ ms) as Hqin by by eapply list_elem_of_lookup_2.
  assert (q = p0) as ->.
  { apply (NoDup_fmap_eq Member.id ms); [apply Hpl|done|done|congruence]. }
  eapply replace_editOk; [done|done|done|done| |].
  - intros _. exists (Member.id p). split; [done|].
    rewrite <- Hid0. by apply idc_self.
  - destruct Hcase as [?|?]; [by left|by right].
Qed.

Lemma addMember_members_ok newId (m : MemberData.t) ms :
  pairsLocal ms →
  newId ∉ Member.id <$> ms →
  Some newId ∉ Member.pairId <$> ms →
  (∀ p, p ∈ ms → MemberData.pairId m = Some (Member.id p) →
        Member.committeeId p = MemberData.committeeId m) →
  pairsLocal (addMember_members newId m ms)
  ∧ sameElsewhere (MemberData.committeeId m) ms (addMember_members newId m ms).
Proof.
  intros Hpl Hfresh Hfresh' Hpartner.
  set (n := Member.mk newId (MemberData.committeeId m) (MemberData.name m)
              (MemberData.phone m) (MemberData.shareType m)
              (MemberData.pairId m)).
  assert (∀ k, (Member.shareType (Member.set_pairId (Some k) n) = HALF →
                ∃ q, Member.pairId (Member.set_pairId (Some k) n) = Some q
                     ∧ (q = Member.id (Member.set_pairId (Some k) n)
                        ∨ (q, Member.committeeId (Member.set_pairId (Some k) n))
                          ∈ idc ms)) →
               pairsLocal (ms ++ [Member.set_pairId (Some k) n])
               ∧ sameElsewhere (MemberData.committeeId m) ms
                   (ms ++ [Member.set_pairId (Some k) n])) as Happ.
  { intros k Hk. split.
    - by apply pairsLocal_app.
    - intros cid Hcid. by apply calculateDuration_app_other. }
  unfold addMember_members. fold n.
  destruct (MemberData.shareType m) eqn:Hshare.
  { split.
    - apply pairsLocal_app; [done..|]. simpl. congruence.
    - intros cid Hcid. by apply calculateDuration_app_other. }
  destruct (truthy (MemberData.pairId m)) as [partnerId|] eqn:Htruthy.
  2:{ apply Happ. intros _. exists newId. split; [done|by left]. }
  destruct (list_find _ ms) as [[i p]|] eqn:Hfind.
  2:{ apply Happ. intros _. exists newId. split; [done|by left]. }
  apply list_find_Some in Hfind as (Hi & Hid & _).
  apply truthy_Some in Htruthy as [Hpair _].
  assert (p ∈ ms) as Hp by by eapply list_elem_of_lookup_2.
  assert (Member.committeeId p = MemberData.committeeId m) as Hpc.
  { apply Hpartner; [done|]. by rewrite Hid. }
  set (common := minId newId partnerId).
  set (n' := Member.set_pairId (Some common) n).
  destruct (Happ common) as [Hpl' Hsame'].
  { intros _. exists common. split; [done|].
    destruct (minId_cases newId partnerId) as [Hc|Hc]; [by left|right].
    fold common in Hc. rewrite Hc, <- Hid. simpl. rewrite <- Hpc.
    by apply idc_self. }
  fold n' in Hpl', Hsame'.
  rewrite <- insert_app_l by by eapply lookup_lt_Some.
  assert ((ms ++ [n']) !! i = Some p) as Hi' by by apply lookup_app_l_Some.
  destruct (replace_editOk (MemberData.committeeId m) (ms ++ [n']) i p
              (Member.set_pairId (Some common) p)) as (Hpl'' & Hsame'' & _);
    [done|done|done|done| |by left|].
  - intros _. exists common. split; [done|].
    destruct (minId_cases newId partnerId) as [Hc|Hc]; fold common in Hc; rewrite Hc.
    + rewrite Hpc. apply (idc_self (ms ++ [n']) n'). apply elem_of_app. right. left.
    + rewrite <- Hid. apply idc_self. apply elem_of_app. by left.
  - split; [done|]. by eapply sameElsewhere_trans.
Qed.
End MemberEdits.

Section MemberUpdates.
Implicit Types (ms : list Member.t) (x y u p orig : Member.t) (q c t : string).

(** The last step of [updateMember]: the edited member replaces the first
    member that has its id. *)
Lemma finalReplace_editOk t ms u final :
  pairsLocal ms →
  Member.id final = Member.id u →
  Member.committeeId final = t →
  (∀ x, x ∈ ms → Member.id x = Member.id u → Member.committeeId x = t) →
  (Member.shareType final = HALF →
   ∃ q, Member.pairId final = Some q ∧ (q, t) ∈ idc ms) →
  editOk t ms
    match list_find (λ m, Member.id m = Member.id u) ms with
    | Some (k, _) => <[k:=final]> ms
    | None => ms
    end.
Proof.
  intros Hpl Hid Hc Hsame Hfinal.
  destruct (list_find _ ms) as [[k x]|] eqn:Hfind; [|by apply editOk_refl].
  apply list_find_Some in Hfind as (Hk & Hx & _).
  assert (Member.committeeId x = t) as Hxc.
  { apply Hsame; [|done]. by eapply list_elem_of_lookup_2. }
  eapply replace_editOk; [done|done|congruence|congruence| |by left].
  rewrite Hxc. done.
Qed.

Lemma updateMember_members_ok u orig i ms :
  pairsLocal ms →
  list_find (λ m, Member.id m = Member.id u) ms = Some (i, orig) →
  (∀ o, o ∈ ms → Member.id o = Member.id u →
        Member.committeeId o = Member.committeeId u) →
  (∀ p, p ∈ ms → Member.pairId u = Some (Member.id p) →
        Member.committeeId p = Member.committeeId u) →
  editOk (Member.committeeId u) ms (updateMember_members u orig ms).
Proof.
  intros Hpl Hfind Hkeep Hpartner.
  set (t := Member.committeeId u).
  apply list_find_Some in Hfind as (Hi & Hid & _).
  assert (orig ∈ ms) as Horig by by eapply list_elem_of_lookup_2.
  assert (Member.committeeId orig = t) as Horigc by by apply Hkeep.
  (* first the old partner is unpaired *)
  assert (editOk t ms (resetPartner (partnerOf orig ms) ms)) as Hreset.
  { apply resetPartner_editOk; [done|]. intros p Hp.
    apply partnerOf_local in Hp as (Hpin & _ & Hcase); [|done..].
    exists p. split_and!; [done..|]. rewrite <- Horigc. done. }
  unfold updateMember_members.
  set (ms1 := resetPartner (partnerOf orig ms) ms) in *.
  destruct Hreset as (Hpl1 & Hsame1 & Hidc1).
  assert (∀ x, x ∈ ms1 → Member.id x = Member.id u → Member.committeeId x = t)
    as Hkeep1.
  { intros x Hx Hxid. apply idc_self in Hx. rewrite Hidc1 in Hx.
    apply elem_of_idc in Hx as (o & Ho & Hoid & <-). apply Hkeep; congruence. }
  assert ((Member.id u, t) ∈ idc ms1) as Hself.
  { rewrite Hidc1, <- Hid, <- Horigc. by apply idc_self. }
  (* the edited member unpaired *)
  assert (editOk t ms
            match list_find (λ m, Member.id m = Member.id u) ms1 with
            | Some (k, _) =>
                <[k:=Member.set_pairId (Some (Member.id u)) u]> ms1
            | None => ms1
            end) as Hunpaired.
  { eapply editOk_trans; [done|].
    apply finalReplace_editOk; [done|done|done|done|].
    intros _. by exists (Member.id u). }
  case_decide as Hempty; [done|].
  destruct (list_find (λ m, Member.id m = default "" (Member.pairId u)) ms1)
    as [[j np]|] eqn:Hnew; [|done].
  (* the edited member paired with [np] *)
  apply list_find_Some in Hnew as (Hj & Hnpid & _).
  assert (Member.pairId u = Some (Member.id np)) as Hpair.
  { destruct (Member.pairId u) as [k|]; simpl in *; [by rewrite Hnpid|done]. }
  rewrite Hpair in *. simpl in *.
  assert (np ∈ ms1) as Hnp by by eapply list_elem_of_lookup_2.
  assert (Member.committeeId np = t) as Hnpc.
  { apply idc_self in Hnp. rewrite Hidc1 in Hnp.
    apply elem_of_idc in Hnp as (p & Hp & Hpid & <-).
    apply Hpartner; [done|]. by rewrite Hpid. }
  set (common := minId (Member.id u) (Member.id np)).
  assert ((common, t) ∈ idc ms1) as Hcommon.
  { unfold common.
    destruct (minId_cases (Member.id u) (Member.id np)) as [-> | ->]; [done|].
    rewrite <- Hnpc. by apply idc_self. }
  assert (editOk t ms1 (<[j:=Member.set_pairId (Some common) np]> ms1))
    as (Hpl2 & Hsame2 & Hidc2).
  { eapply replace_editOk; [done|done|done|done| |by left].
    intros _. exists common. by rewrite Hnpc. }
  apply (editOk_trans t ms ms1); [by split_and!|].
  apply (editOk_trans t ms1 (<[j:=Member.set_pairId (Some common) np]> ms1));
    [by split_and!|].
  apply finalReplace_editOk; [done|done|done| |].
  - intros x Hx Hxid. apply idc_self in Hx. rewrite Hidc2 in Hx.
    apply elem_of_idc in Hx as (o & Ho & Hoid & <-). apply Hkeep1; congruence.
  - intros _. exists common. by rewrite Hidc2.
Qed.

Lemma deleteMember_members_ok mid md i ms :
  pairsLocal ms →
  list_find (λ m, Member.id m = mid) ms = Some (i, md) →
  pairsLocal (deleteMember_members mid md ms)
  ∧ sameElsewhere (Member.committeeId md) ms (deleteMember_members mid md ms).
Proof.
  intros Hpl Hfind. set (t := Member.committeeId md).
  apply list_find_Some in Hfind as (Hi & Hid & _).
  assert (md ∈ ms) as Hmd by by eapply list_elem_of_lookup_2.
  unfold deleteMember_members.
  set (ms1 := filter (λ m, Member.id m ≠ mid) ms).
  assert (pairsLocal ms1) as Hpl1 by by apply pairsLocal_filter.
  assert (sameElsewhere t ms ms1) as Hsame1.
  { intros cid Hcid. apply calculateDuration_filter_other.
    intros m Hm Hmc Hmid. apply Hcid. rewrite <- Hmc. unfold t. f_equal.
    apply (NoDup_fmap_eq Member.id ms); [apply Hpl|done|done|congruence]. }
  destruct (resetPartner_editOk t ms1 (partnerOf md ms)) as (Hpl2 & Hsame2 & _);
    [done| |].
  - intros p Hp. apply partnerOf_local in Hp as (Hpin & Hne & Hcase); [|done..].
    exists p. split_and!; [|done|done].
    apply list_elem_of_filter. split; [congruence|done].
  - split; [done|]. by eapply sameElsewhere_trans.
Qed.
End MemberUpdates.


Section DurationInvariant.
Implicit Types (s : AppState) (ms : list Member.t) (cs : list Committee.t).

Lemma setDuration_derived t cs ms ms' :
  (∀ c, c ∈ cs →
        Committee.durationMonths c = calculateDuration (Committee.id c) ms) →
  sameElsewhere t ms ms' →
  ∀ c, c ∈ setDuration t (calculateDuration t ms') cs →
       Committee.durationMonths c = calculateDuration (Committee.id c) ms'.
Proof.
  intros Hder Hsame c (c0 & -> & Hc0)%list_elem_of_fmap.
  case_decide as Hid; simpl.
  - by rewrite Hid.
  - rewrite Hsame by done. by apply Hder.
Qed.

Lemma wellFormed_empty : wellFormed emptyState.
Proof.
  split; [|apply pairsLocal_nil]. intros c Hc. by apply elem_of_nil in Hc.
Qed.

Lemma addCommittee_wellFormed newId data s :
  newId ∉ Member.committeeId <$> members s →
  wellFormed s → wellFormed (addCommittee_upd newId data s).
Proof.
  intros Hfresh [Hder Hpl]. split; [|done].
  intros c [Hc| ->%list_elem_of_singleton]%elem_of_app; simpl; [by apply Hder|].
  symmetry. apply calculateDuration_absent. intros m Hm Hmc.
  apply Hfresh. rewrite <- Hmc. by apply list_elem_of_fmap_2.
Qed.

Lemma updateCommittee_wellFormed cid data s :
  wellFormed s → wellFormed (updateCommittee_upd cid data s).
Proof.
  intros [Hder Hpl]. unfold updateCommittee_upd.
  destruct (list_find _ (committees s)) as [[i existing]|] eqn:Hfind; [|done].
  destruct (_ && _); [done|]. split; [|done].
  apply list_find_Some in Hfind as (Hi & Hid & _).
  intros c (c0 & -> & Hc0)%list_elem_of_fmap. simpl.
  case_decide as Hc; simpl; [|by apply Hder].
  rewrite <- Hid. apply Hder. by eapply list_elem_of_lookup_2.
Qed.

Lemma deleteCommittee_wellFormed cid s :
  wellFormed s → wellFormed (deleteCommittee_upd cid s).
Proof.
  intros [Hder Hpl]. split; [|by apply pairsLocal_filter].
  intros c [Hne Hc]%list_elem_of_filter. simpl.
  rewrite calculateDuration_filter_other; [by apply Hder|].
  intros m _ Hmc. congruence.
Qed.

Lemma addMember_wellFormed newId (m : MemberData.t) s :
  newId ∉ Member.id <$> members s →
  Some newId ∉ Member.pairId <$> members s →
  (∀ p, p ∈ members s → MemberData.pairId m = Some (Member.id p) →
        Member.committeeId p = MemberData.committeeId m) →
  wellFormed s → wellFormed (addMember_upd newId m s).
Proof.
  intros Hfresh Hfresh' Hpartner [Hder Hpl].
  destruct (addMember_members_ok newId m (members s)) as [Hpl' Hsame]; [done..|].
  split; [|done]. intros c Hc. by eapply setDuration_derived.
Qed.

Lemma updateMember_wellFormed u s :
  (∀ o, o ∈ members s → Member.id o = Member.id u →
        Member.committeeId o = Member.committeeId u) →
  (∀ p, p ∈ members s → Member.pairId u = Some (Member.id p) →
        Member.committeeId p = Member.committeeId u) →
  wellFormed s → wellFormed (updateMember_upd u s).
Proof.
  intros Hkeep Hpartner [Hder Hpl]. unfold updateMember_upd.
  destruct (list_find _ (members s)) as [[i orig]|] eqn:Hfind; [|done].
  destruct (updateMember_members_ok u orig i (members s))
    as (Hpl' & Hsame & _); [done..|].
  split; [|done]. intros c Hc. by eapply setDuration_derived.
Qed.

Lemma deleteMember_wellFormed mid s :
  wellFormed s → wellFormed (deleteMember_upd mid s).
Proof.
  intros [Hder Hpl]. unfold deleteMember_upd.
  destruct (list_find _ (members s)) as [[i md]|] eqn:Hfind; [|done].
  case_decide; [done|].
  destruct (deleteMember_members_ok mid md i (members s)) as [Hpl' Hsame];
    [done..|].
  split; [|done]. intros c Hc. by eapply setDuration_derived.
Qed.

Lemma memberDiscipline_step o e :
  memberDiscipline (Mutation o) e →
  wellFormed (state e) → wellFormed (updater o (state e)).
Proof.
  destruct o; simpl; intros Hd Hwf; try done.
  - by apply addCommittee_wellFormed.
  - by apply updateCommittee_wellFormed.
  - by apply deleteCommittee_wellFormed.
  - destruct Hd as (? & ? & ?). by apply addMember_wellFormed.
  - destruct Hd as [? ?]. by apply updateMember_wellFormed.
  - by apply deleteMember_wellFormed.
Qed.
End DurationInvariant.

(** C4 (as the code has it). In every state reached from the empty state by
    calls that respect committee boundaries (a generated id is new to the
    snapshot, a partner named by [addMember] or [updateMember] is a member of
    the same committee, and [updateMember] keeps the member's [committeeId])
    every committee carries the duration derived from the member list, after
    every call, applied or rejected, and so does every snapshot kept in the
    history. *)
Theorem durations_derived_under_discipline (e : Engine) :
  reachableWith memberDiscipline e →
  durationsDerived (state e) ∧ Forall durationsDerived (history e).
Proof.
  intros He.
  destruct (reachableWith_invariant memberDiscipline wellFormed
              wellFormed_empty memberDiscipline_step e He) as [[Hs _] Hh].
  split; [done|]. eapply Forall_impl; [done|]. by intros s [? _].
Qed.

Example endToEnd_durations :
  Committee.durationMonths <$> committees (state endToEnd) = [3]
  ∧ (λ s, Committee.durationMonths <$> committees s) <$> history endToEnd
    = [[2]; [2]; [2]; [1]; [0]; []].
Proof. split; reflexivity. Qed.

Lemma endToEnd_disciplined : reachableWith memberDiscipline endToEnd.
Proof.
  unfold endToEnd, endToEndCalls, run. cbn [fmap list_fmap foldl].
  repeat lazymatch goal with
  | |- reachableWith _ (initialEngine _) => apply reach_initial
  | |- reachableWith _ (call _ _) => apply reach_call
  end.
  - compute_done.
  - split_and!; [compute_done|compute_done|each_member].
  - split_and!; [compute_done|compute_done|each_member].
  - split_and!; [compute_done|compute_done|each_member].
  - split_and!; [compute_done|compute_done|each_member].
  - split; each_member.
Qed.

Lemma durations_derived_under_discipline_witness :
  durationsDerived (state endToEnd) ∧ Forall durationsDerived (history endToEnd).
Proof.
  apply durations_derived_under_discipline. exact endToEnd_disciplined.
Defined.

(** C4 (as stated) fails: [updateMember] accepts an edit that moves a member
    to another committee (here [m1] goes from [c1] to [c2]); it recomputes
    the duration of [c2] only, and [c1] keeps duration 1 with no member
    left. *)
Lemma durations_derived_counterexample :
  let data := CommitteeData.mk "A" 1000 "2024-01-01" true in
  let e := run (Mutation <$>
                  [AddCommittee "c1" data; AddCommittee "c2" data;
                   AddMember "m1" (MemberData.mk "c1" "Ali" "0300" FULL None);
                   UpdateMember (Member.mk "m1" "c2" "Ali" "0300" FULL None)])
               (initialEngine emptyState) in
  reachable e ∧ ¬ durationsDerived (state e).
Proof.
  split; [by eexists|]. intros Hder.
  specialize (Hder (Committee.mk "c1" "A" 1000 "2024-01-01" 1 true)).
  assert (1 = 0) as Habs; [|discriminate Habs].
  apply Hder. compute_done.
Qed.

(** * Further properties of the engine *)

(** ** Calls that match nothing *)

Section NoMatch.
Context {A : Type}.
Implicit Types (l : list A).

Lemma fmap_fixed (f : A → A) l : (∀ x, x ∈ l → f x = x) → f <$> l = l.
Proof.
  induction l as [|y l IH]; intros Hfix; [done|].
  rewrite fmap_cons, Hfix by left. f_equal. apply IH. intros x Hx. apply Hfix. by right.
Qed.

Lemma filter_all (P : A → Prop) `{!∀ x, Decision (P x)} l :
  (∀ x, x ∈ l → P x) → filter P l = l.
Proof.
  induction l as [|y l IH]; intros Hall; [done|].
  rewrite filter_cons, decide_True by (apply Hall; left).
  f_equal. apply IH. intros x Hx. apply Hall. by right.
Qed.

Lemma not_elem_fmap {B} (f : A → B) (k : B) l x :
  k ∉ f <$> l → x ∈ l → f x ≠ k.
Proof. intros Hk Hx Hf. apply Hk. rewrite <- Hf. by apply list_elem_of_fmap_2. Qed.
End NoMatch.

(** X1. The edits and deletions of payments, draws and committees that
    match no record return the snapshot they were given: [updatePayment] and
    [deletePayment] with an id of no payment, [updateDraw] and [deleteDraw]
    with an id of no draw, and [deleteCommittee] with an id that no
    committee, member, payment or draw refers to. Like every call they still
    push the snapshot onto the history. *)
Theorem unmatched_edit_keeps_snapshot (e : Engine) :
  (∀ p pid, pid ∉ Payment.id <$> payments (state e) →
            state (handleUpdatePayment p pid e) = state e)
  ∧ (∀ pid, pid ∉ Payment.id <$> payments (state e) →
            state (deletePayment pid e) = state e)
  ∧ (∀ d did, did ∉ Draw.id <$> draws (state e) →
              state (handleUpdateDraw d did e) = state e)
  ∧ (∀ did, did ∉ Draw.id <$> draws (state e) →
            state (deleteDraw did e) = state e)
  ∧ (∀ cid, cid ∉ Committee.id <$> committees (state e) →
            cid ∉ Member.committeeId <$> members (state e) →
            cid ∉ Payment.committeeId <$> payments (state e) →
            cid ∉ Draw.committeeId <$> draws (state e) →
            state (deleteCommittee cid e) = state e)
  ∧ (∀ o, history (mutate o e) = pushHistory (state e) (history e)).
Proof.
  destruct e as [[cs ms ps ds] h]. simpl. split_and!.
  - intros p pid Hno. unfold handleUpdatePayment_upd. simpl. f_equal.
    apply fmap_fixed. intros q Hq. rewrite decide_False; [done|].
    by eapply not_elem_fmap.
  - intros pid Hno. unfold deletePayment_upd. simpl. f_equal.
    apply filter_all. intros q Hq. by eapply not_elem_fmap.
  - intros d did Hno. unfold handleUpdateDraw_upd. simpl. f_equal.
    apply fmap_fixed. intros q Hq. rewrite decide_False; [done|].
    by eapply not_elem_fmap.
  - intros did Hno. unfold deleteDraw_upd. simpl. f_equal.
    apply filter_all. intros q Hq. by eapply not_elem_fmap.
  - intros cid Hc Hm Hp Hd. unfold deleteCommittee_upd. simpl.
    f_equal; apply filter_all; intros q Hq; by eapply not_elem_fmap.
  - done.
Qed.

Lemma unmatched_edit_keeps_snapshot_witness :
  state (handleUpdatePayment (PaymentData.mk "c1" "m1" "2024-01" 1000 "2024-01-09")
           "zz" guardScenario) = state guardScenario
  ∧ state (deletePayment "zz" guardScenario) = state guardScenario
  ∧ state (handleUpdateDraw (DrawData.mk "c1" "2024-01" "m1" "2024-01-15" 5000)
             "zz" guardScenario) = state guardScenario
  ∧ state (deleteDraw "zz" guardScenario) = state guardScenario
  ∧ state (deleteCommittee "zz" guardScenario) = state guardScenario.
Proof.
  destruct (unmatched_edit_keeps_snapshot guardScenario)
    as (Hup & Hdp & Hud & Hdd & Hdc & _).
  split_and!.
  - apply Hup. compute_done.
  - apply Hdp. compute_done.
  - apply Hud. compute_done.
  - apply Hdd. compute_done.
  - apply Hdc; compute_done.
Defined.

(** ** Deleting a committee *)

Section Cascade.
Implicit Types (s : AppState) (cid other : string).

Lemma filter_ne_not_elem {A} (f : A → string) cid (l : list A) :
  cid ∉ f <$> filter (λ x, f x ≠ cid) l.
Proof.
  intros (x & -> & [Hne _]%list_elem_of_filter)%list_elem_of_fmap. done.
Qed.

Lemma filter_eq_filter_ne {A} (f : A → string) cid other (l : list A) :
  other ≠ cid →
  filter (λ x, f x = other) (filter (λ x, f x ≠ cid) l)
  = filter (λ x, f x = other) l.
Proof.
  intros Hne. apply (filter_filter_out (λ x, f x = other)).
  intros x _ Hx. congruence.
Qed.

Lemma deleteCommittee_durations cid s :
  durationsDerived s → durationsDerived (deleteCommittee_upd cid s).
Proof.
  intros Hder c [Hne Hc]%list_elem_of_filter. simpl.
  rewrite calculateDuration_filter_other; [by apply Hder|].
  intros m _ Hmc. congruence.
Qed.
End Cascade.

(** X2. [deleteCommittee] cascades: afterwards no committee, member, payment
    or draw carries the deleted id; everything that belongs to another
    committee is kept, in order; the durations of the remaining committees
    stay the derived ones; and deleting the same committee again changes
    nothing. *)
Theorem deleteCommittee_cascades (cid : string) (s : AppState) :
  let s' := deleteCommittee_upd cid s in
  ((cid ∉ Committee.id <$> committees s')
   ∧ (cid ∉ Member.committeeId <$> members s')
   ∧ (cid ∉ Payment.committeeId <$> payments s')
   ∧ (cid ∉ Draw.committeeId <$> draws s'))
  ∧ (∀ other, other ≠ cid →
       filter (λ c, Committee.id c = other) (committees s')
       = filter (λ c, Committee.id c = other) (committees s)
       ∧ filter (λ m, Member.committeeId m = other) (members s')
         = filter (λ m, Member.committeeId m = other) (members s)
       ∧ filter (λ p, Payment.committeeId p = other) (payments s')
         = filter (λ p, Payment.committeeId p = other) (payments s)
       ∧ committeeDraws other (draws s') = committeeDraws other (draws s))
  ∧ (durationsDerived s → durationsDerived s')
  ∧ deleteCommittee_upd cid s' = s'.
Proof.
  intros s'. split_and!.
  - apply (filter_ne_not_elem Committee.id).
  - apply (filter_ne_not_elem Member.committeeId).
  - apply (filter_ne_not_elem Payment.committeeId).
  - apply (filter_ne_not_elem Draw.committeeId).
  - intros other Hne. split_and!.
    + by apply (filter_eq_filter_ne Committee.id).
    + by apply (filter_eq_filter_ne Member.committeeId).
    + by apply (filter_eq_filter_ne Payment.committeeId).
    + by apply (filter_eq_filter_ne Draw.committeeId).
  - apply deleteCommittee_durations.
  - unfold s', deleteCommittee_upd. simpl.
    f_equal; apply filter_all; by intros x [? _]%list_elem_of_filter.
Qed.

Lemma deleteCommittee_cascades_witness :
  let s' := deleteCommittee_upd "c1" (state endToEnd) in
  filter (λ m, Member.committeeId m = "c2") (members s')
  = filter (λ m, Member.committeeId m = "c2") (members (state endToEnd))
  ∧ durationsDerived s'.
Proof.
  destruct (deleteCommittee_cascades "c1" (state endToEnd)) as (_ & Hkeep & Hder & _).
  split.
  - by apply (Hkeep "c2").
  - apply Hder. apply (reachableWith_invariant memberDiscipline wellFormed
                         wellFormed_empty memberDiscipline_step endToEnd
                         endToEnd_disciplined).
Defined.

(** ** Undo beyond the cap *)

Section UndoDepth.
Implicit Types (e : Engine) (s st : AppState) (h pre post : list AppState).
Implicit Types (o : Op) (os : list Op).

Lemma pushHistory_take s h :
  pushHistory s h = take MAX_HISTORY_SIZE (s :: h).
Proof.
  unfold pushHistory. case_decide as Hlen; [done|].
  rewrite take_ge; [done|]. lia.
Qed.

Lemma undo_mutate_full o e :
  undo (mutate o e)
  = mkEngine (state e) (take (MAX_HISTORY_SIZE - 1) (history e)).
Proof.
  unfold undo, mutate, updateStateAndHistory. cbn [history state].
  by rewrite pushHistory_take.
Qed.

Lemma iter_undo_pop st pre x post :
  Nat.iter (S (length pre)) undo (mkEngine st (pre ++ x :: post))
  = mkEngine x post.
Proof.
  revert st. induction pre as [|y pre IH]; intros st; [done|].
  cbn [length]. rewrite Nat.iter_succ_r. apply IH.
Qed.

(** The history after a non-empty run of mutations: the snapshots before
    the later mutations, then the snapshot the run started from, then the
    old history, cut to the cap. *)
Lemma history_run_mutations o0 os e :
  ∃ pre, length pre = length os
         ∧ history (run (Mutation <$> o0 :: os) e)
           = take MAX_HISTORY_SIZE (pre ++ state e :: history e).
Proof.
  induction os as [|o os (pre & Hlen & IH)] using rev_ind.
  - exists []. split; [done|]. simpl. apply pushHistory_take.
  - exists (state (run (Mutation <$> o0 :: os) e) :: pre). split.
    + rewrite length_app. simpl. lia.
    + rewrite app_comm_cons, run_mutations_snoc. cbn [mutate updateStateAndHistory history].
      rewrite pushHistory_take, IH.
      unfold MAX_HISTORY_SIZE. simpl. f_equal.
      rewrite take_take. f_equal.
Qed.

Lemma run_app cs1 cs2 e : run (cs1 ++ cs2) e = run cs2 (run cs1 e).
Proof. unfold run. apply foldl_app. Qed.

Lemma undo_last_mutations os1 os2 e :
  length os2 = MAX_HISTORY_SIZE →
  Nat.iter MAX_HISTORY_SIZE undo (run (Mutation <$> os1 ++ os2) e)
  = mkEngine (state (run (Mutation <$> os1) e)) [].
Proof.
  intros Hlen. rewrite fmap_app, run_app.
  set (e1 := run (Mutation <$> os1) e).
  destruct os2 as [|o0 os2]; [discriminate Hlen|].
  destruct (history_run_mutations o0 os2 e1) as (pre & Hpre & Hh).
  simpl in Hlen.
  assert (history (run (Mutation <$> o0 :: os2) e1) = pre ++ [state e1]) as Hh'.
  { rewrite Hh, take_app_ge by lia.
    replace (MAX_HISTORY_SIZE - length pre) with 1 by lia. done. }
  destruct (run (Mutation <$> o0 :: os2) e1) as [st hs]. simpl in Hh'. subst hs.
  replace MAX_HISTORY_SIZE with (S (length pre)) by lia.
  apply iter_undo_pop.
Qed.
End UndoDepth.

(** X3. An [undo] right after a mutation always brings the snapshot back,
    also when the history was full (the history it leaves is the old one
    without the entry that fell off). After 20 or more mutations, 20 undos
    lead to the snapshot from before the last 20 mutations and leave the
    history empty: what happened earlier cannot be undone. *)
Theorem undo_reaches_last_twenty :
  (∀ o e, undo (mutate o e)
          = mkEngine (state e) (take (MAX_HISTORY_SIZE - 1) (history e)))
  ∧ (∀ os1 os2 e,
        length os2 = MAX_HISTORY_SIZE →
        let e' := Nat.iter MAX_HISTORY_SIZE undo
                    (run (Mutation <$> os1 ++ os2) e) in
        state e' = state (run (Mutation <$> os1) e)
        ∧ history e' = []
        ∧ canUndo e' = false
        ∧ undo e' = e').
Proof.
  split.
  - apply undo_mutate_full.
  - intros os1 os2 e Hlen e'. unfold e'.
    by rewrite undo_last_mutations.
Qed.

Lemma undo_reaches_last_twenty_witness :
  let os1 := [AddCommittee "c1" (CommitteeData.mk "A" 1000 "2024-01-01" true)] in
  let os2 := replicate 20 (AddMember "m" (MemberData.mk "c1" "Ali" "0300" FULL None)) in
  let e' := Nat.iter MAX_HISTORY_SIZE undo
              (run (Mutation <$> os1 ++ os2) (initialEngine emptyState)) in
  state e' = state (run (Mutation <$> os1) (initialEngine emptyState))
  ∧ history e' = [] ∧ canUndo e' = false ∧ undo e' = e'.
Proof.
  intros os1 os2.
  apply (proj2 undo_reaches_last_twenty os1 os2 (initialEngine emptyState)).
  reflexivity.
Defined.

(** ** Shape of the derived duration *)

Section DurationShape.
Implicit Types (m n : Member.t) (ms hs : list Member.t) (k cid : string).

Lemma elem_of_completePairs hs k :
  k ∈ completePairs hs ↔ length (groupOf k hs) = 2.
Proof.
  unfold completePairs. rewrite elem_of_filter, elem_of_list_to_set.
  split; [by intros [? _]|]. intros Hlen. split; [done|].
  apply list_elem_of_omap. unfold groupOf in Hlen.
  destruct (filter _ hs) as [|m g] eqn:Hg; [done|]. exists m.
  apply and_comm, (list_elem_of_filter (λ m, pairKey m = Some k) hs).
  rewrite Hg. left.
Qed.

Lemma completePairs_same hs hs' :
  (∀ k, length (groupOf k hs') = 2 ↔ length (groupOf k hs) = 2) →
  completePairs hs' = completePairs hs.
Proof. intros Hsame. apply set_eq. intros k. by rewrite !elem_of_completePairs. Qed.

Lemma completePairs_gain hs hs' k0 :
  (∀ k, k ≠ k0 → length (groupOf k hs') = 2 ↔ length (groupOf k hs) = 2) →
  length (groupOf k0 hs') = 2 →
  length (groupOf k0 hs) ≠ 2 →
  size (completePairs hs') = S (size (completePairs hs)).
Proof.
  intros Hsame Hnew Hold.
  assert (completePairs hs' = {[k0]} ∪ completePairs hs) as ->.
  { apply set_eq. intros k.
    rewrite elem_of_union, elem_of_singleton, !elem_of_completePairs.
    destruct (decide (k = k0)) as [->|Hne]; [tauto|]. rewrite Hsame by done. tauto. }
  rewrite size_union, size_singleton; [done|].
  apply disjoint_singleton_l. by rewrite elem_of_completePairs.
Qed.

Lemma groupOf_Permutation k hs hs' :
  hs ≡ₚ hs' → length (groupOf k hs) = length (groupOf k hs').
Proof. intros Hp. unfold groupOf. by rewrite Hp. Qed.

Lemma calculateDuration_Permutation cid ms ms' :
  ms ≡ₚ ms' → calculateDuration cid ms = calculateDuration cid ms'.
Proof.
  intros Hp. rewrite !calculateDuration_derive. unfold deriveDuration. f_equal.
  - unfold fullMembersOf. by rewrite Hp.
  - f_equal. apply completePairs_same. intros k.
    rewrite (groupOf_Permutation k (halfMembersOf cid ms') (halfMembersOf cid ms));
      [done|]. unfold halfMembersOf. by rewrite Hp.
Qed.

(** Groups under distinct pair ids do not overlap. *)
Lemma groups_disjoint_sum (ks : list string) hs :
  NoDup ks →
  sum_list_with (λ k, length (groupOf k hs)) ks ≤ length hs.
Proof.
  revert hs. induction ks as [|k ks IH]; intros hs Hnd; simpl; [lia|].
  apply NoDup_cons in Hnd as [Hk Hnd].
  pose proof (filter_app_complement (λ m, pairKey m = Some k) hs) as Hsplit.
  apply Permutation_length in Hsplit. rewrite length_app in Hsplit.
  specialize (IH (filter (λ m, ¬ pairKey m = Some k) hs) Hnd).
  assert (sum_list_with (λ k', length (groupOf k' hs)) ks
          = sum_list_with
              (λ k', length (groupOf k' (filter (λ m, ¬ pairKey m = Some k) hs)))
              ks) as Heq.
  { clear IH Hnd Hsplit. induction ks as [|k' ks IH']; [done|].
    simpl. rewrite IH' by (intros Hin; apply Hk; by right). f_equal.
    unfold groupOf. rewrite filter_filter_out; [done|].
    intros m _ Hm Hm'. apply Hk. assert (k = k') as -> by congruence. left. }
  unfold groupOf at 1. lia.
Qed.

Lemma pairs_within_half hs : 2 * size (completePairs hs) ≤ length hs.
Proof.
  etrans; [|apply (groups_disjoint_sum (elements (completePairs hs)) hs),
             NoDup_elements].
  unfold size, set_size. simpl.
  assert (∀ k, k ∈ elements (completePairs hs) → length (groupOf k hs) = 2)
    as Hall.
  { intros k Hk. by apply elem_of_completePairs, elem_of_elements. }
  induction (elements (completePairs hs)) as [|k ks IH]; simpl; [lia|].
  rewrite (Hall k) by left.
  assert (2 * length ks ≤ sum_list_with (λ k, length (groupOf k hs)) ks).
  { apply IH. intros k' Hk'. apply Hall. by right. }
  lia.
Qed.
End DurationShape.

(** X4. The derived duration does not depend on the order of the member
    list: two lists with the same members give every committee the same
    duration. *)
Theorem calculateDuration_order_independent
    (cid : string) (ms ms' : list Member.t) :
  ms ≡ₚ ms' → calculateDuration cid ms = calculateDuration cid ms'.
Proof. apply calculateDuration_Permutation. Qed.

Lemma calculateDuration_order_independent_witness :
  let a := Member.mk "a" "c1" "Asma" "0300" HALF (Some "a") in
  let b := Member.mk "b" "c1" "Bano" "0301" HALF (Some "a") in
  let f := Member.mk "f" "c1" "Fida" "0302" FULL None in
  calculateDuration "c1" [a; f; b] = calculateDuration "c1" [b; a; f].
Proof.
  intros a b f. apply calculateDuration_order_independent.
  apply (perm_trans (l' := [a; b; f])); [apply perm_skip|]; apply perm_swap.
Defined.

(** X5. The derived duration lies between the number of FULL members of the
    committee and that number plus half the number of its HALF members: a
    complete pair takes two HALF members, and no member counts for two
    pairs. *)
Theorem calculateDuration_bounds (cid : string) (ms : list Member.t) :
  length (fullMembersOf cid ms) ≤ calculateDuration cid ms
  ∧ 2 * (calculateDuration cid ms - length (fullMembersOf cid ms))
    ≤ length (halfMembersOf cid ms)
  ∧ calculateDuration cid ms
    ≤ length (filter (λ m, Member.committeeId m = cid) ms).
Proof.
  rewrite calculateDuration_derive. unfold deriveDuration.
  pose proof (pairs_within_half (halfMembersOf cid ms)) as Hpairs.
  assert (length (fullMembersOf cid ms) + length (halfMembersOf cid ms)
          = length (filter (λ m, Member.committeeId m = cid) ms)) as <-.
  { unfold fullMembersOf, halfMembersOf.
    generalize (filter (λ m, Member.committeeId m = cid) ms). intros l.
    induction l as [|m l IH]; [done|]. rewrite !filter_cons.
    destruct (Member.shareType m); repeat case_decide; simpl; try done; lia. }
  lia.
Qed.

(** ** What an added member does to the duration *)

Section AddEffect.
Implicit Types (m n p : Member.t) (ms : list Member.t) (k cid : string).

Lemma filter_insert_count {A} (Q : A → Prop) `{!∀ x, Decision (Q x)}
    (l : list A) i x x' :
  l !! i = Some x →
  length (filter Q (<[i:=x']> l)) + (if decide (Q x) then 1 else 0)
  = length (filter Q l) + (if decide (Q x') then 1 else 0).
Proof.
  revert i. induction l as [|y l IH]; intros [|i] Hi; try done; simpl in *.
  - injection Hi as ->. rewrite !filter_cons.
    destruct (decide (Q x)), (decide (Q x')); simpl; lia.
  - rewrite !filter_cons. specialize (IH i Hi).
    destruct (decide (Q y)); simpl; lia.
Qed.

Lemma groupOf_carriers cid k ms :
  groupOf k (halfMembersOf cid ms) = carriers cid k ms.
Proof.
  unfold groupOf, carriers. rewrite halfMembersOf_alt. apply list_filter_filter.
Qed.

Lemma carriers_app cid k ms n :
  length (carriers cid k (ms ++ [n]))
  = length (carriers cid k ms)
    + (if decide (pairKey n = Some k ∧ Member.shareType n = HALF
                  ∧ Member.committeeId n = cid) then 1 else 0).
Proof.
  unfold carriers. rewrite filter_app, length_app, filter_cons.
  by case_decide.
Qed.

Lemma fullMembersOf_app_half cid ms n :
  Member.shareType n = HALF →
  fullMembersOf cid (ms ++ [n]) = fullMembersOf cid ms.
Proof.
  intros Hn. rewrite !fullMembersOf_alt, filter_app, filter_cons.
  rewrite decide_False; [by rewrite filter_nil, app_nil_r|].
  intros [? _]. congruence.
Qed.

Lemma addMember_full_duration newId (data : MemberData.t) ms :
  MemberData.shareType data = FULL →
  calculateDuration (MemberData.committeeId data) (addMember_members newId data ms)
  = S (calculateDuration (MemberData.committeeId data) ms).
Proof.
  intros Hfull. unfold addMember_members. rewrite Hfull.
  rewrite !calculateDuration_derive. unfold deriveDuration.
  set (n := Member.mk _ _ _ _ _ _).
  assert (halfMembersOf (MemberData.committeeId data) (ms ++ [n])
          = halfMembersOf (MemberData.committeeId data) ms) as ->.
  { rewrite !halfMembersOf_alt, filter_app, filter_cons.
    rewrite decide_False; [by rewrite filter_nil, app_nil_r|].
    intros [? _]. by subst n. }
  rewrite !fullMembersOf_alt, filter_app, length_app, filter_cons.
  rewrite decide_True by done. simpl. lia.
Qed.

Lemma addMember_lone_duration newId (data : MemberData.t) ms :
  MemberData.shareType data = HALF →
  (∀ pid, truthy (MemberData.pairId data) = Some pid →
          pid ∉ Member.id <$> ms) →
  carriers (MemberData.committeeId data) newId ms = [] →
  calculateDuration (MemberData.committeeId data) (addMember_members newId data ms)
  = calculateDuration (MemberData.committeeId data) ms.
Proof.
  intros Hhalf Hnone Hfresh. unfold addMember_members. rewrite Hhalf.
  set (n := Member.mk _ _ _ _ _ _).
  assert (addMember_members newId data ms
          = ms ++ [Member.set_pairId (Some newId) n]) as Hlist.
  { unfold addMember_members. rewrite Hhalf. fold n.
    destruct (truthy (MemberData.pairId data)) as [pid|] eqn:Ht; [|done].
    rewrite (find_None_not_elem Member.id); [done|]. by apply Hnone. }
  unfold addMember_members in Hlist. rewrite Hhalf in Hlist. fold n in Hlist.
  rewrite Hlist. clear Hlist.
  rewrite !calculateDuration_derive. unfold deriveDuration.
  rewrite fullMembersOf_app_half by done. f_equal. f_equal.
  apply completePairs_same. intros k. rewrite !groupOf_carriers, carriers_app.
  case_decide as Hk; [|by rewrite Nat.add_0_r].
  destruct Hk as (Hk & _ & _). unfold pairKey in Hk.
  apply truthy_Some in Hk as [[= ->] _]. rewrite Hfresh. simpl. lia.
Qed.

Lemma addMember_pair_duration newId (data : MemberData.t) ms pid i p :
  MemberData.shareType data = HALF →
  truthy (MemberData.pairId data) = Some pid →
  list_find (λ m, Member.id m = pid) ms = Some (i, p) →
  Member.shareType p = HALF →
  Member.committeeId p = MemberData.committeeId data →
  Member.pairId p = Some pid →
  length (carriers (MemberData.committeeId data) pid ms) = 1 →
  carriers (MemberData.committeeId data) newId ms = [] →
  newId ≠ "" → newId ≠ pid →
  calculateDuration (MemberData.committeeId data) (addMember_members newId data ms)
  = S (calculateDuration (MemberData.committeeId data) ms).
Proof.
  intros Hhalf Ht Hfind Hph Hpc Hpp Hone Hfresh Hne Hnp.
  set (cid := MemberData.committeeId data) in *.
  unfold addMember_members. rewrite Hhalf, Ht, Hfind.
  apply truthy_Some in Ht as [_ Hpid].
  apply list_find_Some in Hfind as (Hi & Hid & _).
  set (common := minId newId pid).
  assert (common ≠ "") as Hcommon.
  { unfold common. by destruct (minId_cases newId pid) as [-> | ->]. }
  set (n' := Member.set_pairId (Some common) (Member.mk newId _ _ _ _ _)).
  set (p' := Member.set_pairId (Some common) p).
  assert (∀ x, Member.pairId x = Some common → pairKey x = Some common) as Hkey.
  { intros x Hx. unfold pairKey, truthy. rewrite Hx. by rewrite decide_False. }
  assert (pairKey p = Some pid) as Hpk.
  { unfold pairKey, truthy. rewrite Hpp. by rewrite decide_False. }
  assert (∀ k, length (carriers cid k (<[i:=p']> ms ++ [n']))
               + (if decide (k = pid) then 1 else 0)
               = length (carriers cid k ms)
                 + (if decide (k = common) then 2 else 0)) as Hcount.
  { intros k. rewrite carriers_app. unfold carriers at 1.
    pose proof (filter_insert_count
                  (λ m, pairKey m = Some k ∧ Member.shareType m = HALF
                        ∧ Member.committeeId m = cid) ms i p p' Hi) as Hins.
    fold (carriers cid k ms) in Hins. simpl in Hins.
    pose proof (Hkey n' eq_refl) as Hn'. pose proof (Hkey p' eq_refl) as Hp'.
    assert (pairKey n' = Some k ∧ Member.shareType n' = HALF
            ∧ Member.committeeId n' = cid ↔ k = common) as Hn''.
    { split; [intros [? _]; congruence|by intros ->]. }
    assert (pairKey p' = Some k ∧ Member.shareType p' = HALF
            ∧ Member.committeeId p' = cid ↔ k = common) as Hp''.
    { split; [intros [? _]; congruence|by intros ->]. }
    assert (pairKey p = Some k ∧ Member.shareType p = HALF
            ∧ Member.committeeId p = cid ↔ k = pid) as Hp0.
    { split; [intros [? _]; congruence|by intros ->]. }
    repeat case_decide; try lia; tauto. }
  rewrite !calculateDuration_derive. unfold deriveDuration.
  rewrite fullMembersOf_app_half by done.
  assert (fullMembersOf cid (<[i:=p']> ms) = fullMembersOf cid ms) as ->.
  { rewrite !fullMembersOf_alt. apply (filter_insert_out _ _ _ p); [done|..];
      intros [? _]; simpl in *; congruence. }
  rewrite (completePairs_gain (halfMembersOf cid ms) _ common).
  - lia.
  - intros k Hk. rewrite !groupOf_carriers. specialize (Hcount k).
    rewrite (decide_False (P := k = common)) in Hcount by done.
    case_decide as Hkp; [subst k|]; lia.
  - rewrite groupOf_carriers. specialize (Hcount common).
    rewrite (decide_True (P := common = common)) in Hcount by done.
    case_decide as Hc.
    + rewrite Hc in *. lia.
    + assert (common = newId) as Heq.
      { unfold common in *. by destruct (minId_cases newId pid). }
      rewrite Heq in *. rewrite Hfresh in Hcount. simpl in Hcount. lia.
  - rewrite groupOf_carriers.
    destruct (minId_cases newId pid) as [Hc|Hc]; fold common in Hc; rewrite Hc.
    + by rewrite Hfresh.
    + lia.
Qed.
End AddEffect.

(** X6. What [addMember] does to the duration of the member's committee,
    which it stores on every committee with that id: a FULL member raises it
    by one; a HALF member without a partner (none named, or the named id not
    found) leaves it as it was; a HALF member paired with an unpaired HALF
    member of the committee raises it by one. *)
Theorem addMember_duration_effect
    (newId : string) (data : MemberData.t) (s : AppState) :
  let cid := MemberData.committeeId data in
  let s' := addMember_upd newId data s in
  (∀ c, c ∈ committees s' → Committee.id c = cid →
        Committee.durationMonths c = calculateDuration cid (members s'))
  ∧ (MemberData.shareType data = FULL →
     calculateDuration cid (members s') = S (calculateDuration cid (members s)))
  ∧ (MemberData.shareType data = HALF →
     (∀ pid, truthy (MemberData.pairId data) = Some pid →
             pid ∉ Member.id <$> members s) →
     carriers cid newId (members s) = [] →
     calculateDuration cid (members s') = calculateDuration cid (members s))
  ∧ (∀ pid i p,
       MemberData.shareType data = HALF →
       truthy (MemberData.pairId data) = Some pid →
       list_find (λ m, Member.id m = pid) (members s) = Some (i, p) →
       Member.shareType p = HALF →
       Member.committeeId p = cid →
       Member.pairId p = Some pid →
       length (carriers cid pid (members s)) = 1 →
       carriers cid newId (members s) = [] →
       newId ≠ "" → newId ≠ pid →
       calculateDuration cid (members s') = S (calculateDuration cid (members s))).
Proof.
  intros cid s'. split_and!.
  - intros c (c0 & -> & Hc0)%list_elem_of_fmap Hid.
    case_decide; [done|]. simpl in Hid. done.
  - apply addMember_full_duration.
  - apply addMember_lone_duration.
  - intros pid i p. by apply addMember_pair_duration.
Qed.

Lemma addMember_duration_effect_witness :
  let s := state pairedScenario in
  calculateDuration "c1"
    (members (addMember_upd "f" (dialogMemberData "c1" "Fida" "0302" FULL "") s))
  = 2
  ∧ calculateDuration "c1"
      (members (addMember_upd "h" (dialogMemberData "c1" "Hina" "0303" HALF "") s))
    = 1
  ∧ calculateDuration "c1"
      (members (addMember_upd "h2" (dialogMemberData "c1" "Huma" "0304" HALF "h")
         (addMember_upd "h" (dialogMemberData "c1" "Hina" "0303" HALF "") s)))
    = 2.
Proof.
  intros s. split_and!.
  - destruct (addMember_duration_effect "f"
                (dialogMemberData "c1" "Fida" "0302" FULL "") s) as (_ & Hfull & _).
    exact (eq_trans (Hfull eq_refl) eq_refl).
  - destruct (addMember_duration_effect "h"
                (dialogMemberData "c1" "Hina" "0303" HALF "") s) as (_ & _ & Hlone & _).
    refine (eq_trans (Hlone eq_refl _ eq_refl) eq_refl). discriminate.
  - destruct (addMember_duration_effect "h2"
                (dialogMemberData "c1" "Huma" "0304" HALF "h")
                (addMember_upd "h" (dialogMemberData "c1" "Hina" "0303" HALF "") s))
      as (_ & _ & _ & Hpair).
    refine (eq_trans
              (Hpair "h" 2 (Member.mk "h" "c1" "Hina" "0303" HALF (Some "h"))
                 eq_refl eq_refl eq_refl eq_refl eq_refl eq_refl eq_refl eq_refl
                 _ _) eq_refl); discriminate.
Defined.

(** ** The member dialog keeps to committee boundaries *)

Section MemberDialog.
Implicit Types (e : Engine) (ms : list Member.t) (p em : Member.t).

Lemma partnerOffered_local ms committee editingMember partnerId p :
  pairsLocal ms →
  "" ∉ Member.id <$> ms →
  (∀ em, editingMember = Some em →
         em ∈ ms ∧ Member.committeeId em = Committee.id committee) →
  partnerOffered ms committee editingMember partnerId →
  p ∈ ms → partnerId = Member.id p →
  Member.committeeId p = Committee.id committee.
Proof.
  intros Hpl Hnoempty Hem Hoff Hp ->.
  assert (Member.id p ≠ "") as Hne.
  { intros Heq. apply Hnoempty. rewrite <- Heq. by apply list_elem_of_fmap_2. }
  destruct Hoff as [Hoff|[Hoff|Hoff]]; [done| |].
  - unfold initialPartnerId in Hoff.
    destruct editingMember as [em|]; [|done].
    destruct (Hem em eq_refl) as [Hemin Hemc].
    case_decide as Hcase; [|done]. destruct Hcase as [Hhalf _].
    destruct (Member.pairId em) as [q|] eqn:Hq; [|done]. simpl in Hoff. subst q.
    rewrite <- Hemc.
    apply (pl_refers ms Hpl em (Member.id p)); [done..|]. by apply idc_self.
  - apply list_elem_of_fmap in Hoff as (m0 & Hid & Hm0).
    apply list_elem_of_filter in Hm0 as [(Hc & _) Hm0].
    apply list_elem_of_filter in Hm0 as [_ Hm0].
    assert (p = m0) as -> by by apply (NoDup_fmap_eq Member.id ms); [apply Hpl|..].
    done.
Qed.

Lemma memberDialogSubmit_disciplined e committee editingMember
    name phone shareType partnerId newId o :
  pairsLocal (members (state e)) →
  "" ∉ Member.id <$> members (state e) →
  (∀ em, editingMember = Some em →
         em ∈ members (state e)
         ∧ Member.committeeId em = Committee.id committee) →
  partnerOffered (members (state e)) committee editingMember partnerId →
  (editingMember = None →
   (newId ∉ Member.id <$> members (state e))
   ∧ (Some newId ∉ Member.pairId <$> members (state e))) →
  memberDialogSubmit committee editingMember name phone shareType partnerId
    newId = Some o →
  memberDiscipline (Mutation o) e.
Proof.
  intros Hpl Hnoempty Hem Hoff Hfresh. unfold memberDialogSubmit.
  case_decide; [done|].
  assert (∀ p, p ∈ members (state e) →
               MemberData.pairId
                 (dialogMemberData (Committee.id committee) name phone
                    shareType partnerId) = Some (Member.id p) →
               Member.committeeId p = Committee.id committee) as Hpartner.
  { intros p Hp Hpair. unfold dialogMemberData in Hpair. simpl in Hpair.
    destruct shareType; [done|]. injection Hpair as Hpair.
    by eapply partnerOffered_local. }
  destruct editingMember as [em|]; intros [= <-]; simpl.
  - destruct (Hem em eq_refl) as [Hemin Hemc]. split; [|done].
    intros o' Ho' Hid.
    assert (o' = em) as ->
      by by apply (NoDup_fmap_eq Member.id (members (state e))); [apply Hpl|..].
    done.
  - destruct (Hfresh eq_refl) as [? ?]. by split_and!.
Qed.
End MemberDialog.

(** X7. What the member dialog sends keeps to committee boundaries. In a
    snapshot where durations are derived, pair ids are local and no member
    has the empty id, a submission with an empty name or phone sends
    nothing, and any other submission (partner field empty, as preset, or
    chosen from the list of unpaired members; a new id for a new member)
    is a call after which every committee still carries the duration
    derived from the member list. *)
Theorem memberDialog_keeps_durations (e : Engine) (committee : Committee.t)
    (editingMember : option Member.t) (name phone : string)
    (shareType : ShareType) (partnerId newId : string) :
  wellFormed (state e) →
  "" ∉ Member.id <$> members (state e) →
  (∀ em, editingMember = Some em →
         em ∈ members (state e)
         ∧ Member.committeeId em = Committee.id committee) →
  partnerOffered (members (state e)) committee editingMember partnerId →
  (editingMember = None →
   (newId ∉ Member.id <$> members (state e))
   ∧ (Some newId ∉ Member.pairId <$> members (state e))) →
  match memberDialogSubmit committee editingMember name phone shareType
          partnerId newId with
  | None => name = "" ∨ phone = ""
  | Some o =>
      name ≠ "" ∧ phone ≠ ""
      ∧ memberDiscipline (Mutation o) e
      ∧ durationsDerived (state (mutate o e))
  end.
Proof.
  intros Hwf Hnoempty Hem Hoff Hfresh.
  destruct (memberDialogSubmit _ _ _ _ _ _ _) as [o|] eqn:Hsub.
  - assert (memberDiscipline (Mutation o) e) as Hd.
    { eapply memberDialogSubmit_disciplined; [apply Hwf|done..]. }
    unfold memberDialogSubmit in Hsub. case_decide as Hname; [done|].
    split_and!; [tauto|tauto|done|].
    by apply (memberDiscipline_step o e Hd).
  - unfold memberDialogSubmit in Hsub. case_decide; [done|].
    by destruct editingMember.
Qed.

Lemma endToEnd_wellFormed : wellFormed (state endToEnd).
Proof.
  apply (reachableWith_invariant memberDiscipline wellFormed
           wellFormed_empty memberDiscipline_step endToEnd endToEnd_disciplined).
Qed.

Lemma memberDialog_keeps_durations_witness :
  let committee := Committee.mk "c1" "A" 1000 "2024-01-01" 3 true in
  durationsDerived
    (state (mutate (AddMember "h3" (dialogMemberData "c1" "Hira" "0305" HALF ""))
              endToEnd)).
Proof.
  intros committee.
  pose proof (memberDialog_keeps_durations endToEnd committee None
                "Hira" "0305" HALF "" "h3" endToEnd_wellFormed) as Hdialog.
  simpl in Hdialog. apply Hdialog.
  - compute_done.
  - by intros em.
  - by left.
  - intros _. split; compute_done.
Defined.

(** ** No id wins twice through the draw dialog *)

Section DrawDialog.
Implicit Types (e : Engine) (s : AppState) (ds : list Draw.t) (q ed : Draw.t).

Lemma winnersOf_fmap_keep (f : Draw.t → Draw.t) cid ds :
  (∀ q, q ∈ ds → Draw.committeeId (f q) = Draw.committeeId q
                 ∧ Draw.winnerIdOrPairId (f q) = Draw.winnerIdOrPairId q) →
  winnersOf cid (f <$> ds) = winnersOf cid ds.
Proof.
  unfold winnersOf, committeeDraws.
  induction ds as [|q ds IH]; intros Hkeep; [done|].
  destruct (Hkeep q) as [Hc Hw]; [left|].
  rewrite fmap_cons, !filter_cons, Hc.
  assert (Draw.winnerIdOrPairId <$> filter (λ d, Draw.committeeId d = cid) (f <$> ds)
          = Draw.winnerIdOrPairId <$> filter (λ d, Draw.committeeId d = cid) ds)
    as IH' by (apply IH; intros q' Hq'; apply Hkeep; by right).
  case_decide; [|done]. by rewrite !fmap_cons, Hw, IH'.
Qed.

Lemma filter_filter_sublist {A} (P Q : A → Prop)
    `{!∀ x, Decision (P x), !∀ x, Decision (Q x)} (l : list A) :
  filter P (filter Q l) `sublist_of` filter P l.
Proof.
  induction l as [|x l IH]; [done|]. rewrite !filter_cons.
  destruct (decide (Q x)), (decide (P x)); rewrite ?filter_cons, ?decide_True,
    ?decide_False by done; try done; by constructor.
Qed.

Lemma winnersOf_committeeDraws cid ds :
  winnersOf cid (committeeDraws cid ds) = winnersOf cid ds.
Proof.
  unfold winnersOf, committeeDraws. f_equal.
  rewrite list_filter_filter. apply list_filter_iff. tauto.
Qed.

Lemma updater_draws o s :
  draws (updater o s) = draws s
  ∨ (∃ newId d, o = AddDraw newId d)
  ∨ (∃ d drawId, o = UpdateDraw d drawId)
  ∨ (∃ Q (HQ : ∀ x, Decision (Q x)),
        draws (updater o s) = filter Q (draws s)).
Proof.
  destruct o; simpl; eauto 6.
  - left. unfold updateCommittee_upd.
    destruct (list_find _ _) as [[??]|]; [|done]. by destruct (_ && _).
  - left. unfold updateMember_upd. by destruct (list_find _ _) as [[??]|].
  - left. unfold deleteMember_upd.
    destruct (list_find _ _) as [[??]|]; [|done]. by case_decide.
Qed.

Lemma drawDiscipline_step o e :
  drawDiscipline (Mutation o) e →
  winnersUnique (state e) → winnersUnique (updater o (state e)).
Proof.
  intros Hd Hu cid.
  destruct (updater_draws o (state e))
    as [Heq|[(newId & d & ->)|[(d & drawId & ->)|(Q & HQ & Heq)]]].
  - rewrite Heq. apply Hu.
  - simpl in *. unfold winnersOf, committeeDraws in *.
    rewrite filter_app, fmap_app, filter_cons. simpl.
    case_decide as Hc; [|rewrite filter_nil, app_nil_r; apply Hu].
    subst cid. simpl. apply NoDup_app. split_and!; [apply Hu| |apply NoDup_singleton].
    intros x Hx ->%list_elem_of_singleton. done.
  - simpl in *. unfold handleUpdateDraw_upd. simpl.
    rewrite winnersOf_fmap_keep; [apply Hu|].
    intros q Hq. case_decide as Hid; [|done]. simpl.
    destruct (Hd q Hq Hid) as [-> ->]. done.
  - rewrite Heq. unfold winnersOf, committeeDraws.
    eapply sublist_NoDup; [apply (Hu cid)|].
    apply fmap_sublist, filter_filter_sublist.
Qed.

Lemma drawDialogSubmit_new_disciplined e committee month winnerId payoutDate
    newId o :
  winnerOffered (state e) committee winnerId →
  drawDialogSubmit committee month None winnerId payoutDate newId = Some o →
  drawDiscipline (Mutation o) e.
Proof.
  intros Hoff. unfold drawDialogSubmit. case_decide as Hw; [done|].
  simpl. intros [= <-]. simpl.
  destruct Hoff as [?|Hoff]; [done|].
  apply eligibleWinners_new_ids in Hoff as [_ Hno].
  by rewrite winnersOf_committeeDraws in Hno.
Qed.

Lemma drawDialogSubmit_edit_disciplined e committee month ed payoutDate newId o :
  ed ∈ draws (state e) →
  NoDup (Draw.id <$> draws (state e)) →
  Draw.committeeId ed = Committee.id committee →
  Draw.id ed ≠ "" →
  drawDialogSubmit committee month (Some ed) (Draw.winnerIdOrPairId ed)
    payoutDate newId = Some o →
  drawDiscipline (Mutation o) e.
Proof.
  intros Hed Hnd Hc Hid. unfold drawDialogSubmit. case_decide as Hw; [done|].
  simpl. rewrite decide_False by done. intros [= <-]. simpl.
  intros q Hq Hqid.
  assert (q = ed) as -> by by apply (NoDup_fmap_eq Draw.id (draws (state e))).
  done.
Qed.
End DrawDialog.

(** X8. Winners stay distinct through the draw dialog. In every state
    reached from the empty state by calls in which a new draw names an id
    that has not won in its committee and an edited draw keeps its committee
    and winner, no id has won twice in a committee, whatever else happens in
    between. The draw dialog sends nothing without a winner, and what it
    sends keeps to this discipline: a new draw whose winner is taken from
    the eligible list, and an edit of an existing draw (its winner field is
    locked). *)
Theorem winners_unique_through_dialog :
  (∀ e, reachableWith drawDiscipline e → winnersUnique (state e))
  ∧ (∀ committee month editingDraw payoutDate newId,
        drawDialogSubmit committee month editingDraw "" payoutDate newId = None)
  ∧ (∀ e committee month winnerId payoutDate newId o,
        winnerOffered (state e) committee winnerId →
        drawDialogSubmit committee month None winnerId payoutDate newId = Some o →
        drawDiscipline (Mutation o) e)
  ∧ (∀ e committee month ed payoutDate newId o,
        ed ∈ draws (state e) →
        NoDup (Draw.id <$> draws (state e)) →
        Draw.committeeId ed = Committee.id committee →
        Draw.id ed ≠ "" →
        drawDialogSubmit committee month (Some ed) (Draw.winnerIdOrPairId ed)
          payoutDate newId = Some o →
        drawDiscipline (Mutation o) e).
Proof.
  split_and!.
  - intros e He.
    apply (reachableWith_invariant drawDiscipline winnersUnique); [|..|done].
    + intros cid. constructor.
    + apply drawDiscipline_step.
  - done.
  - apply drawDialogSubmit_new_disciplined.
  - apply drawDialogSubmit_edit_disciplined.
Qed.

Lemma winners_unique_through_dialog_witness :
  let committee := Committee.mk "c1" "A" 1000 "2024-01-01" 5 true in
  let e1 := call (Mutation (AddDraw "d1"
                    (DrawData.mk "c1" "2024-01" "m1" "2024-01-15" 5000)))
              (initialEngine emptyState) in
  winnersUnique (state e1)
  ∧ drawDiscipline
      (Mutation (AddDraw "d6" (DrawData.mk "c1" "2024-06" "h1" "2024-06-15" 5000)))
      guardScenario
  ∧ drawDiscipline
      (Mutation (UpdateDraw (DrawData.mk "c1" "2024-01" "m1" "2024-02-01" 5000) "d1"))
      guardScenario.
Proof.
  intros committee e1.
  destruct winners_unique_through_dialog as (Hinv & _ & Hnew & Hedit).
  split_and!.
  - apply Hinv. repeat constructor. compute_done.
  - apply (Hnew guardScenario committee "2024-06" "h1" "2024-06-15" "d6");
      [right; compute_done|reflexivity].
  - apply (Hedit guardScenario committee "2024-01"
             (Draw.mk "d1" "c1" "2024-01" "m1" "2024-01-15" 5000)
             "2024-02-01" "zz");
      [compute_done|compute_done|reflexivity|discriminate|reflexivity].
Defined.

(** ** The rows of the grid and of the dialogs *)

Lemma list_find_filter_insert {A} (P Q : A → Prop)
  `{∀ x, Decision (P x)} `{∀ x, Decision (Q x)} (l : list A) i g g' :
  list_find Q l = Some (i, g) → P g → P g' →
  ∃ j, list_find Q (filter P l) = Some (j, g)
       ∧ filter P (<[i := g']> l) = <[j := g']> (filter P l).
Proof.
  revert i. induction l as [|x l IH]; intros i Hfind Pg Pg'; [done|].
  cbn [list_find] in Hfind. destruct (decide (Q x)) as [Qx|Qx].
  - injection Hfind as <- <-. exists 0.
    rewrite filter_cons_True by done. cbn [list_find list_insert].
    rewrite decide_True by done. split; [done|].
    change (<[0:=g']> (x :: l)) with (g' :: l). by rewrite filter_cons_True.
  - destruct (list_find Q l) as [[i' g0]|] eqn:Hl; [|done].
    injection Hfind as <- ->.
    destruct (IH i' eq_refl Pg Pg') as (j & Hj & Hins).
    change (<[S i':=g']> (x :: l)) with (x :: <[i':=g']> l).
    destruct (decide (P x)) as [Px|Px].
    + exists (S j). rewrite !filter_cons_True by done.
      cbn [list_find]. rewrite decide_False, Hj, Hins by done.
      done.
    + exists j. by rewrite !filter_cons_False.
Qed.

Lemma list_find_filter_None {A} (P Q : A → Prop)
  `{∀ x, Decision (P x)} `{∀ x, Decision (Q x)} (l : list A) :
  list_find Q l = None → list_find Q (filter P l) = None.
Proof.
  rewrite !list_find_None, !Forall_forall. intros Hl x Hx.
  apply list_elem_of_filter in Hx as [_ Hx]. by apply Hl.
Qed.

Lemma rowStep_pairsStep accG m :
  Member.shareType m = HALF →
  rowStep (toGroup <$> accG) m = toGroup <$> pairsStep accG m.
Proof.
  intros Hhalf. unfold rowStep, pairsStep. rewrite Hhalf.
  destruct (truthy (Member.pairId m)) as [k|]; [|done].
  rewrite list_find_fmap.
  change ((λ g, g_id g = k) ∘ toGroup) with (λ kv : string * list Member.t, kv.1 = k).
  destruct (list_find (λ kv : string * list Member.t, kv.1 = k) accG)
    as [[i kv]|]; cbn.
  - by rewrite list_fmap_insert.
  - by rewrite fmap_app.
Qed.

Lemma rowStep_not_half acc m : Member.shareType m ≠ HALF → rowStep acc m = acc.
Proof. unfold rowStep. by destruct (Member.shareType m). Qed.

Lemma foldl_rowStep_pairsStep ms accG :
  foldl rowStep (toGroup <$> accG) ms
  = toGroup <$> foldl pairsStep accG (filter (λ m, Member.shareType m = HALF) ms).
Proof.
  revert accG. induction ms as [|m ms IH]; intros accG; [done|].
  cbn [foldl]. destruct (decide (Member.shareType m = HALF)) as [Hm|Hm].
  - rewrite filter_cons_True by done. cbn [foldl].
    by rewrite rowStep_pairsStep, IH.
  - rewrite filter_cons_False by done. by rewrite rowStep_not_half, IH.
Qed.

Lemma pairStep_filter_rowStep (won : gset string) accR m :
  pairStep won (filter (λ g, g_id g ∉ won) accR) m
  = filter (λ g, g_id g ∉ won) (rowStep accR m).
Proof.
  unfold pairStep, rowStep.
  destruct (Member.shareType m); [done|].
  destruct (truthy (Member.pairId m)) as [k|]; [|done].
  destruct (decide (k ∈ won)) as [Hk|Hk].
  - destruct (list_find (λ g, g_id g = k) accR) as [[i g]|] eqn:Hfind.
    + apply list_find_Some in Hfind as (Hi & Hg & _).
      symmetry. apply filter_insert_out with g; [done|..]; cbn; rewrite ?Hg; tauto.
    + rewrite filter_app, filter_cons_False, filter_nil, app_nil_r; [done|].
      cbn. tauto.
  - destruct (list_find (λ g, g_id g = k) accR) as [[i g]|] eqn:Hfind.
    + pose proof Hfind as Hfind'.
      apply list_find_Some in Hfind' as (_ & Hg & _).
      destruct (list_find_filter_insert (λ g, g_id g ∉ won) (λ g, g_id g = k)
                  accR i g (pushToGroup m g) Hfind) as (j & -> & ->);
        cbn; rewrite ?Hg; done.
    + rewrite (list_find_filter_None _ _ _ Hfind).
      by rewrite filter_app, filter_cons_True.
Qed.

Lemma foldl_pairStep_filter_rowStep (won : gset string) ms accR :
  foldl (pairStep won) (filter (λ g, g_id g ∉ won) accR) ms
  = filter (λ g, g_id g ∉ won) (foldl rowStep accR ms).
Proof.
  revert accR. induction ms as [|m ms IH]; intros accR; [done|].
  cbn [foldl]. by rewrite pairStep_filter_rowStep, IH.
Qed.

Lemma filter_fmap_comm {A B} (f : A → B) (P : B → Prop) `{∀ x, Decision (P x)}
  (l : list A) :
  filter P (f <$> l) = f <$> filter (P ∘ f) l.
Proof.
  induction l as [|x l IH]; [done|]. cbn [fmap list_fmap].
  destruct (decide (P (f x))) as [Hx|Hx].
  - rewrite !filter_cons_True by done. cbn. by rewrite <-IH.
  - by rewrite !filter_cons_False.
Qed.

Lemma gridMemberRows_memberRows committeeMembers :
  gridMemberRows committeeMembers = memberRows committeeMembers.
Proof.
  unfold gridMemberRows, memberRows, membersByShare. cbn [fst snd]. f_equal.
  change (@nil PairGroup) with (toGroup <$> []).
  rewrite foldl_rowStep_pairsStep, <-list_fmap_compose. done.
Qed.

(** X9. The grid and the payment dialog show the same rows: the rows of
    the payments grid, computed from the FULL members and the grouping of
    the HALF members, are the rows of the payment dialog, computed from all
    members at once, in the same order and with the same ids and names. *)
Theorem grid_rows_are_dialog_rows (committeeMembers : list Member.t) :
  gridMemberRows committeeMembers = memberRows committeeMembers.
Proof. apply gridMemberRows_memberRows. Qed.

(** X10. The draw dialog offers the rows that have not won: for a new draw,
    the eligible winners are the rows of the committee's members, in the
    same order, without the rows whose id has won a draw of the committee;
    every row that has not won is offered. *)
Theorem eligibleWinners_are_rows_not_won (ms : list Member.t) (ds : list Draw.t)
  (committeeId : string) :
  eligibleWinners ms ds committeeId None
  = filter (λ w, w_id w ∉ winnersOf committeeId ds) (memberRows ms).
Proof.
  unfold eligibleWinners, memberRows.
  rewrite filter_app, !filter_fmap_comm. f_equal.
  - f_equal. rewrite list_filter_filter. apply list_filter_iff.
    intros m. cbn. rewrite elem_of_wonIdsOf. tauto.
  - rewrite <-(filter_nil (λ g, g_id g ∉ wonIdsOf committeeId ds)) at 1.
    rewrite foldl_pairStep_filter_rowStep. f_equal.
    apply list_filter_iff. intros g. cbn. by rewrite elem_of_wonIdsOf.
Qed.

(** ** The payments map and the completed months *)

Lemma paymentsMap_snoc ps p :
  paymentsMap (ps ++ [p])
  = <[cellKey (Payment.memberIdOrPairId p) (Payment.monthYear p) := p]>
      (paymentsMap ps).
Proof. unfold paymentsMap. by rewrite foldl_app. Qed.

Lemma paymentsMap_lookup ps k :
  paymentsMap ps !! k
  = last (filter (λ p, cellKey (Payment.memberIdOrPairId p) (Payment.monthYear p) = k)
                 ps).
Proof.
  induction ps as [|p ps IH] using rev_ind; [done|].
  rewrite paymentsMap_snoc, filter_app.
  destruct (decide (cellKey (Payment.memberIdOrPairId p) (Payment.monthYear p) = k))
    as [Hk|Hk].
  - rewrite filter_cons_True, filter_nil, last_snoc by done.
    rewrite <-Hk. apply lookup_insert_eq.
  - rewrite filter_cons_False, filter_nil, app_nil_r by done.
    by rewrite lookup_insert_ne.
Qed.

Lemma paymentsMap_is_Some ps k :
  is_Some (paymentsMap ps !! k)
  ↔ ∃ p, p ∈ ps
         ∧ cellKey (Payment.memberIdOrPairId p) (Payment.monthYear p) = k.
Proof.
  rewrite paymentsMap_lookup, last_is_Some. split.
  - intros Hne.
    destruct (filter _ ps) as [|p l] eqn:Hf; [done|].
    assert (p ∈ filter (λ p, cellKey (Payment.memberIdOrPairId p)
                                      (Payment.monthYear p) = k) ps) as Hp
      by (rewrite Hf; left).
    apply list_elem_of_filter in Hp as [Hk Hp]. by exists p.
  - intros (p & Hp & Hk) Hnil.
    assert (p ∈ filter (λ p, cellKey (Payment.memberIdOrPairId p)
                                      (Payment.monthYear p) = k) ps) as Hin
      by (by apply list_elem_of_filter).
    rewrite Hnil in Hin. by apply elem_of_nil in Hin.
Qed.

Lemma elem_of_foldl_completed (ok : string → Prop) `{∀ m, Decision (ok m)}
  (months : list string) (acc : gset string) month :
  month ∈ foldl (λ completed m, if decide (ok m) then completed ∪ {[m]}
                                else completed) acc months
  ↔ month ∈ acc ∨ (month ∈ months ∧ ok month).
Proof.
  revert acc. induction months as [|m months IH]; intros acc; cbn [foldl].
  - rewrite elem_of_nil. tauto.
  - rewrite IH, elem_of_cons. destruct (decide (ok m)) as [Hm|Hm].
    + rewrite elem_of_union, elem_of_singleton. split.
      * intros [[?| ->]|[? ?]]; tauto.
      * intros [?|[[->|?] ?]]; tauto.
    + split.
      * intros [?|[? ?]]; tauto.
      * intros [?|[[->|?] ?]]; tauto.
Qed.

(** X11. What the grid marks as a completed month. A month is completed
    exactly when the grid has at least one row, the month is one of the
    grid's months, and for every row some payment of the committee carries
    the row's id and the month; which payment the map keeps for a cell is
    the last one of the list with that cell's key. *)
Theorem completedMonths_spec (months : list string) (rows : list Winner)
  (committeePayments : list Payment.t) :
  (∀ month,
      month ∈ completedMonths months rows (paymentsMap committeePayments)
      ↔ rows ≠ [] ∧ month ∈ months
        ∧ ∀ row, row ∈ rows →
            ∃ p, p ∈ committeePayments
                 ∧ cellKey (Payment.memberIdOrPairId p) (Payment.monthYear p)
                   = cellKey (w_id row) month)
  ∧ (∀ k,
      paymentsMap committeePayments !! k
      = last (filter (λ p, cellKey (Payment.memberIdOrPairId p)
                                   (Payment.monthYear p) = k)
                     committeePayments)).
Proof.
  split; [|apply paymentsMap_lookup].
  intros month. unfold completedMonths.
  destruct (decide (length rows = 0)) as [Hlen|Hlen].
  - apply length_zero_iff_nil in Hlen. rewrite elem_of_empty. tauto.
  - rewrite (elem_of_foldl_completed
               (λ m, Forall (λ row, is_Some (paymentsMap committeePayments
                                               !! cellKey (w_id row) m)) rows)).
    rewrite elem_of_empty, Forall_forall.
    assert (rows ≠ []) as Hne by (by intros ->).
    split.
    + intros [[]|[Hm Hall]]. split_and!; [done..|].
      intros row Hrow. by apply paymentsMap_is_Some, Hall.
    + intros (_ & Hm & Hall). right. split; [done|].
      intros row Hrow. by apply paymentsMap_is_Some, Hall.
Qed.

Lemma completedMonths_spec_witness :
  let p1 := Payment.mk "p1" "c1" "m1" "2024-01" 1000 "2024-01-05" 0 0 in
  let rows := [mkWinner "m1" "Ali"] in
  "2024-01" ∈ completedMonths ["2024-01"; "2024-02"] rows (paymentsMap [p1])
  ∧ "2024-02" ∉ completedMonths ["2024-01"; "2024-02"] rows (paymentsMap [p1]).
Proof.
  intros p1 rows.
  destruct (completedMonths_spec ["2024-01"; "2024-02"] rows [p1]) as [Hin _].
  split.
  - apply Hin. split_and!; [done|compute_done|].
    intros row ->%list_elem_of_singleton. exists p1. split; [left|reflexivity].
  - intros (_ & _ & Hall)%Hin.
    destruct (Hall (mkWinner "m1" "Ali")) as (p & Hp & Hkey); [left|].
    apply list_elem_of_singleton in Hp as ->. discriminate Hkey.
Defined.

(** ** Month tokens *)

(** [YearFromTime] and [MonthFromTime] invert the day count of [MakeDay];
    [YearFromTime t] is the year whose days contain [Day t], as ECMA-262
    defines it. *)
Section CalendarInverse.
Local Open Scope Z_scope.

Lemma DayFromYear_estimate y :
  146097 * (y - 1970) - 800 ≤ 400 * DayFromYear y ≤ 146097 * (y - 1970) + 800.
Proof. unfold DayFromYear. Z.div_mod_to_equations. lia. Qed.

Lemma YearFromTime_unique t y :
  DayFromYear y ≤ Day t < DayFromYear (y + 1) → YearFromTime t = y.
Proof.
  intros Hd. unfold YearFromTime. generalize dependent (Day t). intros d Hd.
  pose proof (DayFromYear_succ y) as Hs.
  pose proof (DayFromYear_succ (y - 1)) as Hp. replace (y - 1 + 1) with y in Hp by lia.
  pose proof (DayFromYear_succ (y + 1)) as Hn.
  pose proof (DayFromYear_estimate y) as He.
  set (q := (400 * d) `div` 146097).
  assert (146097 * q ≤ 400 * d < 146097 * q + 146097) as Hq
    by (unfold q; Z.div_mod_to_equations; lia).
  assert (q = y - 1970 - 1 ∨ q = y - 1970 ∨ q = y - 1970 + 1) as Hcases.
  { destruct (InLeapYear y); lia. }
  destruct (InLeapYear y), (InLeapYear (y-1)), (InLeapYear (y+1));
  destruct Hcases as [-> |[-> | ->]];
  replace (1970 + (y - 1970 - 1)) with (y - 1) by lia;
  replace (1970 + (y - 1970)) with y by lia;
  replace (1970 + (y - 1970 + 1)) with (y + 1) by lia;
  replace (y - 1 + 1) with y by lia;
  repeat case_decide; lia.
Qed.

Lemma YearFromTime_bounds t :
  DayFromYear (YearFromTime t) ≤ Day t < DayFromYear (YearFromTime t + 1).
Proof.
  unfold YearFromTime. generalize (Day t). intros d.
  set (q := (400 * d) `div` 146097).
  assert (146097 * q ≤ 400 * d < 146097 * q + 146097) as Hq
    by (unfold q; Z.div_mod_to_equations; lia).
  pose proof (DayFromYear_estimate (1970 + q)) as He.
  pose proof (DayFromYear_succ (1970 + q)) as Hs.
  pose proof (DayFromYear_succ (1970 + q - 1)) as Hp.
  replace (1970 + q - 1 + 1) with (1970 + q) in Hp by lia.
  pose proof (DayFromYear_succ (1970 + q + 1)) as Hn.
  destruct (InLeapYear (1970 + q)), (InLeapYear (1970 + q - 1)),
    (InLeapYear (1970 + q + 1));
  repeat case_decide;
  replace (1970 + q - 1 + 1) with (1970 + q) by lia; lia.
Qed.

Lemma Day_whole n : Day (n * msPerDay) = n.
Proof. unfold Day. by rewrite Z.div_mul. Qed.

Lemma month_cases mn :
  0 ≤ mn ≤ 11 →
  mn = 0 ∨ mn = 1 ∨ mn = 2 ∨ mn = 3 ∨ mn = 4 ∨ mn = 5 ∨ mn = 6 ∨ mn = 7
  ∨ mn = 8 ∨ mn = 9 ∨ mn = 10 ∨ mn = 11.
Proof. lia. Qed.

Lemma day_in_month y mn d :
  0 ≤ mn ≤ 11 → 1 ≤ d ≤ DaysInMonth y mn →
  YearFromTime (MakeDay y mn d * msPerDay) = y
  ∧ MonthFromTime (MakeDay y mn d * msPerDay) = mn.
Proof.
  intros Hmn Hd.
  assert (MakeDay y mn d = DayFromYear y + monthOffset y mn + d - 1) as Hday.
  { unfold MakeDay. rewrite Z.div_small, Z.mod_small by lia. by rewrite Z.add_0_r. }
  assert (0 ≤ monthOffset y mn + d - 1 < (if InLeapYear y then 366 else 365)
          ∧ YearFromTime (MakeDay y mn d * msPerDay) = y) as [Hin Hyear].
  { assert (0 ≤ monthOffset y mn + d - 1 < (if InLeapYear y then 366 else 365)) as Hin.
    { apply month_cases in Hmn.
      repeat (destruct Hmn as [-> |Hmn]); try subst mn;
        revert Hd; unfold monthOffset, DaysInMonth; simpl;
        destruct (InLeapYear y); simpl; lia. }
    split; [done|].
    apply YearFromTime_unique. rewrite Day_whole, Hday, DayFromYear_succ. lia. }
  split; [done|].
  unfold MonthFromTime, DayWithinYear. rewrite Hyear, Day_whole, Hday.
  replace (DayFromYear y + monthOffset y mn + d - 1 - DayFromYear y)
    with (monthOffset y mn + d - 1) by lia.
  apply month_cases in Hmn.
  repeat (destruct Hmn as [-> |Hmn]); try subst mn;
    revert Hd; unfold monthOffset, DaysInMonth; simpl;
    destruct (InLeapYear y); simpl; intros Hd; repeat case_decide; lia.
Qed.

Lemma first_of_month y m :
  YearFromTime (MakeDay y m 1 * msPerDay) = y + m `div` 12
  ∧ MonthFromTime (MakeDay y m 1 * msPerDay) = m `mod` 12.
Proof.
  pose proof (Z.mod_pos_bound m 12 ltac:(lia)) as Hm.
  assert (MakeDay y m 1 = MakeDay (y + m `div` 12) (m `mod` 12) 1) as ->.
  { unfold MakeDay. rewrite Z.mod_mod by lia.
    rewrite (Z.div_small (m `mod` 12)) by lia. by rewrite Z.add_0_r. }
  apply day_in_month; [lia|].
  unfold DaysInMonth. destruct (InLeapYear _); repeat case_decide; lia.
Qed.
End CalendarInverse.

Section Strings.
Local Open Scope Z_scope.

Lemma string_app_cons x (a b : string) : String x a +:+ b = String x (a +:+ b).
Proof. reflexivity. Qed.

Lemma string_app_assoc (a b c : string) : (a +:+ b) +:+ c = a +:+ b +:+ c.
Proof. induction a as [|x a IH]; [done|]. by rewrite !string_app_cons, IH. Qed.

Lemma string_app_empty_r (a : string) : a +:+ "" = a.
Proof. induction a as [|x a IH]; [done|]. by rewrite string_app_cons, IH. Qed.

Lemma string_length_app (a b : string) :
  String.length (a +:+ b) = (String.length a + String.length b)%nat.
Proof.
  induction a as [|x a IH]; [done|].
  rewrite string_app_cons. cbn [String.length]. by rewrite IH.
Qed.

Lemma string_rev_app (s t u : string) :
  String.rev_app s t +:+ u = String.rev_app s (t +:+ u).
Proof.
  revert t. induction s as [|x s IH]; intros t; [done|].
  cbn [String.rev_app]. by rewrite IH.
Qed.

Lemma string_rev_cons x (cur a : string) :
  String.rev (String x cur) +:+ a = String.rev cur +:+ String x a.
Proof. unfold String.rev. cbn [String.rev_app]. by rewrite !string_rev_app. Qed.

Lemma digitValue_digitChar d : 0 ≤ d ≤ 9 → digitValue (digitChar d) = Some d.
Proof.
  intros Hd.
  assert (d = 0 ∨ d = 1 ∨ d = 2 ∨ d = 3 ∨ d = 4 ∨ d = 5 ∨ d = 6 ∨ d = 7
          ∨ d = 8 ∨ d = 9) as Hc by lia.
  repeat (destruct Hc as [-> |Hc]); try subst d; reflexivity.
Qed.

Lemma digitValue_not_dash c : is_Some (digitValue c) → c ≠ "-"%char.
Proof. intros [d Hd] ->. discriminate Hd. Qed.

Lemma allDigits_app a b : allDigits a → allDigits b → allDigits (a +:+ b).
Proof.
  induction a as [|x a IH]; [done|]. rewrite string_app_cons.
  cbn [allDigits]. intros [? ?] ?. split; auto.
Qed.

Lemma allDigits_padDigits n v : allDigits (padDigits n v).
Proof.
  revert v. induction n as [|n IH]; intros v; [done|]. cbn [padDigits].
  apply allDigits_app; [apply IH|]. split; [|done].
  rewrite digitValue_digitChar; [done|]. Z.div_mod_to_equations. lia.
Qed.

Lemma length_padDigits n v : String.length (padDigits n v) = n.
Proof.
  revert v. induction n as [|n IH]; intros v; [done|]. cbn [padDigits].
  rewrite string_length_app, IH. cbn. lia.
Qed.

Lemma digitsValue_snoc acc s c :
  digitsValue acc (s +:+ String c "")
  = a ← digitsValue acc s; (λ d, 10 * a + d) <$> digitValue c.
Proof.
  revert acc. induction s as [|x s IH]; intros acc.
  - change ("" +:+ String c "") with (String c ""). cbn [digitsValue].
    by destruct (digitValue c).
  - rewrite string_app_cons. cbn [digitsValue].
    destruct (digitValue x); [apply IH|done].
Qed.

Lemma digitsValue_padDigits n v acc :
  0 ≤ v < 10 ^ Z.of_nat n →
  digitsValue acc (padDigits n v) = Some (acc * 10 ^ Z.of_nat n + v).
Proof.
  revert v. induction n as [|n IH]; intros v Hv.
  - cbn. f_equal. change (10 ^ Z.of_nat 0) with 1 in *. lia.
  - cbn [padDigits]. rewrite Nat2Z.inj_succ, Z.pow_succ_r in * by lia.
    rewrite digitsValue_snoc, IH by (Z.div_mod_to_equations; lia). cbn.
    rewrite digitValue_digitChar by (Z.div_mod_to_equations; lia). cbn.
    f_equal. Z.div_mod_to_equations. lia.
Qed.

Lemma Number_padDigits n v :
  0 ≤ v < 10 ^ Z.of_nat n → Number (padDigits n v) = Some v.
Proof. intros Hv. unfold Number. by rewrite digitsValue_padDigits. Qed.

Lemma splitAcc_digits_sep cur a rest :
  allDigits a →
  splitAcc "-" cur (a +:+ String "-" rest)
  = (String.rev cur +:+ a) :: splitAcc "-" "" rest.
Proof.
  revert cur. induction a as [|x a IH]; intros cur Ha.
  - change ("" +:+ String "-" rest) with (String "-"%char rest).
    cbn [splitAcc]. rewrite decide_True by done.
    by rewrite string_app_empty_r.
  - destruct Ha as [Hx Ha]. rewrite string_app_cons. cbn [splitAcc].
    rewrite decide_False by by apply digitValue_not_dash.
    rewrite IH by done. by rewrite string_rev_cons.
Qed.

Lemma splitAcc_digits_end cur a :
  allDigits a → splitAcc "-" cur a = [String.rev cur +:+ a].
Proof.
  revert cur. induction a as [|x a IH]; intros cur Ha.
  - cbn [splitAcc]. by rewrite string_app_empty_r.
  - destruct Ha as [Hx Ha]. cbn [splitAcc].
    rewrite decide_False by by apply digitValue_not_dash.
    rewrite IH by done. by rewrite string_rev_cons.
Qed.

Lemma split_monthToken y m :
  split "-" (monthToken y m) = [padDigits 4 y; padDigits 2 m].
Proof.
  unfold split, monthToken.
  change ("-" +:+ padDigits 2 m) with (String "-"%char (padDigits 2 m)).
  rewrite splitAcc_digits_sep, splitAcc_digits_end by apply allDigits_padDigits.
  done.
Qed.

Lemma part_monthToken y m :
  0 ≤ y ≤ 9999 → 0 ≤ m ≤ 99 →
  part 0 (monthToken y m) = Some y ∧ part 1 (monthToken y m) = Some m.
Proof.
  intros Hy Hm. unfold part. rewrite split_monthToken. cbn [fmap list_fmap].
  cbn [lookup list_lookup]. cbn [mbind option_bind id].
  rewrite !Number_padDigits; [done|..]; lia.
Qed.

Lemma length_monthToken y m : String.length (monthToken y m) = 7%nat.
Proof.
  unfold monthToken. by rewrite !string_length_app, !length_padDigits.
Qed.
End Strings.

Section MonthTokens.
Local Open Scope Z_scope.

Lemma day_within_year y mn d :
  0 ≤ mn ≤ 11 → 1 ≤ d ≤ DaysInMonth y mn →
  0 ≤ monthOffset y mn + d - 1 < 366.
Proof.
  intros Hmn Hd. apply month_cases in Hmn.
  repeat (destruct Hmn as [-> |Hmn]); try subst mn;
    revert Hd; unfold monthOffset, DaysInMonth; simpl;
    destruct (InLeapYear y); simpl; lia.
Qed.

Lemma MakeDay_range y m d :
  0 ≤ y + m `div` 12 ≤ 9999 →
  1 ≤ d ≤ DaysInMonth (y + m `div` 12) (m `mod` 12) →
  Z.abs (MakeDay y m d * msPerDay) ≤ 8640000000000000.
Proof.
  intros Hy Hd. unfold MakeDay.
  pose proof (Z.mod_pos_bound m 12 ltac:(lia)) as Hm.
  pose proof (day_within_year (y + m `div` 12) (m `mod` 12) d ltac:(lia) Hd) as Hin.
  pose proof (DayFromYear_estimate (y + m `div` 12)) as He.
  unfold msPerDay. lia.
Qed.

Lemma DateUTC_day y m d :
  100 ≤ y → y + m `div` 12 ≤ 9999 → 0 ≤ m →
  1 ≤ d ≤ DaysInMonth (y + m `div` 12) (m `mod` 12) →
  DateUTC (Some y) (Some m) (Some d) = Some (MakeDay y m d * msPerDay).
Proof.
  intros Hy Hmax Hm Hd. unfold DateUTC, TimeClip.
  rewrite (decide_False (P := 0 ≤ y ≤ 99)) by lia.
  rewrite decide_True; [done|].
  apply MakeDay_range; [|done]. Z.div_mod_to_equations. lia.
Qed.

Lemma parseDateAsUTC_day s y m d :
  part 0 s = Some y → part 1 s = Some m → part 2 s = Some d →
  100 ≤ y ≤ 9999 → 1 ≤ m ≤ 12 → 1 ≤ d ≤ DaysInMonth y (m - 1) →
  parseDateAsUTC s = Some (MakeDay y (m - 1) d * msPerDay).
Proof.
  intros Hy Hm Hd Hyr Hmr Hdr. unfold parseDateAsUTC.
  destruct (decide (s = "")) as [->|_].
  { vm_compute in Hy. injection Hy as <-. lia. }
  rewrite Hy, Hm, Hd. cbn [pred1 fmap option_fmap option_map].
  apply DateUTC_day; rewrite ?Z.div_small, ?Z.mod_small, ?Z.add_0_r by lia;
    done || lia.
Qed.

Lemma monthAt_monthToken s y m d (i : nat) :
  part 0 s = Some y → part 1 s = Some m → part 2 s = Some d →
  100 ≤ y → 1 ≤ m ≤ 12 → 1 ≤ d ≤ DaysInMonth y (m - 1) →
  y + (m - 1 + Z.of_nat i) `div` 12 ≤ 9999 →
  monthAt s i
  = Some (monthToken (y + (m - 1 + Z.of_nat i) `div` 12)
                     ((m - 1 + Z.of_nat i) `mod` 12 + 1)).
Proof.
  intros Hy Hm Hd Hyr Hmr Hdr Hmax. unfold monthAt.
  assert (y ≤ 9999) as Hy9 by (Z.div_mod_to_equations; lia).
  rewrite (parseDateAsUTC_day s y m d) by (done || lia).
  cbn [getUTCFullYear getUTCMonth fmap option_fmap option_map].
  destruct (day_in_month y (m - 1) d ltac:(lia) Hdr) as [-> ->].
  set (k := m - 1 + Z.of_nat i) in *.
  pose proof (Z.mod_pos_bound k 12 ltac:(lia)) as Hk.
  rewrite DateUTC_day; [|lia|done|lia|].
  - cbn [isoYearMonth]. destruct (first_of_month y k) as [-> ->].
    rewrite decide_True; [done|]. Z.div_mod_to_equations. lia.
  - unfold DaysInMonth. destruct (InLeapYear _); repeat case_decide; lia.
Qed.

Lemma dueDate_monthToken y m :
  100 ≤ y ≤ 9999 → 1 ≤ m ≤ 12 →
  dueDate (monthToken y m) = Some ((MakeDay y (m - 1) 1 + 9) * msPerDay).
Proof.
  intros Hy Hm. unfold dueDate.
  destruct (part_monthToken y m ltac:(lia) ltac:(lia)) as [-> ->].
  cbn [pred1 fmap option_fmap option_map].
  rewrite DateUTC_day; rewrite ?Z.div_small, ?Z.mod_small, ?Z.add_0_r by lia;
    try lia.
  - unfold MakeDay. f_equal. lia.
  - unfold DaysInMonth. destruct (InLeapYear _); repeat case_decide; lia.
Qed.

Lemma monthToken_inj y m y' m' :
  0 ≤ y ≤ 9999 → 0 ≤ m ≤ 99 → 0 ≤ y' ≤ 9999 → 0 ≤ m' ≤ 99 →
  monthToken y m = monthToken y' m' → y = y' ∧ m = m'.
Proof.
  intros Hy Hm Hy' Hm' Heq.
  destruct (part_monthToken y m Hy Hm) as [H0 H1].
  destruct (part_monthToken y' m' Hy' Hm') as [H0' H1'].
  rewrite Heq in H0, H1. split; congruence.
Qed.
Lemma monthToken_index_inj y m (i j : nat) :
  0 ≤ y → 1 ≤ m ≤ 12 →
  y + (m - 1 + Z.of_nat i) `div` 12 ≤ 9999 →
  y + (m - 1 + Z.of_nat j) `div` 12 ≤ 9999 →
  monthToken (y + (m - 1 + Z.of_nat i) `div` 12) ((m - 1 + Z.of_nat i) `mod` 12 + 1)
  = monthToken (y + (m - 1 + Z.of_nat j) `div` 12) ((m - 1 + Z.of_nat j) `mod` 12 + 1) →
  i = j.
Proof.
  intros Hy Hm Hi Hj Heq.
  apply monthToken_inj in Heq as [Hdiv Hmod]; Z.div_mod_to_equations; lia.
Qed.

Lemma cellKey_inj a m b m' :
  String.length m = String.length m' →
  cellKey a m = cellKey b m' → a = b ∧ m = m'.
Proof.
  intros Hlen. unfold cellKey.
  change ("-" +:+ m) with (String "-"%char m).
  change ("-" +:+ m') with (String "-"%char m').
  revert b. induction a as [|x a IH]; intros [|x' b]; rewrite ?string_app_cons.
  - intros [= ->]. done.
  - intros [= _ ->]. rewrite string_length_app in Hlen. cbn in Hlen. lia.
  - intros [= _ <-]. rewrite string_length_app in Hlen. cbn in Hlen. lia.
  - intros [= -> Heq]. by destruct (IH b Heq) as [-> ->].
Qed.
End MonthTokens.

Lemma filter_iff_elem {A} (P Q : A → Prop) `{∀ x, Decision (P x)}
  `{∀ x, Decision (Q x)} (l : list A) :
  (∀ x, x ∈ l → P x ↔ Q x) → filter P l = filter Q l.
Proof.
  induction l as [|x l IH]; intros Hl; [done|].
  assert (filter P l = filter Q l) as Htl
    by (apply IH; intros y Hy; apply Hl; by right).
  destruct (decide (P x)) as [Hx|Hx].
  - rewrite !filter_cons_True, Htl; [done| |done]. apply Hl; [left|done].
  - rewrite !filter_cons_False, Htl; [done| |done]. intros HQ. apply Hx, Hl; [left|done].
Qed.

(** X12. The month tokens of a committee follow its start month. For a
    start date that reads as year [y >= 100], month [m] and a day [d] of
    that month, the token computed for position [i] is [YYYY-MM] for the
    month [i] months after the start month, as long as its year stays below
    10000. The token has seven characters, its two parts read back as that
    year and month, the due date computed from it is day 10 of that month,
    and no earlier position has the same token. *)
Theorem month_tokens_follow_start_month (startDate : string) (y m d : Z) (i : nat) :
  part 0 startDate = Some y → part 1 startDate = Some m →
  part 2 startDate = Some d →
  (100 ≤ y)%Z → (1 ≤ m ≤ 12)%Z → (1 ≤ d ≤ DaysInMonth y (m - 1))%Z →
  let k := (m - 1 + Z.of_nat i)%Z in
  (y + k `div` 12 ≤ 9999)%Z →
  ∃ token,
    monthAt startDate i = Some token
    ∧ token = monthToken (y + k `div` 12) (k `mod` 12 + 1)
    ∧ String.length token = 7
    ∧ part 0 token = Some (y + k `div` 12)%Z
    ∧ part 1 token = Some (k `mod` 12 + 1)%Z
    ∧ dueDate token = Some ((MakeDay y k 1 + 9) * msPerDay)%Z
    ∧ ∀ j, j < i → monthAt startDate j ≠ Some token.
Proof.
  intros Hy Hm Hd Hyr Hmr Hdr k Hmax. subst k.
  assert (y + (m - 1 + Z.of_nat i) `div` 12 ≤ 9999)%Z as Hmax' by done.
  remember (m - 1 + Z.of_nat i)%Z as k eqn:Hkdef.
  pose proof (Z.mod_pos_bound k 12 eq_refl) as Hk.
  assert (0 ≤ k `div` 12)%Z as Hdiv by (Z.div_mod_to_equations; lia).
  exists (monthToken (y + k `div` 12) (k `mod` 12 + 1)). split_and!;
    [subst k; by apply (monthAt_monthToken startDate y m d)|done|..].
  - apply length_monthToken.
  - apply part_monthToken; lia.
  - apply part_monthToken; lia.
  - rewrite dueDate_monthToken by lia. do 3 f_equal. unfold MakeDay.
    replace (k `mod` 12 + 1 - 1)%Z with (k `mod` 12)%Z by lia.
    assert ((k `mod` 12) `div` 12 = 0)%Z as -> by (by apply Z.div_small).
    assert ((k `mod` 12) `mod` 12 = k `mod` 12)%Z as -> by (by apply Z.mod_small).
    by rewrite Z.add_0_r.
  - intros j Hj.
    assert (y + (m - 1 + Z.of_nat j) `div` 12 ≤ 9999)%Z as Hjmax
      by (Z.div_mod_to_equations; lia).
    rewrite (monthAt_monthToken startDate y m d) by done.
    subst k. intros Heq. apply (inj Some) in Heq.
    apply monthToken_index_inj in Heq; lia.
Qed.

Lemma month_tokens_follow_start_month_witness :
  ∃ token,
    monthAt "2024-11-05" 3 = Some token
    ∧ token = monthToken 2025 2
    ∧ String.length token = 7
    ∧ part 0 token = Some 2025%Z
    ∧ part 1 token = Some 2%Z
    ∧ dueDate token = Some ((MakeDay 2024 13 1 + 9) * msPerDay)%Z
    ∧ ∀ j, j < 3 → monthAt "2024-11-05" j ≠ Some token.
Proof.
  apply (month_tokens_follow_start_month "2024-11-05" 2024 11 5 3);
    [reflexivity|reflexivity|reflexivity|lia|lia|vm_compute; intuition discriminate
    |vm_compute; discriminate].
Defined.

(** X13. The months of the grid, and the month of a new draw. Under the
    same reading of the start date, the list of months of the payments grid
    and of the payment dialog is computed without an error, has
    [durationMonths] entries, holds at position [i] the token of the month
    [i] months after the start month, and has no repetition. For a new draw
    the draw dialog takes the month at the position given by the number of
    draws already recorded for the committee: the first month of the grid
    that has no draw when draws were recorded month by month. *)
Theorem grid_months_are_consecutive (committee : Committee.t) (y m d : Z) :
  part 0 (Committee.startDate committee) = Some y →
  part 1 (Committee.startDate committee) = Some m →
  part 2 (Committee.startDate committee) = Some d →
  (100 ≤ y)%Z → (1 ≤ m ≤ 12)%Z → (1 ≤ d ≤ DaysInMonth y (m - 1))%Z →
  (y + (m - 1 + Z.of_nat (Committee.durationMonths committee)) `div` 12 ≤ 9999)%Z →
  ∃ l,
    months committee = Some l
    ∧ length l = Committee.durationMonths committee
    ∧ NoDup l
    ∧ (∀ i : nat, i < Committee.durationMonths committee →
         l !! i = Some (monthToken (y + (m - 1 + Z.of_nat i) `div` 12)
                                   ((m - 1 + Z.of_nat i) `mod` 12 + 1)))
    ∧ (∀ ds,
         length (committeeDraws (Committee.id committee) ds)
         < Committee.durationMonths committee →
         currentMonthYear committee ds None
         = l !! length (committeeDraws (Committee.id committee) ds)).
Proof.
  intros Hy Hm Hd Hyr Hmr Hdr Hmax.
  set (tok := λ i : nat, monthToken (y + (m - 1 + Z.of_nat i) `div` 12)
                                     ((m - 1 + Z.of_nat i) `mod` 12 + 1)).
  set (n := Committee.durationMonths committee) in *.
  assert (∀ i : nat, i < n →
            (y + (m - 1 + Z.of_nat i) `div` 12 ≤ 9999)%Z) as Hbound.
  { intros i Hi. Z.div_mod_to_equations. lia. }
  assert (∀ i : nat, i < n →
            monthAt (Committee.startDate committee) i = Some (tok i)) as Hat.
  { intros i Hi. apply (monthAt_monthToken _ y m d); auto. }
  assert (∀ i : nat, i < n → (tok <$> seq 0 n) !! i = Some (tok i)) as Hlook.
  { intros i Hi. rewrite list_lookup_fmap, lookup_seq_lt by done. done. }
  exists (tok <$> seq 0 n). split_and!.
  - unfold months. fold n. apply mapM_Some. apply Forall2_fmap_r.
    apply Forall_Forall2_diag, Forall_forall. intros i Hi.
    apply elem_of_seq in Hi. apply Hat. lia.
  - by rewrite length_fmap, length_seq.
  - apply NoDup_fmap_2_strong; [|apply NoDup_seq].
    intros i j Hi Hj Heq. apply elem_of_seq in Hi, Hj.
    apply (monthToken_index_inj y m i j); [lia|done|apply Hbound; lia..|done].
  - done.
  - intros ds Hlt. cbn [currentMonthYear]. by rewrite Hlook, Hat.
Qed.

Lemma grid_months_are_consecutive_witness :
  ∃ l,
    months (Committee.mk "c1" "A" 1000 "2024-11-05" 4 true) = Some l
    ∧ length l = 4
    ∧ NoDup l
    ∧ (∀ i : nat, i < 4 →
         l !! i = Some (monthToken (2024 + (11 - 1 + Z.of_nat i) `div` 12)
                                   ((11 - 1 + Z.of_nat i) `mod` 12 + 1)))
    ∧ (∀ ds,
         length (committeeDraws "c1" ds) < 4 →
         currentMonthYear (Committee.mk "c1" "A" 1000 "2024-11-05" 4 true) ds None
         = l !! length (committeeDraws "c1" ds)).
Proof.
  apply (grid_months_are_consecutive
           (Committee.mk "c1" "A" 1000 "2024-11-05" 4 true) 2024 11 5);
    [reflexivity|reflexivity|reflexivity|lia|lia|vm_compute; intuition discriminate
    |vm_compute; discriminate].
Defined.

(** X14. The cell of a member and a month holds that member's payment
    for that month. When the month tokens of the committee's payments have
    the length of [month], as the seven-character tokens of the grid do, the
    payment the grid shows in the cell of [memberIdOrPairId] and [month] is
    the last payment of the list with exactly that id and month, and the
    cell is empty when there is none: the hyphens inside ids and tokens do
    not mix up cells. *)
Theorem cell_lookup_by_member_and_month (committeePayments : list Payment.t)
  (memberIdOrPairId month : string) :
  (∀ p, p ∈ committeePayments →
        String.length (Payment.monthYear p) = String.length month) →
  paymentsMap committeePayments !! cellKey memberIdOrPairId month
  = last (filter (λ p, Payment.memberIdOrPairId p = memberIdOrPairId
                       ∧ Payment.monthYear p = month) committeePayments).
Proof.
  intros Hlen. rewrite paymentsMap_lookup. f_equal.
  apply filter_iff_elem. intros p Hp. split.
  - intros Hkey. by apply cellKey_inj in Hkey; [|apply Hlen].
  - by intros [-> ->].
Qed.

Lemma cell_lookup_by_member_and_month_witness :
  let p1 := Payment.mk "p1" "c1" "a-b" "2024-01" 1000 "2024-01-05" 0 0 in
  let p2 := Payment.mk "p2" "c1" "a-b" "2024-02" 1000 "2024-02-05" 0 0 in
  paymentsMap [p1; p2] !! cellKey "a-b" "2024-02" = Some p2.
Proof.
  intros p1 p2.
  refine (eq_trans (cell_lookup_by_member_and_month [p1; p2] "a-b" "2024-02" _)
            eq_refl).
  intros p Hp. apply elem_of_cons in Hp as [-> |Hp]; [reflexivity|].
  apply elem_of_cons in Hp as [-> |Hp]; [reflexivity|]. by apply elem_of_nil in Hp.
Defined.

(** ** Rows and months *)

Lemma rowStep_pairStep_empty acc m : rowStep acc m = pairStep ∅ acc m.
Proof.
  unfold rowStep, pairStep. destruct (Member.shareType m); [done|].
  destruct (truthy (Member.pairId m)) as [k|]; [|done].
  by rewrite decide_False by apply not_elem_of_empty.
Qed.

Lemma foldl_rowStep_pairStep_empty ms acc :
  foldl rowStep acc ms = foldl (pairStep ∅) acc ms.
Proof.
  revert acc. induction ms as [|m ms IH]; intros acc; [done|].
  cbn [foldl]. by rewrite rowStep_pairStep_empty, IH.
Qed.

Lemma pairStep_NoDup won acc m :
  NoDup (g_id <$> acc) → NoDup (g_id <$> pairStep won acc m).
Proof.
  intros Hacc. rewrite pairStep_ids.
  destruct (Member.shareType m); [done|].
  destruct (pairKey m) as [k|]; [|done].
  case_decide as Hk; [done|].
  apply NoDup_app. split_and!; [done| |apply NoDup_singleton].
  intros x Hx ->%list_elem_of_singleton. apply Hk. by right.
Qed.

Lemma foldl_pairStep_NoDup won ms acc :
  NoDup (g_id <$> acc) → NoDup (g_id <$> foldl (pairStep won) acc ms).
Proof.
  revert acc. induction ms as [|m ms IH]; intros acc Hacc; [done|].
  cbn [foldl]. by apply IH, pairStep_NoDup.
Qed.

Lemma memberRows_ids ms x :
  x ∈ w_id <$> memberRows ms ↔ candidate ms x.
Proof.
  unfold memberRows, candidate.
  rewrite fmap_app, elem_of_app, <- !list_fmap_compose.
  change (w_id ∘ (λ g, mkWinner (g_id g) (g_name g))) with g_id.
  change (w_id ∘ (λ m, mkWinner (Member.id m) (Member.name m))) with Member.id.
  rewrite foldl_rowStep_pairStep_empty, foldl_pairStep_ids, list_elem_of_fmap.
  split.
  - intros [(m & -> & Hm)|[Hnil|(_ & m & Hm & Hh & Hk)]].
    + apply list_elem_of_filter in Hm as [Hf Hm]. exists m. split; [done|]. by left.
    + by apply elem_of_nil in Hnil.
    + exists m. split; [done|]. by right.
  - intros (m & Hm & [[Hf <-]|[Hh Hk]]).
    + left. exists m. split; [done|]. by apply list_elem_of_filter.
    + right. right. split; [apply not_elem_of_empty|]. by exists m.
Qed.

Lemma completePairs_rows cid ms k :
  k ∈ completePairs (halfMembersOf cid ms) →
  k ∈ g_id <$> foldl rowStep [] (filter (λ m, Member.committeeId m = cid) ms).
Proof.
  intros Hk. apply elem_of_completePairs in Hk.
  rewrite foldl_rowStep_pairStep_empty, foldl_pairStep_ids. right.
  split; [apply not_elem_of_empty|].
  unfold groupOf in Hk.
  destruct (filter _ (halfMembersOf cid ms)) as [|m g] eqn:Hg; [done|].
  assert (m ∈ filter (λ m, pairKey m = Some k) (halfMembersOf cid ms)) as Hm
    by (rewrite Hg; left).
  apply list_elem_of_filter in Hm as [Hkey Hm].
  apply list_elem_of_filter in Hm as [Hhalf Hm]. by exists m.
Qed.

Lemma length_memberRows cid ms :
  length (memberRows (filter (λ m, Member.committeeId m = cid) ms))
  = length (fullMembersOf cid ms)
    + size (list_to_set (C := gset string)
              (g_id <$> foldl rowStep []
                          (filter (λ m, Member.committeeId m = cid) ms))).
Proof.
  unfold memberRows. rewrite length_app, !length_fmap.
  fold (fullMembersOf cid ms). f_equal.
  rewrite size_list_to_set, length_fmap; [done|].
  rewrite foldl_rowStep_pairStep_empty. apply foldl_pairStep_NoDup. constructor.
Qed.

Lemma rows_at_least_duration cid ms :
  calculateDuration cid ms
  ≤ length (memberRows (filter (λ m, Member.committeeId m = cid) ms)).
Proof.
  rewrite calculateDuration_derive, length_memberRows. unfold deriveDuration.
  apply Nat.add_le_mono_l, subseteq_size. intros k Hk.
  by apply elem_of_list_to_set, completePairs_rows.
Qed.

Lemma rows_exceed_duration cid ms m k :
  m ∈ filter (λ m, Member.committeeId m = cid) ms →
  Member.shareType m = HALF → pairKey m = Some k →
  length (groupOf k (halfMembersOf cid ms)) ≠ 2 →
  calculateDuration cid ms
  < length (memberRows (filter (λ m, Member.committeeId m = cid) ms)).
Proof.
  intros Hm Hhalf Hkey Hlen.
  rewrite calculateDuration_derive, length_memberRows. unfold deriveDuration.
  apply Nat.add_lt_mono_l, subset_size. split.
  - intros k' Hk'. by apply elem_of_list_to_set, completePairs_rows.
  - intros Hsub. apply Hlen, elem_of_completePairs, Hsub, elem_of_list_to_set.
    rewrite foldl_rowStep_pairStep_empty, foldl_pairStep_ids. right.
    split; [apply not_elem_of_empty|]. by exists m.
Qed.

(** X15. The rows of the grid against the months of the committee. The
    ids of the rows are the ids of the committee's FULL members and the pair
    ids carried by its HALF members, so a HALF member has a row whether or
    not its pair is complete. The committee has at most as many months as
    the grid has rows, and fewer as soon as some pair id is carried by a
    number of HALF members other than two, a lone HALF member for one. *)
Theorem grid_rows_and_months (cid : string) (ms : list Member.t) :
  let committeeMembers := filter (λ m, Member.committeeId m = cid) ms in
  (∀ x, x ∈ w_id <$> gridMemberRows committeeMembers
        ↔ candidate committeeMembers x)
  ∧ calculateDuration cid ms ≤ length (gridMemberRows committeeMembers)
  ∧ (∀ m k, m ∈ committeeMembers →
            Member.shareType m = HALF → pairKey m = Some k →
            length (groupOf k (halfMembersOf cid ms)) ≠ 2 →
            calculateDuration cid ms < length (gridMemberRows committeeMembers)).
Proof.
  intros committeeMembers. rewrite gridMemberRows_memberRows. split_and!.
  - apply memberRows_ids.
  - apply rows_at_least_duration.
  - apply rows_exceed_duration.
Qed.

Lemma grid_rows_and_months_witness :
  let ms := [Member.mk "m1" "c1" "Ali" "0300" FULL None;
             Member.mk "h1" "c1" "Bano" "0301" HALF (Some "h1")] in
  calculateDuration "c1" ms = 1
  ∧ calculateDuration "c1" ms
    < length (gridMemberRows (filter (λ m, Member.committeeId m = "c1") ms)).
Proof.
  intros ms. split; [reflexivity|].
  destruct (grid_rows_and_months "c1" ms) as (_ & _ & Hlone).
  apply (Hlone (Member.mk "h1" "c1" "Bano" "0301" HALF (Some "h1")) "h1");
    [compute_done|reflexivity|reflexivity|compute_done].
Defined.

(** ** Payments recorded through the grid *)

Section PaymentDialog.
Implicit Types (e : Engine) (committee : Committee.t).

Lemma paymentDialogSubmit_cell_disciplined e committee rowId month datePaid newId o :
  cellUnpaid (state e) committee rowId month →
  paymentDialogSubmit committee None rowId month datePaid newId = Some o →
  keyDiscipline (Mutation o) e.
Proof.
  intros Hcell. unfold paymentDialogSubmit. case_decide as Hempty; [done|].
  intros [= <-]. cbn. intros (p & Hkey & Hp)%list_elem_of_fmap.
  injection Hkey as Hc Hm Hmonth.
  assert (is_Some (paymentsMap
            (filter (λ p, Payment.committeeId p = Committee.id committee)
                    (payments (state e))) !! cellKey rowId month)) as [q Hq].
  { apply paymentsMap_is_Some. exists p. split.
    - by apply list_elem_of_filter.
    - by rewrite <-Hm, <-Hmonth. }
  unfold cellUnpaid in Hcell. by rewrite Hcell in Hq.
Qed.

Lemma paymentDialogSubmit_edit_disciplined e committee ep datePaid newId o :
  ep ∈ payments (state e) →
  NoDup (Payment.id <$> payments (state e)) →
  Payment.committeeId ep = Committee.id committee →
  Payment.id ep ≠ "" →
  paymentDialogSubmit committee (Some ep) (Payment.memberIdOrPairId ep)
    (Payment.monthYear ep) datePaid newId = Some o →
  keyDiscipline (Mutation o) e.
Proof.
  intros Hep Hnd Hc Hid. unfold paymentDialogSubmit.
  case_decide as Hempty; [done|].
  simpl. rewrite decide_False by done. intros [= <-]. simpl.
  intros q Hq Hqid.
  assert (q = ep) as -> by by apply (NoDup_fmap_eq Payment.id (payments (state e))).
  unfold paymentKey, dataKey. simpl. by rewrite Hc.
Qed.
End PaymentDialog.

(** X16. Payments recorded through the cells of the grid keep one payment
    per committee, member and month. The payment dialog sends nothing
    without a member or a month. Opened from a cell that shows no payment,
    it sends a new payment for a triple that no payment has; opened from a
    paid cell, it sends an edit that keeps the triple of that payment. In
    both cases a snapshot with at most one payment per triple is followed
    by one. *)
Theorem payments_through_cells_stay_unique :
  (∀ committee editingPayment member month datePaid newId,
      member = "" ∨ month = "" →
      paymentDialogSubmit committee editingPayment member month datePaid newId
      = None)
  ∧ (∀ e committee rowId month datePaid newId o,
        cellUnpaid (state e) committee rowId month →
        paymentDialogSubmit committee None rowId month datePaid newId = Some o →
        keyDiscipline (Mutation o) e
        ∧ (uniquePayments (state e) → uniquePayments (state (mutate o e))))
  ∧ (∀ e committee ep datePaid newId o,
        ep ∈ payments (state e) →
        NoDup (Payment.id <$> payments (state e)) →
        Payment.committeeId ep = Committee.id committee →
        Payment.id ep ≠ "" →
        paymentDialogSubmit committee (Some ep) (Payment.memberIdOrPairId ep)
          (Payment.monthYear ep) datePaid newId = Some o →
        keyDiscipline (Mutation o) e
        ∧ (uniquePayments (state e) → uniquePayments (state (mutate o e)))).
Proof.
  split_and!.
  - intros committee ep member month datePaid newId Hempty.
    unfold paymentDialogSubmit. by rewrite decide_True.
  - intros e committee rowId month datePaid newId o Hcell Hsub.
    pose proof (paymentDialogSubmit_cell_disciplined _ _ _ _ _ _ _ Hcell Hsub).
    split; [done|]. by apply keyDiscipline_step.
  - intros e committee ep datePaid newId o Hep Hnd Hc Hid Hsub.
    pose proof (paymentDialogSubmit_edit_disciplined _ _ _ _ _ _ Hep Hnd Hc Hid Hsub).
    split; [done|]. by apply keyDiscipline_step.
Qed.

Lemma payments_through_cells_stay_unique_witness :
  let committee := Committee.mk "c1" "A" 1000 "2024-01-01" 5 true in
  let e := call (Mutation (AddPayment "p1"
                   (PaymentData.mk "c1" "m1" "2024-01" 1000 "2024-01-09")))
             (initialEngine emptyState) in
  uniquePayments
    (state (mutate (AddPayment "p2"
                      (PaymentData.mk "c1" "m1" "2024-02" 1000 "2024-02-12")) e))
  ∧ keyDiscipline
      (Mutation (UpdatePayment
                   (PaymentData.mk "c1" "m1" "2024-01" 1000 "2024-01-20") "p1")) e.
Proof.
  intros committee e.
  destruct payments_through_cells_stay_unique as (_ & Hcell & Hedit).
  split.
  - apply (Hcell e committee "m1" "2024-02" "2024-02-12" "p2");
      [reflexivity|reflexivity|]. repeat constructor; compute_done.
  - apply (Hedit e committee
             (Payment.mk "p1" "c1" "m1" "2024-01" 1000 "2024-01-09" 0 0)
             "2024-01-20" "zz");
      [compute_done|compute_done|reflexivity|discriminate|reflexivity].
Defined.

(** ** Pairs kept by the engine *)

Section Pairing.
Implicit Types (ms : list Member.t) (m p q : Member.t) (k : string).

Lemma minId_comm a b : minId a b = minId b a.
Proof.
  unfold minId, String.ltb. rewrite (String.compare_antisym a b).
  destruct (String.compare b a) eqn:Hc; simpl; try done.
  by apply String.compare_eq_iff in Hc.
Qed.

Lemma minId_idemp a : minId a a = a.
Proof. unfold minId. by destruct (String.ltb a a). Qed.

Lemma putMember_insert ms j m m' :
  NoDup (Member.id <$> ms) → ms !! j = Some m → Member.id m' = Member.id m →
  putMember ms (<[j:=m']> ms) m'.
Proof.
  intros Hnd Hj Hid. split; [by rewrite (ids_insert ms j m)|].
  assert (j < length ms) as Hlt by by eapply lookup_lt_Some.
  intros x. split.
  - intros (j' & Hj')%list_elem_of_lookup.
    apply list_lookup_insert_Some in Hj' as [(-> & -> & _)|[Hne Hj']]; [by left|].
    right. split; [by eapply list_elem_of_lookup_2|]. intros Hx. apply Hne.
    apply (NoDup_lookup _ _ _ (Member.id m) Hnd);
      rewrite list_lookup_fmap; [by rewrite Hj|].
    rewrite Hj'. simpl. by rewrite Hx, Hid.
  - intros [-> |[(j' & Hj')%list_elem_of_lookup Hne]].
    + apply list_elem_of_lookup. exists j. by apply list_lookup_insert_eq.
    + apply list_elem_of_lookup. exists j'. rewrite list_lookup_insert_ne; [done|].
      intros ->. rewrite Hj in Hj'. injection Hj' as ->. by rewrite Hid in Hne.
Qed.

Lemma putMember_app ms m' :
  NoDup (Member.id <$> ms) → Member.id m' ∉ Member.id <$> ms →
  putMember ms (ms ++ [m']) m'.
Proof.
  intros Hnd Hfresh. split.
  - rewrite fmap_app. apply NoDup_app. split_and!; [done| |apply NoDup_singleton].
    intros i Hi ->%list_elem_of_singleton. done.
  - intros x. rewrite elem_of_app, list_elem_of_singleton. split.
    + intros [Hx| ->]; [|by left]. right. split; [done|]. intros Hid.
      apply Hfresh. rewrite <-Hid. by apply list_elem_of_fmap_2.
    + intros [-> |[Hx _]]; auto.
Qed.

Lemma putMember_same ms m :
  NoDup (Member.id <$> ms) → m ∈ ms → putMember ms ms m.
Proof.
  intros Hnd Hm. split; [done|]. intros x. split.
  - intros Hx. destruct (decide (Member.id x = Member.id m)) as [Hid|Hid]; [|by right].
    left. by apply (NoDup_fmap_eq Member.id ms).
  - by intros [-> |[Hx _]].
Qed.

(** Setting a member that carries its own id (or a FULL member without a
    pair id) under an id that no other member carries. *)
Lemma paired_put_self ms ms' m' :
  paired ms → putMember ms ms' m' →
  (Member.pairId m' = Some (Member.id m')
   ∨ (Member.shareType m' = FULL ∧ Member.pairId m' = None)) →
  (∀ q, carries ms (Member.id m') q → Member.id q = Member.id m') →
  paired ms'.
Proof.
  intros Hp [Hnd Hin] Hself Hnone.
  assert (∀ q k, carries ms' k q → q = m' ∨ (carries ms k q ∧ Member.id q ≠ Member.id m'))
    as Hold.
  { intros q k (Hq & Hh & Hk). apply Hin in Hq as [-> |[Hq Hne]]; [by left|].
    right. by repeat split. }
  assert (∀ k, carries ms' k m' → k = Member.id m') as Hnew.
  { intros k (_ & Hh & Hk). destruct Hself as [Hs|[Hf _]]; congruence. }
  split.
  - done.
  - intros m Hm Hf. apply Hin in Hm as [-> |[Hm _]].
    + destruct Hself as [?|[_ ?]]; auto.
    + by apply (pr_full ms Hp).
  - intros m Hm Hh. apply Hin in Hm as [-> |[Hm _]].
    + destruct Hself as [->|[? _]]; [done|congruence].
    + by apply (pr_half ms Hp).
  - intros m k Hc. destruct (Hold m k Hc) as [-> |[Hc' Hne]].
    + left. symmetry. by apply Hnew.
    + destruct (pr_canon ms Hp m k Hc') as [?|[Hmin (p & Hpc & Hpid)]]; [by left|].
      right. split; [done|]. exists p. split; [|done].
      destruct Hpc as (Hpin & Hph & Hpk). split_and!; try done.
      apply Hin. right. split; [done|]. intros Hpm.
      apply Hne, Hnone. by rewrite <-Hpm, Hpid.
  - intros m m2 k Hc Hc2 Hmk Hm2k.
    destruct (Hold m k Hc) as [-> |[Hc' Hne]]; [by rewrite (Hnew k Hc) in Hmk|].
    destruct (Hold m2 k Hc2) as [-> |[Hc2' Hne2]]; [by rewrite (Hnew k Hc2) in Hm2k|].
    by apply (pr_one ms Hp m m2 k).
Qed.

(** Joining two members under the smaller of their ids. *)
Lemma paired_put_pair ms ms1 ms' p' n' c :
  paired ms → putMember ms ms1 p' → putMember ms1 ms' n' →
  Member.id p' ≠ Member.id n' →
  Member.shareType p' = HALF → Member.shareType n' = HALF →
  Member.pairId p' = Some c → Member.pairId n' = Some c →
  c = minId (Member.id n') (Member.id p') →
  (∀ q, carries ms (Member.id p') q →
        Member.id q = Member.id p' ∨ Member.id q = Member.id n') →
  (∀ q, carries ms (Member.id n') q → Member.id q = Member.id n') →
  paired ms'.
Proof.
  intros Hp [_ Hin1] [Hnd Hin] Hne Hph Hnh Hpk Hnk Hc Hpalone Hnalone.
  assert (∀ x, x ∈ ms' ↔
            x = n' ∨ x = p'
            ∨ (x ∈ ms ∧ Member.id x ≠ Member.id p' ∧ Member.id x ≠ Member.id n'))
    as Hmem.
  { intros x. rewrite Hin, Hin1. split.
    - intros [-> |[[-> |[??]] ?]]; auto.
    - intros [-> |[-> |(? & ? & ?)]]; auto. }
  clear Hin Hin1.
  assert (n' ∈ ms') as Hn' by (apply Hmem; auto).
  assert (p' ∈ ms') as Hp' by (apply Hmem; auto).
  assert (∀ q k, carries ms' k q →
            (q = n' ∧ k = c) ∨ (q = p' ∧ k = c)
            ∨ (carries ms k q ∧ Member.id q ≠ Member.id p'
               ∧ Member.id q ≠ Member.id n' ∧ k ≠ Member.id p' ∧ k ≠ Member.id n'))
    as Hold.
  { intros q k (Hq & Hh & Hk). apply Hmem in Hq as [-> |[-> |(Hq & Hqp & Hqn)]].
    - left. split; congruence.
    - right. left. split; congruence.
    - right. right. assert (carries ms k q) as Hcq by done.
      split_and!; try done.
      + intros ->. destruct (Hpalone q Hcq); done.
      + intros ->. by apply Hqn, Hnalone. }
  assert (c = Member.id n' ∧ minId (Member.id p') (Member.id n') = Member.id n'
          ∨ c = Member.id p' ∧ minId (Member.id n') (Member.id p') = Member.id p')
    as Hcases.
  { destruct (minId_cases (Member.id n') (Member.id p')) as [Hm|Hm].
    - left. rewrite minId_comm. by rewrite Hc, Hm.
    - right. by rewrite Hc, Hm. }
  split.
  - done.
  - intros m Hm Hf. apply Hmem in Hm as [-> |[-> |(Hm & _)]]; [congruence..|].
    by apply (pr_full ms Hp).
  - intros m Hm Hh. apply Hmem in Hm as [-> |[-> |(Hm & _)]].
    + by rewrite Hnk.
    + by rewrite Hpk.
    + by apply (pr_half ms Hp).
  - intros m k Hcm.
    destruct (Hold m k Hcm) as [[-> ->]|[[-> ->]|(Hcm' & Hmp & Hmn & Hkp & Hkn)]].
    + destruct Hcases as [[-> _]|[Hcp Hmin]]; [by left|]. right.
      rewrite Hcp. split; [done|]. exists p'. by rewrite <-Hcp.
    + destruct Hcases as [[Hcn Hmin]|[-> _]]; [|by left]. right.
      rewrite Hcn. split; [done|]. exists n'. by rewrite <-Hcn.
    + destruct (pr_canon ms Hp m k Hcm') as [?|[Hmin (q & Hq & Hqid)]]; [by left|].
      right. split; [done|]. exists q. split; [|done].
      destruct Hq as (Hqin & Hqh & Hqk). split_and!; try done.
      apply Hmem. right. right. split_and!; [done|by rewrite Hqid..].
  - intros m m2 k Hcm Hcm2 Hmk Hm2k.
    destruct (Hold m k Hcm) as [[-> Hk1]|[[-> Hk1]|(Hcm' & Hmp & Hmn & Hkp & Hkn)]];
    destruct (Hold m2 k Hcm2) as [[-> Hk2]|[[-> Hk2]|(Hcm2' & Hm2p & Hm2n & Hkp2 & Hkn2)]];
      try done;
      try (destruct Hcases as [[? _]|[? _]]; congruence).
    by apply (pr_one ms Hp m m2 k).
Qed.

(** Removing the member under an id that no other member carries. *)
Lemma paired_remove ms i :
  paired ms →
  (∀ q, carries ms i q → Member.id q = i) →
  paired (filter (λ m, Member.id m ≠ i) ms).
Proof.
  intros Hp Hnone.
  assert (∀ q k, carries (filter (λ m, Member.id m ≠ i) ms) k q →
            carries ms k q ∧ Member.id q ≠ i) as Hold.
  { intros q k (Hq & Hh & Hk). apply list_elem_of_filter in Hq as [Hne Hq].
    by repeat split. }
  split.
  - apply NoDup_fmap_filter, (pr_ids ms Hp).
  - intros m [_ Hm]%list_elem_of_filter. by apply (pr_full ms Hp).
  - intros m [_ Hm]%list_elem_of_filter. by apply (pr_half ms Hp).
  - intros m k Hc. destruct (Hold m k Hc) as [Hc' Hne].
    destruct (pr_canon ms Hp m k Hc') as [?|[Hmin (q & Hq & Hqid)]]; [by left|].
    right. split; [done|]. exists q. split; [|done].
    destruct Hq as (Hqin & Hqh & Hqk). split_and!; try done.
    apply list_elem_of_filter. split; [|done]. intros Hqi.
    apply Hne, Hnone. by rewrite <-Hqi, Hqid.
  - intros m m2 k Hc Hc2. destruct (Hold m k Hc) as [Hc' _].
    destruct (Hold m2 k Hc2) as [Hc2' _]. by apply (pr_one ms Hp).
Qed.

(** Removing a committee whose pairs are its own. *)
Lemma paired_remove_committee ms cid :
  paired ms → pairsLocal ms →
  paired (filter (λ m, Member.committeeId m ≠ cid) ms).
Proof.
  intros Hp Hpl.
  assert (∀ q k, carries (filter (λ m, Member.committeeId m ≠ cid) ms) k q →
            carries ms k q ∧ Member.committeeId q ≠ cid) as Hold.
  { intros q k (Hq & Hh & Hk). apply list_elem_of_filter in Hq as [Hne Hq].
    by repeat split. }
  split.
  - apply NoDup_fmap_filter, (pr_ids ms Hp).
  - intros m [_ Hm]%list_elem_of_filter. by apply (pr_full ms Hp).
  - intros m [_ Hm]%list_elem_of_filter. by apply (pr_half ms Hp).
  - intros m k Hc. destruct (Hold m k Hc) as [Hc' Hne].
    destruct (pr_canon ms Hp m k Hc') as [?|[Hmin (q & Hq & Hqid)]]; [by left|].
    right. split; [done|]. exists q. split; [|done].
    destruct Hc' as (Hmin' & Hmh & Hmk).
    destruct Hq as (Hqin & Hqh & Hqk). split_and!; try done.
    apply list_elem_of_filter. split; [|done].
    rewrite (pl_shared ms Hpl q m); congruence.
  - intros m m2 k Hc Hc2. destruct (Hold m k Hc) as [Hc' _].
    destruct (Hold m2 k Hc2) as [Hc2' _]. by apply (pr_one ms Hp).
Qed.
Lemma filter_singleton {A} (P : A → Prop) `{∀ x, Decision (P x)} (l : list A) a :
  NoDup l → a ∈ l → P a → (∀ x, x ∈ l → P x → x = a) → filter P l = [a].
Proof.
  induction l as [|y l IH]; intros Hnd Ha Pa Huniq; [by apply elem_of_nil in Ha|].
  apply NoDup_cons in Hnd as [Hy Hnd].
  apply elem_of_cons in Ha as [<- |Ha].
  - rewrite filter_cons_True by done. f_equal.
    apply filter_none. intros x Hx Px.
    apply Hy. by rewrite <-(Huniq x) by (by right || done).
  - rewrite filter_cons_False; [apply IH; try done|].
    + intros x Hx. apply Huniq. by right.
    + intros Py. apply Hy. by rewrite (Huniq y) by (by left || done).
Qed.

Lemma length_filter_le_1 {A} (P : A → Prop) `{∀ x, Decision (P x)} (l : list A) :
  NoDup l → (∀ x y, x ∈ l → y ∈ l → P x → P y → x = y) →
  length (filter P l) ≤ 1.
Proof.
  intros Hnd Huniq. destruct (filter P l) as [|a l'] eqn:Hf; [simpl; lia|].
  assert (a ∈ filter P l) as Ha by (rewrite Hf; left).
  apply list_elem_of_filter in Ha as [Pa Ha].
  rewrite (filter_singleton P l a) in Hf; try done.
  - injection Hf as <-. simpl. lia.
  - intros x Hx Px. by apply Huniq.
Qed.

Lemma length_filter_split {A} (P Q : A → Prop) `{∀ x, Decision (P x)}
  `{∀ x, Decision (Q x)} (l : list A) :
  length (filter P l)
  = length (filter (λ x, P x ∧ Q x) l) + length (filter (λ x, P x ∧ ¬ Q x) l).
Proof.
  induction l as [|y l IH]; [done|]. rewrite !filter_cons.
  repeat case_decide; simpl; (tauto || lia).
Qed.

Lemma paired_pairingSymmetric ms : paired ms → pairingSymmetric ms.
Proof.
  intros Hp. pose proof (pr_ids ms Hp) as Hnd.
  assert (NoDup ms) as Hnd' by by eapply NoDup_fmap_1.
  split.
  - intros m Hm Hh. destruct (pr_half ms Hp m Hm Hh) as [k Hk].
    destruct (pr_canon ms Hp m k) as [Hid|[Hmin (p & (Hpin & Hph & Hpk) & Hpid)]];
      [done|left; congruence|].
    destruct (decide (Member.id m = k)) as [Hmk|Hmk]; [left; congruence|].
    right. exists p. split; [|by rewrite Hpid, Hmin].
    apply filter_singleton; [done..| |].
    + split_and!; [done|congruence|congruence].
    + intros x Hx (Hxh & Hxk & Hxm). rewrite Hk in Hxk.
      apply (NoDup_fmap_eq Member.id ms); [done..|]. rewrite Hpid.
      destruct (decide (Member.id x = k)) as [|Hxne]; [done|].
      destruct Hxm. by apply (pr_one ms Hp x m k).
  - intros k. unfold halfSharers.
    rewrite (length_filter_split _ (λ m, Member.id m = k)).
    assert (length (filter (λ m, (Member.shareType m = HALF ∧ Member.pairId m = Some k)
                                 ∧ Member.id m = k) ms) ≤ 1) as H1.
    { apply length_filter_le_1; [done|]. intros x y Hx Hy [_ Hxk] [_ Hyk].
      apply (NoDup_fmap_eq Member.id ms); [done..|congruence]. }
    assert (length (filter (λ m, (Member.shareType m = HALF ∧ Member.pairId m = Some k)
                                 ∧ ¬ Member.id m = k) ms) ≤ 1) as H2.
    { apply length_filter_le_1; [done|]. intros x y Hx Hy [[??] Hxk] [[??] Hyk].
      apply (NoDup_fmap_eq Member.id ms); [done..|]. by apply (pr_one ms Hp x y k). }
    lia.
Qed.

Lemma set_pairId_same m :
  Member.pairId m = Some (Member.id m) →
  Member.set_pairId (Some (Member.id m)) m = m.
Proof. destruct m. simpl. by intros ->. Qed.

Lemma find_id_elem ms i j m :
  list_find (λ x, Member.id x = i) ms = Some (j, m) →
  ms !! j = Some m ∧ Member.id m = i ∧ m ∈ ms.
Proof.
  intros (Hj & Hid & _)%list_find_Some. split_and!; [done..|].
  by eapply list_elem_of_lookup_2.
Qed.

Lemma find_id_of_elem ms m :
  NoDup (Member.id <$> ms) → m ∈ ms →
  ∃ j, list_find (λ x, Member.id x = Member.id m) ms = Some (j, m).
Proof.
  intros Hnd Hm.
  destruct (list_find (λ x, Member.id x = Member.id m) ms) as [[j x]|] eqn:Hf.
  - apply find_id_elem in Hf as (Hj & Hid & Hx). exists j.
    by rewrite (NoDup_fmap_eq Member.id ms x m).
  - apply list_find_None in Hf. rewrite Forall_forall in Hf.
    by destruct (Hf m Hm).
Qed.

(** Releasing the partner of [o]: afterwards the list is still paired, it
    has the members of before under the same ids and committees, [o] is in
    it unchanged, and no other member carries the id of [o]. *)
Lemma paired_release ms o :
  paired ms → o ∈ ms →
  let ms1 := resetPartner (partnerOf o ms) ms in
  paired ms1 ∧ o ∈ ms1 ∧ Member.id <$> ms1 = Member.id <$> ms
  ∧ (∀ q, carries ms1 (Member.id o) q → Member.id q = Member.id o).
Proof.
  intros Hp Ho ms1. pose proof (pr_ids ms Hp) as Hnd.
  destruct (partnerOf o ms) as [p|] eqn:Hpart; subst ms1; simpl.
  - apply partnerOf_Some in Hpart as (Hpin & Hoh & Hpk & Hpo).
    destruct (pr_half ms Hp o Ho Hoh) as [k Hk]. rewrite Hk in Hpk.
    assert (Member.shareType p = HALF) as Hph.
    { destruct (Member.shareType p) eqn:Hs; [|done].
      destruct (pr_full ms Hp p Hpin Hs) as [Hn|Hself]; [congruence|].
      assert (k = Member.id p) as -> by congruence.
      destruct (pr_canon ms Hp o (Member.id p))
        as [?|[_ (c & (Hc & Hch & _) & Hcid)]]; [done|done|].
      assert (c = p) as -> by by apply (NoDup_fmap_eq Member.id ms).
      congruence. }
    destruct (find_id_of_elem ms p Hnd Hpin) as [j Hfind]. rewrite Hfind.
    apply find_id_elem in Hfind as (Hj & _ & _).
    destruct (decide (Member.id p = k)) as [Hpcan|Hpnon].
    + (* the partner is the canonical member: nothing changes *)
      rewrite set_pairId_same by congruence. rewrite list_insert_id by done.
      split_and!; [done..|].
      intros q Hq. destruct (pr_canon ms Hp q _ Hq)
        as [?|[_ (c & (Hc & Hch & Hck) & Hcid)]]; [done|].
      assert (c = o) as -> by by apply (NoDup_fmap_eq Member.id ms).
      congruence.
    + (* the partner carries the id of [o]: it is set to its own id *)
      assert (k = Member.id o) as ->.
      { destruct (decide (Member.id o = k)) as [|Hok]; [done|].
        destruct Hpo. by apply (pr_one ms Hp p o k). }
      set (p' := Member.set_pairId (Some (Member.id p)) p).
      assert (putMember ms (<[j:=p']> ms) p') as Hput
        by by apply (putMember_insert ms j p).
      assert (paired (<[j:=p']> ms)) as Hp'.
      { apply (paired_put_self ms _ p' Hp Hput); [by left|].
        intros q Hq. simpl in *.
        destruct (pr_canon ms Hp q _ Hq)
          as [?|[_ (c & (Hc & Hch & Hck) & Hcid)]]; [done|].
        assert (c = p) as -> by by apply (NoDup_fmap_eq Member.id ms).
        congruence. }
      split_and!; [done| |by apply (ids_insert ms j p)|].
      * apply Hput. right. split; [done|]. simpl. congruence.
      * intros q (Hq & Hqh & Hqk). apply Hput in Hq as [-> |[Hq Hqp]].
        { simpl in Hqk. congruence. }
        destruct (decide (Member.id q = Member.id o)) as [|Hqo]; [done|].
        destruct Hqp. simpl. by apply (pr_one ms Hp q p (Member.id o)).
  - split_and!; [done..|].
    intros q Hq. destruct (decide (Member.id q = Member.id o)) as [|Hqo]; [done|].
    destruct (pr_canon ms Hp q _ Hq)
      as [?|[_ (c & (Hc & Hch & Hck) & Hcid)]]; [done|].
    assert (c = o) as -> by by apply (NoDup_fmap_eq Member.id ms).
    unfold partnerOf in Hpart. rewrite Hch in Hpart.
    destruct (list_find _ ms) as [[??]|] eqn:Hfind; [done|].
    apply list_find_None in Hfind. rewrite Forall_forall in Hfind.
    destruct Hq as (Hq & Hqh & Hqk). destruct (Hfind q Hq). split; congruence.
Qed.
Lemma fresh_no_carrier ms i :
  paired ms → i ∉ Member.id <$> ms →
  ∀ q, carries ms i q → Member.id q = i.
Proof.
  intros Hp Hfresh q Hq.
  destruct (pr_canon ms Hp q i Hq) as [?|[_ (c & (Hc & _) & Hcid)]]; [done|].
  destruct Hfresh. rewrite <-Hcid. by apply list_elem_of_fmap_2.
Qed.

Lemma putMember_twice ms ms1 ms2 a b :
  putMember ms ms1 a → putMember ms1 ms2 b → Member.id a = Member.id b →
  putMember ms ms2 b.
Proof.
  intros [_ H1] [Hnd H2] Hid. split; [done|]. intros x.
  rewrite H2, H1, Hid. split.
  - intros [-> |[[-> |[??]] ?]]; auto. done.
  - intros [-> |[??]]; auto.
Qed.

Lemma truthy_default o k : truthy o = Some k ↔ default "" o = k ∧ k ≠ "".
Proof.
  unfold truthy. destruct o as [k'|]; simpl.
  - case_decide; split; try done.
    + intros [-> ?]. done.
    + by intros [= ->].
    + by intros [-> _].
  - split; [done|]. by intros [<- ?].
Qed.

Lemma addMember_members_paired newId d ms :
  paired ms → newId ∉ Member.id <$> ms →
  match MemberData.shareType d with
  | FULL => MemberData.pairId d = None
  | HALF => ∀ p, p ∈ ms → truthy (MemberData.pairId d) = Some (Member.id p) →
                 freePartner ms newId p
  end →
  paired (addMember_members newId d ms).
Proof.
  intros Hp Hfresh Hd. pose proof (pr_ids ms Hp) as Hnd.
  pose proof (fresh_no_carrier ms newId Hp Hfresh) as Hnone.
  unfold addMember_members.
  set (newMember := Member.mk newId _ _ _ _ _).
  assert (paired (ms ++ [Member.set_pairId (Some newId) newMember])) as Halone.
  { apply (paired_put_self ms _ (Member.set_pairId (Some newId) newMember) Hp);
      [by apply putMember_app|by left|done]. }
  destruct (MemberData.shareType d) eqn:Hs.
  - apply (paired_put_self ms _ newMember Hp); [by apply putMember_app| |done].
    right. by split.
  - destruct (truthy (MemberData.pairId d)) as [pid|] eqn:Hpid; [|done].
    destruct (list_find _ ms) as [[j p]|] eqn:Hfind; [|done].
    apply find_id_elem in Hfind as (Hj & <- & Hpin).
    destruct (Hd p Hpin eq_refl) as [Hph Hfree].
    set (c := minId newId (Member.id p)).
    assert (putMember ms (<[j:=Member.set_pairId (Some c) p]> ms)
              (Member.set_pairId (Some c) p)) as Hput1
      by by apply (putMember_insert ms j p).
    eapply (paired_put_pair ms _ _ (Member.set_pairId (Some c) p)
              (Member.set_pairId (Some c) newMember) c);
      [exact Hp|exact Hput1|..]; try done.
    + apply putMember_app; [apply Hput1|]. by rewrite (ids_insert ms j p).
    + simpl. intros Heq. apply Hfresh. rewrite <-Heq. by apply list_elem_of_fmap_2.
Qed.

Lemma resetPartner_filter (partner : option Member.t) ms mid :
  (∀ p, partner = Some p → Member.id p ≠ mid) →
  resetPartner partner (filter (λ m, Member.id m ≠ mid) ms)
  = filter (λ m, Member.id m ≠ mid) (resetPartner partner ms).
Proof.
  intros Hne. destruct partner as [p|]; [|done]. simpl.
  specialize (Hne p eq_refl).
  destruct (list_find (λ m, Member.id m = Member.id p) ms) as [[i q]|] eqn:Hfind.
  - pose proof Hfind as (_ & Hq & _)%find_id_elem.
    destruct (list_find_filter_insert (λ m, Member.id m ≠ mid)
                (λ m, Member.id m = Member.id p) ms i q
                (Member.set_pairId (Some (Member.id p)) q) Hfind)
      as (j & -> & ->); simpl; congruence.
  - by rewrite (list_find_filter_None _ _ _ Hfind).
Qed.

Lemma deleteMember_members_paired mid o ms j :
  paired ms →
  list_find (λ m, Member.id m = mid) ms = Some (j, o) →
  paired (deleteMember_members mid o ms).
Proof.
  intros Hp (Hj & <- & Ho)%find_id_elem. unfold deleteMember_members.
  rewrite resetPartner_filter.
  - destruct (paired_release ms o Hp Ho) as (Hp1 & _ & _ & Hnone).
    by apply paired_remove.
  - by intros p (_ & _ & _ & ?)%partnerOf_Some.
Qed.

Lemma updateMember_members_paired u o ms j :
  paired ms →
  list_find (λ m, Member.id m = Member.id u) ms = Some (j, o) →
  match Member.shareType u with
  | FULL => truthy (Member.pairId u) = None
  | HALF =>
      let released := resetPartner (partnerOf o ms) ms in
      ∀ p, p ∈ released →
           truthy (Member.pairId u) = Some (Member.id p) →
           Member.id p ≠ Member.id u →
           freePartner released (Member.id u) p
  end →
  paired (updateMember_members u o ms).
Proof.
  intros Hp (Hj & Hou & Ho)%find_id_elem Hd. unfold updateMember_members.
  destruct (paired_release ms o Hp Ho) as (Hp1 & Ho1 & Hids & Hnone).
  set (ms1 := resetPartner (partnerOf o ms) ms) in *.
  pose proof (pr_ids ms1 Hp1) as Hnd1.
  rewrite Hou in Hnone.
  destruct (find_id_of_elem ms1 o Hnd1 Ho1) as [fi Hfo]. rewrite Hou in Hfo.
  assert (paired (<[fi:=Member.set_pairId (Some (Member.id u)) u]> ms1)) as Halone.
  { apply find_id_elem in Hfo as (Hfi & _ & _).
    apply (paired_put_self ms1 _ (Member.set_pairId (Some (Member.id u)) u) Hp1);
      [by apply (putMember_insert ms1 fi o)|by left|done]. }
  destruct (decide (default "" (Member.pairId u) = "")) as [Hpid|Hpid].
  { by rewrite Hfo. }
  destruct (list_find (λ m, Member.id m = default "" (Member.pairId u)) ms1)
    as [[pj p]|] eqn:Hfind; [|by rewrite Hfo].
  apply find_id_elem in Hfind as (Hpj & Hpidp & Hpin).
  assert (truthy (Member.pairId u) = Some (Member.id p)) as Htr
    by (apply truthy_default; split; congruence).
  set (c := minId (Member.id u) (default "" (Member.pairId u))).
  set (p' := Member.set_pairId (Some c) p).
  assert (putMember ms1 (<[pj:=p']> ms1) p') as Hput1
    by by apply (putMember_insert ms1 pj p).
  assert (∃ fi' x, list_find (λ m, Member.id m = Member.id u) (<[pj:=p']> ms1)
                   = Some (fi', x)) as (fi' & x & Hfx).
  { destruct (list_find (λ m, Member.id m = Member.id u) (<[pj:=p']> ms1))
      as [[fi' x]|] eqn:Hf; [by eauto|].
    apply list_find_None in Hf. rewrite Forall_forall in Hf.
    destruct (decide (Member.id p = Member.id u)) as [Hpu|Hpu].
    - destruct (Hf p'); [|done]. apply Hput1. by left.
    - destruct (Hf o); [|done]. apply Hput1. right. split; [done|]. simpl. congruence. }
  rewrite Hfx. apply find_id_elem in Hfx as (Hfi' & Hxid & _).
  set (n' := Member.set_pairId (Some c) u).
  assert (putMember (<[pj:=p']> ms1) (<[fi':=n']> (<[pj:=p']> ms1)) n') as Hput2.
  { apply (putMember_insert _ fi' x); [apply Hput1|done|done]. }
  destruct (decide (Member.id p = Member.id u)) as [Hpu|Hpu].
  - (* the member names itself *)
    assert (c = Member.id u) as Hc.
    { unfold c. rewrite <-Hpidp, Hpu. apply minId_idemp. }
    apply (paired_put_self ms1 _ n' Hp1);
      [|left; unfold n'; simpl; by rewrite Hc|exact Hnone].
    by apply (putMember_twice ms1 (<[pj:=p']> ms1) _ p' n').
  - destruct (Member.shareType u) eqn:Hus; [rewrite Htr in Hd; done|].
    destruct (Hd p Hpin Htr Hpu) as [Hph Hfree].
    eapply (paired_put_pair ms1 _ _ p' n' c);
      [exact Hp1|exact Hput1|exact Hput2|..]; try done.
    unfold c, n', p'. simpl. by rewrite Hpidp.
Qed.
Lemma pairDiscipline_step o e :
  pairDiscipline (Mutation o) e →
  wellFormed (state e) ∧ paired (members (state e)) →
  wellFormed (updater o (state e)) ∧ paired (members (updater o (state e))).
Proof.
  intros [Hm Hpd] [Hwf Hp]. split; [by apply memberDiscipline_step|].
  destruct o as [newId c|cid c|cid|newId d|u|mid| | | | | |]; try done.
  - cbn [updater]. unfold updateCommittee_upd.
    destruct (list_find _ _) as [[??]|]; [|done].
    by destruct (negb _ && _).
  - apply paired_remove_committee; [done|apply Hwf].
  - apply addMember_members_paired; [done|apply Hm|done].
  - cbn [updater]. unfold updateMember_upd.
    destruct (list_find _ (members (state e))) as [[j o]|] eqn:Hfind; [|done].
    cbn [members]. apply (updateMember_members_paired u o _ j); [done..|].
    apply find_id_elem in Hfind as (_ & Hid & Ho). by apply Hpd.
  - cbn [updater]. unfold deleteMember_upd.
    destruct (list_find _ (members (state e))) as [[j o]|] eqn:Hfind; [|done].
    case_decide; [done|]. cbn [members].
    by apply (deleteMember_members_paired mid o _ j).
Qed.

Lemma paired_nil : paired [].
Proof.
  split; try (intros m Hm; by apply elem_of_nil in Hm).
  - constructor.
  - intros m k (Hm & _). by apply elem_of_nil in Hm.
  - intros m m' k (Hm & _). by apply elem_of_nil in Hm.
Qed.
End Pairing.

(** X17. Pairs stay pairs when partners are free. In every state reached
    from the empty state by calls that keep to committee boundaries, send
    FULL members without a partner, and name as partner of a HALF member
    only a HALF member whose id no other HALF member carries (in an edit:
    once the former partner is released), every HALF member is unpaired or
    has exactly one partner with the smaller id of the two as pair id, and
    no pair id is carried by more than two HALF members; the same holds for
    every snapshot kept for undo. *)
Theorem pairing_kept_under_discipline (e : Engine) :
  reachableWith pairDiscipline e →
  pairingSymmetric (members (state e))
  ∧ Forall (λ s, pairingSymmetric (members s)) (history e).
Proof.
  intros He.
  destruct (reachableWith_invariant pairDiscipline
              (λ s, wellFormed s ∧ paired (members s))) with (e := e)
    as [[_ Hp] Hh]; [|..|done|].
  - split; [apply wellFormed_empty|apply paired_nil].
  - apply pairDiscipline_step.
  - split; [by apply paired_pairingSymmetric|].
    eapply Forall_impl; [done|]. intros s [_ Hs]. by apply paired_pairingSymmetric.
Qed.

Lemma pairing_kept_under_discipline_witness :
  let half i n p := AddMember i (MemberData.mk "c1" n "0300" HALF (Some p)) in
  let e := run (Mutation <$>
                  [AddCommittee "c1" (CommitteeData.mk "A" 1000 "2024-01-01" true);
                   half "a" "Asma" ""; half "b" "Bano" "a"; half "c" "Chand" "";
                   UpdateMember (Member.mk "b" "c1" "Bano" "0300" HALF (Some "c"));
                   DeleteMember "c"])
               (initialEngine emptyState) in
  members (state e)
  = [Member.mk "a" "c1" "Asma" "0300" HALF (Some "a");
     Member.mk "b" "c1" "Bano" "0300" HALF (Some "b")]
  ∧ pairingSymmetric (members (state e)).
Proof.
  intros half e. split; [reflexivity|].
  apply pairing_kept_under_discipline.
  unfold e, run. cbn [fmap list_fmap foldl].
  repeat lazymatch goal with
  | |- reachableWith _ (initialEngine _) => apply reach_initial
  | |- reachableWith _ (call _ _) => apply reach_call
  end.
  - split; [compute_done|exact I].
  - split; [split_and!; [compute_done|compute_done|each_member]|].
    intros p Hp. by apply elem_of_nil in Hp.
  - split; [split_and!; [compute_done|compute_done|each_member]|].
    intros p Hp _. vm_compute in Hp.
    repeat (apply elem_of_cons in Hp as [-> |Hp]); [|by apply elem_of_nil in Hp].
    split; [reflexivity|]. intros q (Hq & _ & _). vm_compute in Hq.
    repeat (apply elem_of_cons in Hq as [-> |Hq]); [|by apply elem_of_nil in Hq].
    by left.
  - split; [split_and!; [compute_done|compute_done|each_member]|].
    intros p Hp Ht. vm_compute in Ht. discriminate Ht.
  - split; [split; each_member|].
    intros o Ho Hid p Hp Ht _. vm_compute in Ht. injection Ht as Ht.
    vm_compute in Ho.
    repeat (apply elem_of_cons in Ho as [-> |Ho]);
      [discriminate Hid| |discriminate Hid|by apply elem_of_nil in Ho].
    vm_compute in Hp.
    repeat (apply elem_of_cons in Hp as [-> |Hp]);
      [discriminate Ht|discriminate Ht| |by apply elem_of_nil in Hp].
    split; [reflexivity|]. intros q (Hq & _ & Hk). vm_compute in Hq.
    repeat (apply elem_of_cons in Hq as [-> |Hq]);
      [discriminate Hk| |by left|by apply elem_of_nil in Hq].
    by right.
  - split; exact I.
Defined.

(** ** Progress shown by the dashboard *)

Section Dashboard.
Local Open Scope Z_scope.

(** The first day of the month with index [n], counted from January of
    year 0. *)
Lemma MakeDay_index y k : MakeDay 0 (12 * y + k) 1 = MakeDay y k 1.
Proof.
  unfold MakeDay.
  replace ((12 * y + k) `div` 12) with (y + k `div` 12)
    by (Z.div_mod_to_equations; lia).
  replace ((12 * y + k) `mod` 12) with (k `mod` 12)
    by (Z.div_mod_to_equations; lia).
  done.
Qed.

Lemma DaysInMonth_pos y mn : 28 ≤ DaysInMonth y mn ≤ 31.
Proof. unfold DaysInMonth. destruct (InLeapYear y); repeat case_decide; lia. Qed.

Lemma MakeDay_mono_nat a (n : nat) : MakeDay 0 a 1 ≤ MakeDay 0 (a + Z.of_nat n) 1.
Proof.
  induction n as [|n IH]; [by rewrite Z.add_0_r|].
  replace (a + Z.of_nat (S n)) with (a + Z.of_nat n + 1) by lia.
  rewrite MakeDay_next_month.
  pose proof (DaysInMonth_pos (0 + (a + Z.of_nat n) `div` 12) ((a + Z.of_nat n) `mod` 12)).
  lia.
Qed.

Lemma MakeDay_mono a b : a ≤ b → MakeDay 0 a 1 ≤ MakeDay 0 b 1.
Proof.
  intros Hab. replace b with (a + Z.of_nat (Z.to_nat (b - a))) by lia.
  apply MakeDay_mono_nat.
Qed.

Lemma MonthFromTime_range t : 0 ≤ MonthFromTime t ≤ 11.
Proof. unfold MonthFromTime. repeat case_decide; lia. Qed.

Lemma day_in_own_month t :
  let idx := 12 * YearFromTime t + MonthFromTime t in
  MakeDay 0 idx 1 ≤ Day t < MakeDay 0 (idx + 1) 1.
Proof.
  intros idx. unfold idx. rewrite MakeDay_next_month, !MakeDay_index.
  pose proof (MonthFromTime_range t) as Hr.
  pose proof (YearFromTime_bounds t) as Hb.
  rewrite DayFromYear_succ in Hb.
  replace ((12 * YearFromTime t + MonthFromTime t) `div` 12) with (YearFromTime t)
    by (Z.div_mod_to_equations; lia).
  replace ((12 * YearFromTime t + MonthFromTime t) `mod` 12) with (MonthFromTime t)
    by (Z.div_mod_to_equations; lia).
  rewrite Z.add_0_l.
  unfold MakeDay. rewrite Z.div_small, Z.mod_small, Z.add_0_r by lia.
  revert Hr. unfold MonthFromTime, DayWithinYear.
  set (y := YearFromTime t) in *. set (d := Day t) in *.
  destruct (InLeapYear y) eqn:Hleap;
    repeat case_decide; intros _;
    unfold monthOffset, DaysInMonth; rewrite ?Hleap; simpl; lia.
Qed.

Lemma month_index_reached t n :
  n ≤ 12 * YearFromTime t + MonthFromTime t ↔ MakeDay 0 n 1 * msPerDay ≤ t.
Proof.
  pose proof (day_in_own_month t) as [Hlo Hhi]. cbv zeta in *.
  assert (∀ D, D * msPerDay ≤ t ↔ D ≤ Day t) as Hday.
  { intros D. unfold Day, msPerDay. split; intros ?; Z.div_mod_to_equations; lia. }
  rewrite Hday. split.
  - intros Hn. apply MakeDay_mono in Hn. lia.
  - intros Hn. destruct (decide (n ≤ 12 * YearFromTime t + MonthFromTime t)); [done|].
    assert (12 * YearFromTime t + MonthFromTime t + 1 ≤ n) as Hle by lia.
    apply MakeDay_mono in Hle. lia.
Qed.
End Dashboard.

(** X18. When the dashboard shows a committee as complete. For a start
    date that reads as year [y] (100 to 9999), month [m] and a day [d] of
    that month, the committee is complete at the time [now] exactly when it
    has at least one month and [now] is at or after midnight (UTC) of the
    first day of the month [durationMonths] months after the start month;
    the day of the start date plays no part. *)
Theorem dashboard_complete_after_last_month (now : Z) (committee : Committee.t)
  (y m d : Z) :
  part 0 (Committee.startDate committee) = Some y →
  part 1 (Committee.startDate committee) = Some m →
  part 2 (Committee.startDate committee) = Some d →
  (100 ≤ y ≤ 9999)%Z → (1 ≤ m ≤ 12)%Z → (1 ≤ d ≤ DaysInMonth y (m - 1))%Z →
  isComplete now committee = true
  ↔ 0 < Committee.durationMonths committee
    ∧ (MakeDay y (m - 1 + Z.of_nat (Committee.durationMonths committee)) 1
       * msPerDay ≤ now)%Z.
Proof.
  intros Hy Hm Hd Hyr Hmr Hdr. unfold isComplete, monthsPassed.
  rewrite (parseDateAsUTC_day _ y m d) by done.
  cbn [getUTCFullYear getUTCMonth fmap option_fmap option_map].
  destruct (day_in_month y (m - 1) d ltac:(lia) Hdr) as [-> ->].
  rewrite andb_true_iff, !bool_decide_eq_true.
  rewrite <-MakeDay_index, <-month_index_reached.
  split; intros [Hpos Hle]; (split; [done|]); lia.
Qed.

Lemma dashboard_complete_after_last_month_witness :
  let committee := Committee.mk "c1" "A" 1000 "2024-11-05" 4 true in
  isComplete 1740787200000 committee = true
  ↔ 0 < 4 ∧ (MakeDay 2024 (11 - 1 + Z.of_nat 4) 1 * msPerDay ≤ 1740787200000)%Z.
Proof.
  intros committee.
  apply (dashboard_complete_after_last_month 1740787200000 committee 2024 11 5);
    [reflexivity|reflexivity|reflexivity|lia|lia|vm_compute; intuition discriminate].
Defined.

(** ** Editing a committee *)

Section CommitteeEdit.
Implicit Types (s : AppState) (upd : CommitteeData.t).

Lemma updateCommittee_upd_ids cid upd s :
  Committee.id <$> committees (updateCommittee_upd cid upd s)
  = Committee.id <$> committees s.
Proof.
  unfold updateCommittee_upd.
  destruct (list_find _ (committees s)) as [[i existing]|]; [|done].
  destruct (_ && _); [done|]. cbn [committees].
  rewrite <-list_fmap_compose. apply list_fmap_ext. intros _ c _. simpl.
  by case_decide.
Qed.

Lemma updateCommittee_upd_durations cid upd s :
  durationsDerived s →
  Committee.durationMonths <$> committees (updateCommittee_upd cid upd s)
  = Committee.durationMonths <$> committees s.
Proof.
  intros Hder. unfold updateCommittee_upd.
  destruct (list_find _ (committees s)) as [[i existing]|] eqn:Hfind; [|done].
  destruct (_ && _); [done|]. cbn [committees].
  apply list_find_Some in Hfind as (Hi & Hid & _).
  assert (existing ∈ committees s) as Hex by by eapply list_elem_of_lookup_2.
  rewrite <-list_fmap_compose. apply list_fmap_ext. intros j c Hj. simpl.
  case_decide as Hc; [|done]. simpl in *.
  assert (c ∈ committees s) as Hcin by by eapply list_elem_of_lookup_2.
  rewrite (Hder c Hcin), (Hder existing Hex). congruence.
Qed.

Lemma updateCommittee_upd_rest cid upd s :
  members (updateCommittee_upd cid upd s) = members s
  ∧ payments (updateCommittee_upd cid upd s) = payments s
  ∧ draws (updateCommittee_upd cid upd s) = draws s.
Proof.
  unfold updateCommittee_upd.
  destruct (list_find _ (committees s)) as [[i existing]|]; [|done].
  by destruct (_ && _).
Qed.

Lemma updateCommittee_upd_details cid upd s c :
  cid ∈ Committee.id <$> committees s →
  (CommitteeData.allowHalfShare upd = true
   ∨ hasHalfShareMembers cid (members s) = false) →
  c ∈ committees (updateCommittee_upd cid upd s) →
  Committee.id c = cid →
  Committee.name c = CommitteeData.name upd
  ∧ Committee.monthlyAmount c = CommitteeData.monthlyAmount upd
  ∧ Committee.startDate c = CommitteeData.startDate upd
  ∧ Committee.allowHalfShare c = CommitteeData.allowHalfShare upd.
Proof.
  intros Hcid Hok. unfold updateCommittee_upd.
  destruct (list_find _ (committees s)) as [[i existing]|] eqn:Hfind.
  - assert (negb (CommitteeData.allowHalfShare upd)
            && hasHalfShareMembers cid (members s) = false) as ->.
    { destruct Hok as [-> | ->]; [done|]. apply andb_false_r. }
    cbn [committees]. intros (c0 & -> & Hc0)%list_elem_of_fmap.
    simpl. by case_decide.
  - apply list_find_None in Hfind. rewrite Forall_forall in Hfind.
    apply list_elem_of_fmap in Hcid as (c0 & -> & Hc0). by destruct (Hfind c0 Hc0).
Qed.
End CommitteeEdit.

(** X19. An edit of a committee changes its details and nothing else.
    [updateCommittee] leaves members, payments and draws as they are and
    keeps the ids of the committees, in order. Where durations were the
    derived ones they are all kept, that of the edited committee included,
    and stay the derived ones. When the edit is applied (the id exists, and
    half shares stay allowed or the committee has no HALF member), every
    committee with that id carries the name, the amount, the start date and
    the half-share flag that were sent. *)
Theorem updateCommittee_edits_details_only (cid : string) (upd : CommitteeData.t)
  (s : AppState) :
  let s' := updateCommittee_upd cid upd s in
  members s' = members s ∧ payments s' = payments s ∧ draws s' = draws s
  ∧ Committee.id <$> committees s' = Committee.id <$> committees s
  ∧ (durationsDerived s →
     Committee.durationMonths <$> committees s'
     = Committee.durationMonths <$> committees s
     ∧ durationsDerived s')
  ∧ (cid ∈ Committee.id <$> committees s →
     CommitteeData.allowHalfShare upd = true
     ∨ hasHalfShareMembers cid (members s) = false →
     ∀ c, c ∈ committees s' → Committee.id c = cid →
          Committee.name c = CommitteeData.name upd
          ∧ Committee.monthlyAmount c = CommitteeData.monthlyAmount upd
          ∧ Committee.startDate c = CommitteeData.startDate upd
          ∧ Committee.allowHalfShare c = CommitteeData.allowHalfShare upd).
Proof.
  intros s'. destruct (updateCommittee_upd_rest cid upd s) as (Hm & Hp & Hd).
  split_and!; try done.
  - apply updateCommittee_upd_ids.
  - intros Hder. split; [by apply updateCommittee_upd_durations|].
    intros c Hc. unfold s' in *. rewrite Hm.
    assert (∃ c0, c0 ∈ committees s ∧ Committee.id c0 = Committee.id c
                  ∧ Committee.durationMonths c0 = Committee.durationMonths c)
      as (c0 & Hc0 & <- & <-); [|by apply Hder].
    apply list_elem_of_lookup in Hc as [i Hi].
    pose proof (updateCommittee_upd_ids cid upd s) as Hids.
    pose proof (updateCommittee_upd_durations cid upd s Hder) as Hdur.
    apply (f_equal (λ l, l !! i)) in Hids, Hdur. cbv beta in Hids, Hdur.
    rewrite !list_lookup_fmap in Hids. rewrite !list_lookup_fmap in Hdur.
    rewrite Hi in Hids, Hdur.
    destruct (committees s !! i) as [c0|] eqn:Hc0; [|done].
    exists c0. simpl in *. split_and!; [by eapply list_elem_of_lookup_2|congruence..].
  - intros Hcid Hok c. by apply updateCommittee_upd_details.
Qed.

Lemma updateCommittee_edits_details_only_witness :
  let s := state endToEnd in
  let s' := updateCommittee_upd "c1" (CommitteeData.mk "B" 2000 "2025-01-01" true) s in
  Committee.durationMonths <$> committees s' = [3]
  ∧ ∀ c, c ∈ committees s' → Committee.id c = "c1" → Committee.name c = "B".
Proof.
  intros s s'.
  destruct (updateCommittee_edits_details_only "c1"
              (CommitteeData.mk "B" 2000 "2025-01-01" true) s)
    as (_ & _ & _ & _ & Hdur & Hdet).
  split.
  - destruct Hdur as [Hdur _]; [apply endToEnd_wellFormed|].
    exact (eq_trans Hdur eq_refl).
  - intros c Hc Hid. by destruct (Hdet ltac:(compute_done) ltac:(by left) c Hc Hid).
Defined.

(** ** Saving an edit that changes nothing *)

Section UnchangedEdit.
Implicit Types (ms : list Member.t) (em a b p q : Member.t) (k : string).

Lemma partnerOf_carrier ms em p :
  paired ms → em ∈ ms → partnerOf em ms = Some p →
  ∃ k, Member.pairId em = Some k ∧ carries ms k p ∧ Member.id p ≠ Member.id em.
Proof.
  intros Hp Hem (Hpin & Hh & Hpk & Hne)%partnerOf_Some.
  destruct (pr_half ms Hp em Hem Hh) as [k Hk]. rewrite Hk in Hpk.
  exists k. split_and!; try done.
  destruct (Member.shareType p) eqn:Hs; [|done].
  destruct (pr_full ms Hp p Hpin Hs) as [?|Hself]; [congruence|].
  assert (k = Member.id p) as -> by congruence.
  destruct (pr_canon ms Hp em (Member.id p))
    as [?|[_ (c & (Hc & Hch & _) & Hcid)]]; [done|done|].
  assert (c = p) as -> by by apply (NoDup_fmap_eq Member.id ms); [apply Hp|..].
  congruence.
Qed.

Lemma partnerOf_found ms em p k :
  em ∈ ms → Member.shareType em = HALF → Member.pairId em = Some k →
  p ∈ ms → Member.pairId p = Some k → Member.id p ≠ Member.id em →
  is_Some (partnerOf em ms).
Proof.
  intros Hem Hh Hk Hp Hpk Hne. unfold partnerOf. rewrite Hh.
  destruct (list_find _ ms) as [[j x]|] eqn:Hfind; [by eexists|].
  apply list_find_None in Hfind. rewrite Forall_forall in Hfind.
  destruct (Hfind p Hp). split; congruence.
Qed.

Lemma insert_same_member ms m :
  NoDup (Member.id <$> ms) → m ∈ ms →
  ∃ j, list_find (λ x, Member.id x = Member.id m) ms = Some (j, m)
       ∧ <[j:=m]> ms = ms.
Proof.
  intros Hnd Hm. destruct (find_id_of_elem ms m Hnd Hm) as [j Hj]. exists j.
  split; [done|]. apply find_id_elem in Hj as (Hj & _). by apply list_insert_id.
Qed.

(** The member an unchanged edit of [em] sends. *)
Lemma unchanged_final em cid k :
  Member.committeeId em = cid → Member.shareType em = HALF →
  Member.pairId em = Some k →
  ∀ v, Member.set_pairId (Some k)
         (Member.mk (Member.id em) cid (Member.name em) (Member.phone em) HALF v)
       = em.
Proof. destruct em. simpl. by intros -> -> ->. Qed.

Lemma unchanged_edit_alone ms em cid :
  paired ms → em ∈ ms → Member.committeeId em = cid →
  Member.shareType em = HALF → Member.pairId em = Some (Member.id em) →
  (∀ q, carries ms (Member.id em) q → Member.id q = Member.id em) →
  updateMember_members
    (Member.mk (Member.id em) cid (Member.name em) (Member.phone em) HALF (Some ""))
    em ms = ms.
Proof.
  intros Hp Hem Hc Hh Hk Halone. unfold updateMember_members.
  assert (partnerOf em ms = None) as ->.
  { destruct (partnerOf em ms) as [p|] eqn:Hpart; [|done].
    apply partnerOf_carrier in Hpart as (k & Hk' & Hcar & Hne); [|done..].
    destruct Hne. apply Halone. congruence. }
  cbn [resetPartner Member.pairId Member.id default]. rewrite decide_True by done.
  destruct (insert_same_member ms em (pr_ids ms Hp) Hem) as (j & -> & Hins).
  by rewrite unchanged_final.
Qed.

Lemma unchanged_edit_joined ms em cid k :
  paired ms → em ∈ ms → "" ∉ Member.id <$> ms →
  Member.committeeId em = cid →
  Member.shareType em = HALF → Member.pairId em = Some k → k ≠ Member.id em →
  updateMember_members
    (Member.mk (Member.id em) cid (Member.name em) (Member.phone em) HALF (Some k))
    em ms = ms.
Proof.
  intros Hp Hem Hempty Hc Hh Hk Hne. unfold updateMember_members.
  pose proof (pr_ids ms Hp) as Hnd.
  destruct (pr_canon ms Hp em k) as [?|[Hmin (a & (Ha & Hah & Hak) & Haid)]];
    [done|done|].
  assert (partnerOf em ms = Some a) as ->.
  { destruct (partnerOf_found ms em a k) as [p Hpart]; try done; [congruence|].
    rewrite Hpart. f_equal.
    apply partnerOf_carrier in Hpart as (k' & Hk' & Hcar & Hpne); [|done..].
    assert (k' = k) as -> by congruence.
    apply (NoDup_fmap_eq Member.id ms); [done|apply Hcar|done|]. rewrite Haid.
    destruct (decide (Member.id p = k)) as [|Hpk]; [done|].
    destruct Hpne. by apply (pr_one ms Hp p em k). }
  destruct (insert_same_member ms a Hnd Ha) as (j & Hfa & Hins).
  assert (Member.set_pairId (Some k) a = a) as Hsame
    by (rewrite <-Haid; apply set_pairId_same; congruence).
  assert (resetPartner (Some a) ms = ms) as ->.
  { simpl. rewrite Hfa, Haid, Hsame. done. }
  cbn [Member.pairId Member.id default]. change (id k) with k.
  assert (k ≠ "") as Hkne.
  { intros ->. apply Hempty. rewrite <-Haid. by apply list_elem_of_fmap_2. }
  rewrite decide_False by done. rewrite Haid in Hfa. rewrite Hfa.
  rewrite Hmin, Hsame, Hins.
  destruct (insert_same_member ms em Hnd Hem) as (fi & -> & Hins').
  by rewrite unchanged_final.
Qed.

Lemma unchanged_edit_canonical ms em cid b :
  paired ms → em ∈ ms → Member.committeeId em = cid →
  carries ms (Member.id em) b → Member.id b ≠ Member.id em →
  ∃ j, ms !! j = Some b
       ∧ updateMember_members
           (Member.mk (Member.id em) cid (Member.name em) (Member.phone em)
                      HALF (Some ""))
           em ms
         = <[j:=Member.set_pairId (Some (Member.id b)) b]> ms.
Proof.
  intros Hp Hem Hc Hb Hne. unfold updateMember_members.
  pose proof (pr_ids ms Hp) as Hnd.
  destruct (pr_canon ms Hp b _ Hb) as [?|[_ (c & (Hcin & Hch & Hck) & Hcid)]];
    [done|].
  assert (c = em) as -> by by apply (NoDup_fmap_eq Member.id ms).
  assert (partnerOf em ms = Some b) as ->.
  { destruct (partnerOf_found ms em b (Member.id em)) as [p Hpart]; try done;
      [apply Hb..|].
    rewrite Hpart. f_equal.
    apply partnerOf_carrier in Hpart as (k' & Hk' & Hcar & Hpne); [|done..].
    assert (k' = Member.id em) as -> by congruence.
    apply (NoDup_fmap_eq Member.id ms); [done|apply Hcar|apply Hb|].
    by apply (pr_one ms Hp p b (Member.id em)). }
  destruct (find_id_of_elem ms b Hnd) as [j Hfb]; [apply Hb|].
  exists j. pose proof Hfb as (Hj & _ & _)%find_id_elem. split; [done|].
  cbn [resetPartner]. rewrite Hfb.
  cbn [Member.pairId Member.id default]. rewrite decide_True by done.
  set (ms1 := <[j:=Member.set_pairId (Some (Member.id b)) b]> ms).
  assert (putMember ms ms1 (Member.set_pairId (Some (Member.id b)) b)) as [Hnd1 Hin1]
    by by apply (putMember_insert ms j b).
  assert (em ∈ ms1) as Hem1.
  { apply Hin1. right. split; [done|]. simpl. congruence. }
  destruct (insert_same_member ms1 em Hnd1 Hem1) as (fi & -> & Hins).
  by rewrite unchanged_final.
Qed.
End UnchangedEdit.

Lemma members_updateMember_upd u em s j :
  list_find (λ m, Member.id m = Member.id u) (members s) = Some (j, em) →
  members (updateMember_upd u s) = updateMember_members u em (members s).
Proof. intros Hfind. unfold updateMember_upd. by rewrite Hfind. Qed.

(** X20. Saving the member dialog without a change. The dialog opens on
    a HALF member with the partner field set to the member's pair id when
    that is not its own id, and empty otherwise. In a paired member list,
    saving it as it opened leaves the member list as it was when no other
    HALF member carries the member's id: an unpaired member, or the member
    of a pair that has the larger id. When the member's id is the pair id
    of a partner [b], the save releases [b], which gets its own id as pair
    id, and changes nothing else: the pair is dissolved. *)
Theorem unchanged_edit_dissolves_pair_of_smaller_id (s : AppState)
  (committee : Committee.t) (em : Member.t) (newId : string) (o : Op) :
  paired (members s) → em ∈ members s → "" ∉ Member.id <$> members s →
  Member.committeeId em = Committee.id committee →
  Member.shareType em = HALF →
  memberDialogSubmit committee (Some em) (Member.name em) (Member.phone em)
    HALF (initialPartnerId (Some em)) newId = Some o →
  ((∀ q, carries (members s) (Member.id em) q → Member.id q = Member.id em) →
   members (updater o s) = members s)
  ∧ (∀ b, carries (members s) (Member.id em) b → Member.id b ≠ Member.id em →
       ∃ j, members s !! j = Some b
            ∧ members (updater o s)
              = <[j:=Member.set_pairId (Some (Member.id b)) b]> (members s)).
Proof.
  intros Hp Hem Hempty Hc Hh. unfold memberDialogSubmit.
  case_decide as Hblank; [done|]. intros [= <-].
  destruct (find_id_of_elem (members s) em (pr_ids _ Hp) Hem) as [j Hfind].
  cbn [updater dialogMemberData MemberData.committeeId MemberData.name
       MemberData.phone MemberData.shareType MemberData.pairId].
  rewrite (members_updateMember_upd _ em s j) by done.
  destruct (pr_half _ Hp em Hem Hh) as [k Hk].
  unfold initialPartnerId. rewrite Hk.
  destruct (decide (k = Member.id em)) as [-> |Hne].
  - rewrite decide_False by (intros [_ ?]; done). split.
    + intros Halone. by apply unchanged_edit_alone.
    + intros b Hb Hbne. by apply unchanged_edit_canonical.
  - rewrite decide_True by (split; [done|congruence]). cbn [default].
    change (id k) with k. split.
    + intros _. by apply unchanged_edit_joined.
    + intros b Hb Hbne.
      destruct (pr_canon _ Hp b _ Hb)
        as [?|[_ (c & (Hcin & Hch & Hck) & Hcid)]]; [done|].
      assert (c = em) as -> by by apply (NoDup_fmap_eq Member.id (members s)); [apply Hp|..].
      congruence.
Qed.

Lemma pairDiscipline_paired e :
  reachableWith pairDiscipline e → paired (members (state e)).
Proof.
  intros He.
  destruct (reachableWith_invariant pairDiscipline
              (λ s, wellFormed s ∧ paired (members s))) with (e := e)
    as [[_ Hp] _]; [|..|done|done].
  - split; [apply wellFormed_empty|apply paired_nil].
  - apply pairDiscipline_step.
Qed.

Lemma pairedScenario_paired : paired (members (state pairedScenario)).
Proof.
  apply pairDiscipline_paired.
  unfold pairedScenario, run. cbn [fmap list_fmap foldl].
  repeat lazymatch goal with
  | |- reachableWith _ (initialEngine _) => apply reach_initial
  | |- reachableWith _ (call _ _) => apply reach_call
  end.
  - split; [compute_done|exact I].
  - split; [split_and!; [compute_done|compute_done|each_member]|].
    intros p Hp. by apply elem_of_nil in Hp.
  - split; [split_and!; [compute_done|compute_done|each_member]|].
    intros p Hp _. vm_compute in Hp.
    repeat (apply elem_of_cons in Hp as [-> |Hp]); [|by apply elem_of_nil in Hp].
    split; [reflexivity|]. intros q (Hq & _ & _). vm_compute in Hq.
    repeat (apply elem_of_cons in Hq as [-> |Hq]); [|by apply elem_of_nil in Hq].
    by left.
Qed.

Lemma unchanged_edit_dissolves_pair_of_smaller_id_witness :
  let s := state pairedScenario in
  let b := Member.mk "b" "c1" "Bano" "0301" HALF (Some "a") in
  members (updater (UpdateMember b) s) = members s
  ∧ ∃ j, members s !! j = Some b
         ∧ members (updater (UpdateMember
                      (Member.mk "a" "c1" "Asma" "0300" HALF (Some ""))) s)
           = <[j:=Member.set_pairId (Some "b") b]> (members s).
Proof.
  intros s b.
  set (committee := Committee.mk "c1" "A" 1000 "2024-01-01" 1 true).
  set (a := Member.mk "a" "c1" "Asma" "0300" HALF (Some "a")).
  pose proof pairedScenario_paired as Hp.
  split.
  - destruct (unchanged_edit_dissolves_pair_of_smaller_id s committee b "x"
                (UpdateMember b) Hp) as [Hsame _];
      [compute_done|compute_done|reflexivity|reflexivity|reflexivity|].
    apply Hsame. intros q (Hq & _ & Hk). vm_compute in Hq.
    repeat (apply elem_of_cons in Hq as [-> |Hq]);
      [discriminate Hk|reflexivity|by apply elem_of_nil in Hq].
  - destruct (unchanged_edit_dissolves_pair_of_smaller_id s committee a "x"
                (UpdateMember (Member.mk "a" "c1" "Asma" "0300" HALF (Some "")))
                Hp) as [_ Hdis];
      [compute_done|compute_done|reflexivity|reflexivity|reflexivity|].
    apply (Hdis b); [|discriminate]. split_and!; [compute_done|reflexivity..].
Defined.
